(** * Parker LinkedIn lookup extension: HTML extraction helpers and CRM client

    A shallow embedding of [html-parser.js], of the two revisions of the
    Parker client ([parker-client.js]) found in the repository, of the
    message router ([background.js]), of the button of the onboarding page
    ([onboarding.js]) and of the functions of the content script that read
    the profile ([content.js]), with the properties the specification states
    about them and further properties of the code.

    Strings.  A JavaScript string is a sequence of UTF-16 code units; the
    model takes the code units 0..255 ([list ascii]).  On that range
    [toLowerCase], [trim] and the classes [\s], [\d] and the [i] flag are
    written out exactly as ECMAScript defines them.

    Regular expressions.  Every regular expression literal of the source is
    written as a term of [regex] and run by a backtracking matcher that
    lists the ways to match in the priority order of ECMAScript (greedy
    quantifiers longest first, lazy ones shortest first, alternatives left
    to right).  [exec] searches for the leftmost position that has a match,
    as [RegExp.prototype.exec] does. *)

From Stdlib Require Import Ascii String List Arith Lia Bool DecimalString.
From stdpp Require Import base gmap strings.
Import ListNotations.

Set Implicit Arguments.

Abbreviation str := (list ascii).

Coercion list_ascii_of_string : string >-> list.

Local Open Scope list_scope.

(** ** Characters *)

Module Char.

Definition code (a : ascii) : nat := nat_of_ascii a.

Definition between (lo hi : nat) (a : ascii) : bool :=
  (lo <=? code a) && (code a <=? hi).

Definition is_digit (a : ascii) : bool := between 48 57 a.
Definition is_upper (a : ascii) : bool := between 65 90 a.
Definition is_lower (a : ascii) : bool := between 97 122 a.
Definition is_alpha (a : ascii) : bool := is_upper a || is_lower a.

(** White space and line terminators of ECMAScript below code 256: TAB, LF,
    VT, FF, CR, SP and NBSP.  Used by [trim] and by [\s]. *)
Definition is_space (a : ascii) : bool :=
  between 9 13 a || (code a =? 32) || (code a =? 160).

(** Capital letters of Latin-1 outside ASCII: U+00C0..U+00DE but U+00D7. *)
Definition is_upper_latin1 (a : ascii) : bool :=
  between 192 222 a && negb (code a =? 215).

(** [String.prototype.toLowerCase] on one code unit. *)
Definition lower (a : ascii) : ascii :=
  if is_upper a || is_upper_latin1 a then ascii_of_nat (code a + 32) else a.

(** Canonicalisation of the [i] flag (no [u] flag): upper-casing, except that
    a code unit of 128 or more is never mapped below 128.  The patterns of
    the source hold ASCII characters only, so only ASCII letters fold. *)
Definition fold (a : ascii) : ascii :=
  if is_lower a then ascii_of_nat (code a - 32) else a.

Definition eqb (a b : ascii) : bool := Ascii.eqb a b.

(** A literal character of a pattern: without and with the [i] flag. *)
Definition exactly (c : ascii) : ascii -> bool := fun a => eqb a c.
Definition exactly_i (c : ascii) : ascii -> bool := fun a => eqb (fold a) (fold c).
Definition any : ascii -> bool := fun _ => true.

End Char.

(** ** String operations of the source *)

Definition toLowerCase (s : str) : str := map Char.lower s.

Fixpoint trimStart (s : str) : str :=
  match s with
  | a :: s' => if Char.is_space a then trimStart s' else s
  | [] => []
  end.

Definition trimEnd (s : str) : str := rev (trimStart (rev s)).

Definition trim (s : str) : str := trimEnd (trimStart s).

Fixpoint starts_with (p s : str) : bool :=
  match p, s with
  | [], _ => true
  | a :: p', b :: s' => Char.eqb a b && starts_with p' s'
  | _ :: _, [] => false
  end.

(** [s.replace(pat, rep)] with a string pattern: the first occurrence only.
    The replacement texts of the source hold no [$]. *)
Fixpoint replace_str (pat rep s : str) : str :=
  if starts_with pat s then rep ++ skipn (length pat) s
  else match s with
       | [] => []
       | a :: s' => a :: replace_str pat rep s'
       end.

(** [s.includes(pat)]. *)
Fixpoint includes (pat s : str) : bool :=
  starts_with pat s ||
  match s with
  | [] => false
  | _ :: s' => includes pat s'
  end.

(** [s.split(sep)] with a one-character separator. *)
Fixpoint split_on (sep : ascii) (s : str) : list str :=
  match s with
  | [] => [[]]
  | a :: s' =>
      if Char.eqb a sep then [] :: split_on sep s'
      else match split_on sep s' with
           | t :: ts => (a :: t) :: ts
           | [] => [[a]]
           end
  end.

(** ** Regular expressions *)

Inductive regex : Type :=
| Eps
| Chr (p : ascii -> bool)
| Rep (lazy : bool) (lo : nat) (hi : option nat) (p : ascii -> bool)
| Cat (r1 r2 : regex)
| Alt (r1 r2 : regex)
| Grp (i : nat) (r : regex)
| Eoi.

Declare Scope regex_scope.
Delimit Scope regex_scope with re.
Bind Scope regex_scope with regex.
Infix "·" := Cat (at level 41, right associativity) : regex_scope.

Definition caps := list (nat * str).

Fixpoint cap_lookup (i : nat) (c : caps) : option str :=
  match c with
  | [] => None
  | (j, t) :: c' => if i =? j then Some t else cap_lookup i c'
  end.

(** Length of the longest prefix whose characters all satisfy [p]. *)
Fixpoint run_length (p : ascii -> bool) (s : str) : nat :=
  match s with
  | a :: s' => if p a then S (run_length p s') else 0
  | [] => 0
  end.

Definition rep_top (hi : option nat) (p : ascii -> bool) (s : str) : nat :=
  match hi with
  | Some h => Nat.min h (run_length p s)
  | None => run_length p s
  end.

(** The repetition counts a quantifier tries, in the order it tries them. *)
Definition rep_counts (lazy : bool) (lo : nat) (hi : option nat)
    (p : ascii -> bool) (s : str) : list nat :=
  let ns := seq lo (S (rep_top hi p s) - lo) in
  if lazy then ns else rev ns.

(** [ms r s c]: the ways [r] matches at the start of [s], in priority order;
    each gives the input left and the captures. *)
Fixpoint ms (r : regex) (s : str) (c : caps) : list (str * caps) :=
  match r with
  | Eps => [(s, c)]
  | Chr p =>
      match s with
      | a :: s' => if p a then [(s', c)] else []
      | [] => []
      end
  | Rep lz lo hi p =>
      map (fun n => (skipn n s, c)) (rep_counts lz lo hi p s)
  | Cat r1 r2 => flat_map (fun x => ms r2 (fst x) (snd x)) (ms r1 s c)
  | Alt r1 r2 => ms r1 s c ++ ms r2 s c
  | Grp i r1 =>
      map (fun x => (fst x, (i, firstn (length s - length (fst x)) s) :: snd x))
          (ms r1 s c)
  | Eoi =>
      match s with
      | [] => [(s, c)]
      | _ :: _ => []
      end
  end.

(** The result of a successful [exec]: [m.index], [m[0]], the groups, and the
    input after the match. *)
Record rmatch : Type := mkMatch {
  m_index : nat;
  m_text : str;
  m_caps : caps;
  m_rest : str
}.

(** [m[i]]; every group of the patterns of the source takes part in every
    match, so an unset group does not arise. *)
Definition group (m : rmatch) (i : nat) : str :=
  match cap_lookup i (m_caps m) with
  | Some t => t
  | None => []
  end.

(** End position of the match: the [lastIndex] a global pattern is left
    with. *)
Definition m_end (m : rmatch) : nat := m_index m + length (m_text m).

(** Leftmost match in [s], which starts at position [idx] of the subject. *)
Fixpoint search (r : regex) (s : str) (idx : nat) : option rmatch :=
  match ms r s [] with
  | (rest, c) :: _ =>
      Some (mkMatch idx (firstn (length s - length rest) s) c rest)
  | [] =>
      match s with
      | [] => None
      | _ :: s' => search r s' (S idx)
      end
  end.

(** [re.exec(s)] for a pattern whose [lastIndex] is [lastIndex]; a pattern
    without the [g] flag always starts at 0. *)
Definition exec (r : regex) (s : str) (lastIndex : nat) : option rmatch :=
  if lastIndex <=? length s then search r (skipn lastIndex s) lastIndex
  else None.

(** [s.match(re)] and [re.test(s)] for a pattern without the [g] flag. *)
Definition match_re (r : regex) (s : str) : option rmatch := exec r s 0.
Definition test_re (r : regex) (s : str) : bool :=
  match match_re r s with Some _ => true | None => false end.

(** [s.replace(re, rep)] for a pattern without the [g] flag. *)
Definition replace_re (r : regex) (rep s : str) : str :=
  match match_re r s with
  | Some m => firstn (m_index m) s ++ rep ++ m_rest m
  | None => s
  end.

(** [s.replace(re, rep)] for a pattern with the [g] flag.  [skip] counts the
    characters still covered by the last match.  After an empty match the
    search moves one character on, as [replace] does. *)
Fixpoint replace_all_from (r : regex) (rep s : str) (skip : nat) : str :=
  match skip, s with
  | S k, _ :: s' => replace_all_from r rep s' k
  | S _, [] => []
  | 0, _ =>
      match ms r s [] with
      | (rest, _) :: _ =>
          rep ++
          match s with
          | [] => []
          | a :: s' =>
              match length s - length rest with
              | 0 => a :: replace_all_from r rep s' 0
              | S k => replace_all_from r rep s' k
              end
          end
      | [] =>
          match s with
          | [] => []
          | a :: s' => a :: replace_all_from r rep s' 0
          end
      end
  end.

Definition replace_all (r : regex) (rep s : str) : str :=
  replace_all_from r rep s 0.

(** Pattern builders. *)
Definition lit (s : str) : regex := fold_right (fun a r => Cat (Chr (Char.exactly a)) r) Eps s.
Definition lit_i (s : str) : regex := fold_right (fun a r => Cat (Chr (Char.exactly_i a)) r) Eps s.
Definition many (p : ascii -> bool) : regex := Rep false 0 None p.
Definition many1 (p : ascii -> bool) : regex := Rep false 1 None p.
Definition optional (p : ascii -> bool) : regex := Rep false 0 (Some 1) p.
Definition many_lazy (p : ascii -> bool) : regex := Rep true 0 None p.
Definition not_in (cs : str) : ascii -> bool :=
  fun a => negb (existsb (Char.eqb a) cs).

(** The double quote.  Pattern and sample texts below, and the patterns
    quoted in comments, are written with a backquote where the source has a
    double quote; [qq] puts the double quotes back.  No text of the source
    holds a backquote. *)
Definition dq : ascii := ascii_of_nat 34.
Definition qq (s : str) : str :=
  map (fun a => if Char.eqb a (ascii_of_nat 96) then dq else a) s.

(** ** [html-parser.js] *)

(** Outcome of a [while ((m = re.exec(s)) !== null)] loop: the loop ends with
    a value, or it is still running when its fuel is used up.  The loops
    below are started with more fuel than their subject has characters;
    [Hang] then stands for a loop that does not end. *)
Inductive run (A : Type) : Type :=
| Done (a : A)
| Hang.
Arguments Done {A} a.
Arguments Hang {A}.

Module Re.

(** "/<meta\s+name=`csrf-token`\s+content=`([^`]+)`/" *)
Definition meta_token : regex :=
  (lit "<meta" · many1 Char.is_space · lit (qq "name=`csrf-token`") ·
   many1 Char.is_space · lit (qq "content=`") ·
   Grp 1 (many1 (not_in [dq])) · lit [dq])%re.

(** "/<input[^>]*name=`authenticity_token`[^>]*value=`([^`]+)`/" *)
Definition input_name_value : regex :=
  (lit "<input" · many (not_in ">") · lit (qq "name=`authenticity_token`") ·
   many (not_in ">") · lit (qq "value=`") ·
   Grp 1 (many1 (not_in [dq])) · lit [dq])%re.

(** "/<input[^>]*value=`([^`]+)`[^>]*name=`authenticity_token`/" *)
Definition input_value_name : regex :=
  (lit "<input" · many (not_in ">") · lit (qq "value=`") ·
   Grp 1 (many1 (not_in [dq])) · lit [dq] ·
   many (not_in ">") · lit (qq "name=`authenticity_token`"))%re.

(** "/&#x2[Bb];/", "/&#x2[Ff];/" and "/&#x3[Dd];/" *)
Definition hex_entity (d : ascii) (lo up : ascii) : regex :=
  (lit "&#x" · Chr (Char.exactly d) ·
   Chr (fun a => Char.eqb a up || Char.eqb a lo) · lit ";")%re.

(** "/\/+$/" *)
Definition trailing_slashes : regex := (many1 (Char.exactly "/") · Eoi)%re.

(** "/\/in\/([^/?]+)/" *)
Definition in_slug : regex := (lit "/in/" · Grp 1 (many1 (not_in "/?")))%re.

(** "/-[a-z]?\d{5,}\d*$/i" *)
Definition id_suffix : regex :=
  (lit "-" · optional Char.is_alpha · Rep false 5 None Char.is_digit ·
   many Char.is_digit · Eoi)%re.

(** "/\/candidates\/(\d+)/" *)
Definition candidate_id : regex :=
  (lit "/candidates/" · Grp 1 (many1 Char.is_digit))%re.

(** "/\/candidates\/\d+$/" and "/\/candidates\/\d+/", tested on resolved
    URLs by the client. *)
Definition detail_url_end : regex :=
  (lit "/candidates/" · many1 Char.is_digit · Eoi)%re.
Definition detail_url : regex := (lit "/candidates/" · many1 Char.is_digit)%re.

(** "/<h1[^>]*>([\s\S]*?)<\/h1>/i" *)
Definition h1 : regex :=
  (lit_i "<h1" · many (not_in ">") · lit ">" · Grp 1 (many_lazy Char.any) ·
   lit_i "</h1>")%re.

(** "/<[^>]*>/g" *)
Definition tag : regex := (lit "<" · many (not_in ">") · lit ">")%re.

(** The value container after a label, under the [i] flag:
    "<\/dt>\s*<dd[^>]*>([\s\S]*?)<\/dd>" *)
Definition dd_value : regex :=
  (lit_i "</dt>" · many Char.is_space · lit_i "<dd" · many (not_in ">") ·
   lit ">" · Grp 1 (many_lazy Char.any) · lit_i "</dd>")%re.

(** "/Sourced\s+By<\/dt>\s*<dd[^>]*>([\s\S]*?)<\/dd>/i" *)
Definition sourced_by : regex :=
  (lit_i "Sourced" · many1 Char.is_space · lit_i "By" · dd_value)%re.

(** "/Current\s+Owner<\/dt>\s*<dd[^>]*>([\s\S]*?)<\/dd>/i" *)
Definition current_owner : regex :=
  (lit_i "Current" · many1 Char.is_space · lit_i "Owner" · dd_value)%re.

(** "/>\s*Location<\/dt>\s*<dd[^>]*>([\s\S]*?)<\/dd>/i" *)
Definition location : regex :=
  (lit ">" · many Char.is_space · lit_i "Location" · dd_value)%re.

(** The date token "\d{1,2}/\d{1,2}/\d{2,4}" *)
Definition date : regex :=
  (Rep false 1 (Some 2) Char.is_digit · lit "/" ·
   Rep false 1 (Some 2) Char.is_digit · lit "/" ·
   Rep false 2 (Some 4) Char.is_digit)%re.

(** The characters the escaping [replace] of [parseCandidatePage] puts a
    backslash before. *)
Definition is_meta (a : ascii) : bool :=
  existsb (Char.eqb a) (".*+?^${}()|[]" ++ [ascii_of_nat 92]).

Definition escapeRegExp (s : str) : str :=
  flat_map (fun a => if is_meta a then [ascii_of_nat 92; a] else [a]) s.

(** The pattern [new RegExp(escaped + ..., `i`)] reads from an escaped
    text: a backslash makes the next character literal; an escaped text has
    no other special character. *)
Fixpoint of_escaped (s : str) (tail : regex) : regex :=
  match s with
  | [] => tail
  | a :: s' =>
      match s' with
      | b :: s'' =>
          if Char.eqb a (ascii_of_nat 92)
          then Cat (Chr (Char.exactly_i b)) (of_escaped s'' tail)
          else Cat (Chr (Char.exactly_i a)) (of_escaped s' tail)
      | [] => Cat (Chr (Char.exactly_i a)) tail
      end
  end.

(** "new RegExp(escaped + `[\\s\\S]{0,300}?(\\d{1,2}/\\d{1,2}/\\d{2,4})`, `i`)" *)
Definition timeline (label : str) : regex :=
  of_escaped (escapeRegExp label)
    (Rep true 0 (Some 300) Char.any · Grp 1 date)%re.

(** "/href=`([^`]*linkedin\.com\/in\/[^`]+)`/i" *)
Definition linkedin_href : regex :=
  (lit_i (qq "href=`") ·
   Grp 1 (many (not_in [dq]) · lit_i "linkedin.com/in/" · many1 (not_in [dq])) ·
   lit [dq])%re.

(** "/<table[\s\S]*?>([\s\S]*?)<\/table>/i" *)
Definition table : regex :=
  (lit_i "<table" · many_lazy Char.any · lit ">" ·
   Grp 1 (many_lazy Char.any) · lit_i "</table>")%re.

(** "/<tr[^>]*>([\s\S]*?)<\/tr>/gi" *)
Definition tr : regex :=
  (lit_i "<tr" · many (not_in ">") · lit ">" ·
   Grp 1 (many_lazy Char.any) · lit_i "</tr>")%re.

(** "/<td[^>]*>([\s\S]*?)<\/td>/gi" *)
Definition td : regex :=
  (lit_i "<td" · many (not_in ">") · lit ">" ·
   Grp 1 (many_lazy Char.any) · lit_i "</td>")%re.

(** "/href=`(\/candidates\/\d+)`/" *)
Definition candidate_href : regex :=
  (lit (qq "href=`") · Grp 1 (lit "/candidates/" · many1 Char.is_digit) ·
   lit [dq])%re.

(** "/<select[^>]*name=`candidate\[candidate_owner_id\]`[^>]*>([\s\S]*?)<\/select>/i" *)
Definition owner_select : regex :=
  (lit_i "<select" · many (not_in ">") ·
   lit_i (qq "name=`candidate[candidate_owner_id]`") · many (not_in ">") ·
   lit ">" · Grp 1 (many_lazy Char.any) · lit_i "</select>")%re.

(** The pattern of [findOwnerIdForEmail], flags [gi], piece by piece:
    "<option[^>]*value=`(\d+)`[^>]*>", then group 2, any number of "[^<]",
    then "<\/option>". *)
Definition option_tag : regex :=
  (lit_i "<option" · many (not_in ">") · lit_i (qq "value=`") ·
   Grp 1 (many1 Char.is_digit) · lit [dq] · many (not_in ">") · lit ">" ·
   Grp 2 (many (not_in "<")) · lit_i "</option>")%re.

(** The start "class=`[^`]*(?:error|alert)[^`]*`[^>]*>" of the two patterns
    that look for an error message in the answer to a creation. *)
Definition error_class : regex :=
  (lit_i (qq "class=`") · many (not_in [dq]) ·
   Alt (lit_i "error") (lit_i "alert") · many (not_in [dq]) · lit [dq] ·
   many (not_in ">") · lit ">")%re.

(** "/class=`[^`]*(?:error|alert)[^`]*`[^>]*>([\s\S]*?)<\/div>/i" *)
Definition error_block : regex :=
  (error_class · Grp 1 (many_lazy Char.any) · lit_i "</div>")%re.

(** "/class=`[^`]*(?:error|alert)[^`]*`[^>]*>([^<]+)/i" *)
Definition error_text : regex :=
  (error_class · Grp 1 (many1 (not_in "<")))%re.

(** "/\s+/g" *)
Definition spaces : regex := many1 Char.is_space.

End Re.

(** [decodeHtmlEntities] *)
Definition decodeHtmlEntities (s : str) : str :=
  let s := replace_all (lit "&amp;") "&" s in
  let s := replace_all (lit "&lt;") "<" s in
  let s := replace_all (lit "&gt;") ">" s in
  let s := replace_all (lit "&quot;") [dq] s in
  let s := replace_all (lit "&#39;") "'" s in
  let s := replace_all (Re.hex_entity "2" "b" "B") "+" s in
  let s := replace_all (lit "&#43;") "+" s in
  let s := replace_all (Re.hex_entity "2" "f" "F") "/" s in
  let s := replace_all (lit "&#47;") "/" s in
  let s := replace_all (lit "&#61;") "=" s in
  replace_all (Re.hex_entity "3" "d" "D") "=" s.

(** [extractCsrfToken] *)
Definition extractCsrfToken (html : str) : str :=
  match match_re Re.meta_token html with
  | Some m => decodeHtmlEntities (group m 1)
  | None =>
      match match_re Re.input_name_value html with
      | Some m => decodeHtmlEntities (group m 1)
      | None =>
          match match_re Re.input_value_name html with
          | Some m => decodeHtmlEntities (group m 1)
          | None => []
          end
      end
  end.

(** [normalizeLinkedinUrl] *)
Definition normalizeLinkedinUrl (url : str) : str :=
  let url := trim (toLowerCase url) in
  let url := replace_str "https://www.linkedin.com" "https://linkedin.com" url in
  let url := replace_str "http://www.linkedin.com" "https://linkedin.com" url in
  let url := replace_str "http://linkedin.com" "https://linkedin.com" url in
  replace_re Re.trailing_slashes [] url.

(** The part of [namesFromLinkedinUrl] that works on the slug: the suffix is
    cut, the rest is split on hyphens, and the parts longer than one
    character are kept. *)
Definition tokensFromSlug (slug : str) : list str :=
  let slug := replace_re Re.id_suffix [] slug in
  filter (fun p => 1 <? length p) (split_on "-" slug).

(** [namesFromLinkedinUrl] *)
Definition namesFromLinkedinUrl (url : str) : list str :=
  match match_re Re.in_slug url with
  | None => []
  | Some m => tokensFromSlug (group m 1)
  end.

(** The objects [parseCandidatePage] builds. *)
Record timeline_entry : Type := mkEntry { e_label : str; e_date : str }.

Record submission : Type := mkSubmission {
  s_role : str; s_company : str; s_stage : str; s_dates : str; s_owner : str
}.

Inductive jsval : Type :=
| JStr (s : str)
| JTimeline (l : list timeline_entry)
| JSubmissions (l : list submission).

Abbreviation candidate := (gmap string jsval).

Definition strip_tags (s : str) : str := replace_all Re.tag [] s.

(** The inner loop of [parseSubmissionsTable], over the cells of a row. *)
Fixpoint cells_loop (fuel : nat) (rowHtml : str) (lastIndex : nat)
    (cells : list str) : run (list str) :=
  match fuel with
  | 0 => Hang
  | S fuel' =>
      match exec Re.td rowHtml lastIndex with
      | None => Done cells
      | Some cellMatch =>
          cells_loop fuel' rowHtml (m_end cellMatch)
            (cells ++ [trim (strip_tags (group cellMatch 1))])
      end
  end.

Definition cell (cells : list str) (i : nat) : str := nth i cells [].

(** The outer loop of [parseSubmissionsTable], over the rows of the table. *)
Fixpoint rows_loop (fuel : nat) (tableHtml : str) (lastIndex : nat)
    (isFirst : bool) (submissions : list submission) : run (list submission) :=
  match fuel with
  | 0 => Hang
  | S fuel' =>
      match exec Re.tr tableHtml lastIndex with
      | None => Done submissions
      | Some rowMatch =>
          if isFirst then
            rows_loop fuel' tableHtml (m_end rowMatch) false submissions
          else
            let rowHtml := group rowMatch 1 in
            match cells_loop (S (length rowHtml)) rowHtml 0 [] with
            | Hang => Hang
            | Done cells =>
                rows_loop fuel' tableHtml (m_end rowMatch) false
                  (if 5 <=? length cells
                   then submissions ++
                        [mkSubmission (cell cells 0) (cell cells 1)
                           (cell cells 2) (cell cells 3) (cell cells 4)]
                   else submissions)
            end
      end
  end.

(** [parseSubmissionsTable] *)
Definition parseSubmissionsTable (html : str) : run (list submission) :=
  match match_re Re.table html with
  | None => Done []
  | Some tableMatch =>
      let tableHtml := group tableMatch 1 in
      rows_loop (S (length tableHtml)) tableHtml 0 true []
  end.

Definition timelineLabels : list str :=
  [ "Sourced" : str; "First Engaged" : str; "Handed Off" : str;
    "First screened" : str; "First Submitted" : str;
    "Most Recently Submitted" : str ].

Definition timeline_of (html : str) (label : str) : timeline_entry :=
  mkEntry label
    match match_re (Re.timeline label) html with
    | Some m => group m 1
    | None => "N/A"
    end.

(** A label-then-value field: the value with its markup stripped, when the
    pattern matches. *)
Definition dd_text (r : regex) (html : str) : option str :=
  match match_re r html with
  | Some m => Some (trim (strip_tags (group m 1)))
  | None => None
  end.

Definition is_empty (s : str) : bool :=
  match s with [] => true | _ :: _ => false end.

(** [s === t] on strings. *)
Fixpoint str_eqb (s t : str) : bool :=
  match s, t with
  | [], [] => true
  | a :: s', b :: t' => Char.eqb a b && str_eqb s' t'
  | _, _ => false
  end.

(** [parseCandidatePage] *)
Definition parseCandidatePage (html finalUrl : str) : run candidate :=
  let data : candidate := ∅ in
  let data :=
    <["id" := JStr match match_re Re.candidate_id finalUrl with
                   | Some cidMatch => group cidMatch 1
                   | None => []
                   end]> data in
  let data := <["url" := JStr finalUrl]> data in
  let data :=
    match match_re Re.h1 html with
    | Some h1Match => <["name" := JStr (trim (strip_tags (group h1Match 1)))]> data
    | None => data
    end in
  let data :=
    match dd_text Re.sourced_by html with
    | Some sourcedByText =>
        if is_empty sourcedByText then data
        else <["sourced_by" := JStr sourcedByText]> data
    | None => data
    end in
  let data :=
    match dd_text Re.current_owner html with
    | Some ownerText =>
        if is_empty ownerText then data
        else <["current_owner" := JStr ownerText]> data
    | None => data
    end in
  let data :=
    match dd_text Re.location html with
    | Some loc =>
        if is_empty loc || str_eqb loc "N/A" then data
        else <["location" := JStr loc]> data
    | None => data
    end in
  let data :=
    <["timeline" := JTimeline (map (timeline_of html) timelineLabels)]> data in
  let data :=
    match match_re Re.linkedin_href html with
    | Some liMatch => <["linkedin_url" := JStr (group liMatch 1)]> data
    | None => data
    end in
  match parseSubmissionsTable html with
  | Hang => Hang
  | Done submissions => Done (<["submissions" := JSubmissions submissions]> data)
  end.

(** The loop of [findLinkedInMatchInSearchResults]. *)
Fixpoint match_rows_loop (fuel : nat) (tableHtml normalizedTarget : str)
    (lastIndex : nat) (isFirst : bool) : run (option str) :=
  match fuel with
  | 0 => Hang
  | S fuel' =>
      match exec Re.tr tableHtml lastIndex with
      | None => Done None
      | Some rowMatch =>
          if isFirst then
            match_rows_loop fuel' tableHtml normalizedTarget (m_end rowMatch) false
          else
            let rowHtml := group rowMatch 1 in
            match match_re Re.linkedin_href rowHtml with
            | None =>
                match_rows_loop fuel' tableHtml normalizedTarget
                  (m_end rowMatch) false
            | Some liMatch =>
                if str_eqb (normalizeLinkedinUrl (group liMatch 1))
                     normalizedTarget
                then
                  match match_re Re.candidate_href rowHtml with
                  | Some candMatch => Done (Some (group candMatch 1))
                  | None =>
                      match_rows_loop fuel' tableHtml normalizedTarget
                        (m_end rowMatch) false
                  end
                else
                  match_rows_loop fuel' tableHtml normalizedTarget
                    (m_end rowMatch) false
            end
      end
  end.

(** [findLinkedInMatchInSearchResults]; [None] is [null]. *)
Definition findLinkedInMatchInSearchResults (html targetLinkedinUrl : str)
    : run (option str) :=
  let normalizedTarget := normalizeLinkedinUrl targetLinkedinUrl in
  match match_re Re.table html with
  | None => Done None
  | Some tableMatch =>
      let tableHtml := group tableMatch 1 in
      match_rows_loop (S (length tableHtml)) tableHtml normalizedTarget 0 true
  end.

(** The loop of [findOwnerIdForEmail]. *)
Fixpoint options_loop (fuel : nat) (selectHtml email : str) (lastIndex : nat)
    : run str :=
  match fuel with
  | 0 => Hang
  | S fuel' =>
      match exec Re.option_tag selectHtml lastIndex with
      | None => Done []
      | Some m =>
          if str_eqb (toLowerCase (trim (group m 2))) (toLowerCase email)
          then Done (group m 1)
          else options_loop fuel' selectHtml email (m_end m)
      end
  end.

(** [findOwnerIdForEmail] *)
Definition findOwnerIdForEmail (html email : str) : run str :=
  if is_empty email then Done []
  else
    match match_re Re.owner_select html with
    | None => Done []
    | Some selectMatch =>
        let selectHtml := group selectMatch 1 in
        options_loop (S (length selectHtml)) selectHtml email 0
    end.

(** ** The Parker client

    The two revisions of the client in the repository differ in
    [createCandidate] only.  The network, the extension's storage and the
    clock are the [world] the client runs in; a run threads the list of the
    requests issued so far (latest first), so that what the client sent, and
    what it did not send, can be read off afterwards. *)

(** A promise that has settled: fulfilled with a value or rejected with an
    error whose [message] is kept. *)
Inductive attempt (A : Type) : Type :=
| Ok (a : A)
| Err (message : str).
Arguments Ok {A} a.
Arguments Err {A} message.

(** The query of a GET and the form of a POST are kept as lists of pairs, in
    the order the source gives them; their URL encoding is not modelled. *)
Inductive request : Type :=
| GET (url : str) (params : list (str * str))
| POST (url : str) (formData : list (str * str)).

(** The [Response] of a [fetch] that followed redirects: [ok], [status],
    the resolved [url], and what [text()] settles to. *)
Record response : Type := mkResponse {
  r_ok : bool;
  r_status : nat;
  r_url : str;
  r_text : attempt str
}.

Record world : Type := mkWorld {
  (** [fetch], given the requests issued before *)
  net : list request -> request -> attempt response;
  (** [chrome.storage.sync.get]: [parkerEmail] and [parkerPassword] *)
  storage : attempt (option str * option str);
  (** [new Date().toISOString().split(`T`)[0]] *)
  today : str
}.

Inductive outcome (A : Type) : Type :=
| Ret (a : A)
| Throw (message : str)
| Loop.
Arguments Ret {A} a.
Arguments Throw {A} message.
Arguments Loop {A}.

Definition M (A : Type) : Type := list request -> outcome A * list request.

Definition ret {A : Type} (a : A) : M A := fun tr => (Ret a, tr).

Definition bind {A B : Type} (m : M A) (k : A -> M B) : M B := fun tr =>
  match m tr with
  | (Ret a, tr') => k a tr'
  | (Throw msg, tr') => (Throw msg, tr')
  | (Loop, tr') => (Loop, tr')
  end.

Notation "x <- m ;; k" := (bind m (fun x => k))
  (at level 100, m at next level, right associativity).

Definition throw {A : Type} (msg : str) : M A := fun tr => (Throw msg, tr).

(** [try { m } catch (err) { h(err.message) }] *)
Definition try_catch {A : Type} (m : M A) (h : str -> M A) : M A := fun tr =>
  match m tr with
  | (Throw msg, tr') => h msg tr'
  | other => other
  end.

Definition settle {A : Type} (p : attempt A) : M A :=
  match p with
  | Ok a => ret a
  | Err msg => throw msg
  end.

Definition of_run {A : Type} (r : run A) : M A :=
  match r with
  | Done a => ret a
  | Hang => fun tr => (Loop, tr)
  end.

Definition fetch (w : world) (rq : request) : M response := fun tr =>
  match net w tr rq with
  | Ok r => (Ret r, rq :: tr)
  | Err msg => (Throw msg, rq :: tr)
  end.

Definition PARKER_BASE : str := "https://parker.candidatelabs.com".

Definition postForm (w : world) (url : str) (formData : list (str * str))
    : M response := fetch w (POST url formData).

Definition getPage (w : world) (url : str) : M response := fetch w (GET url []).

Definition text (r : response) : M str := settle (r_text r).

(** [a || b] on strings and on values that may be [undefined]. *)
Definition or_else (a b : str) : str := if is_empty a then b else a.
Definition truthy (a : option str) : bool :=
  match a with Some s => negb (is_empty s) | None => false end.
Definition or_default (a : option str) (b : str) : str :=
  match a with Some s => or_else s b | None => b end.

(** [isLoggedIn] *)
Definition isLoggedIn (w : world) : M bool :=
  try_catch
    (r <- getPage w (PARKER_BASE ++ "/");;
     if negb (r_ok r) then ret false
     else if includes "sign_in" (r_url r) then ret false
     else html <- text r;; ret (includes "sign_out" html))
    (fun _ => ret false).

(** The object [doLogin] returns: [{ok: true, message}] or
    [{ok: false, error}]. *)
Inductive login_result : Type :=
| LoginOk (message : str)
| LoginFailed (error : str).

(** [doLogin] *)
Definition doLogin (w : world) (email password : str) : M login_result :=
  try_catch
    (signInPage <- getPage w (PARKER_BASE ++ "/users/sign_in");;
     signInHtml <- text signInPage;;
     let token := extractCsrfToken signInHtml in
     if is_empty token
     then ret (LoginFailed "Could not extract CSRF token from login page.")
     else
       r <- postForm w (PARKER_BASE ++ "/users/sign_in")
             [("authenticity_token" : str, token);
              ("user[email]" : str, email);
              ("user[password]" : str, password);
              ("commit" : str, "Sign in" : str)];;
       if r_ok r && negb (includes "sign_in" (r_url r))
       then ret (LoginOk "Logged in to Parker.")
       else ret (LoginFailed "Login failed. Check email/password."))
    (fun msg => ret (LoginFailed (or_else msg "Could not connect to Parker."))).

(** [ensureLoggedIn] *)
Definition ensureLoggedIn (w : world) : M bool :=
  loggedIn <- isLoggedIn w;;
  if loggedIn then ret true
  else
    creds <- settle (storage w);;
    let '(parkerEmail, parkerPassword) := creds in
    if negb (truthy parkerEmail) || negb (truthy parkerPassword)
    then ret false
    else
      result <- doLogin w (or_default parkerEmail []) (or_default parkerPassword []);;
      ret match result with LoginOk _ => true | LoginFailed _ => false end.

(** [lookupByUrlCheck]; [None] is [null]. *)
Definition lookupByUrlCheck (w : world) (linkedinUrl : str)
    : M (option candidate) :=
  try_catch
    (checkPage <- getPage w (PARKER_BASE ++ "/candidates/linkedin_url_check");;
     if negb (r_ok checkPage) then ret None
     else
       checkHtml <- text checkPage;;
       let token := extractCsrfToken checkHtml in
       r <- postForm w (PARKER_BASE ++ "/candidates/check_linkedin_url")
             [("authenticity_token" : str, token);
              ("linkedin_url" : str, linkedinUrl)];;
       html <- text r;;
       if r_ok r && test_re Re.detail_url_end (r_url r)
       then c <- of_run (parseCandidatePage html (r_url r));; ret (Some c)
       else ret None)
    (fun _ => ret None).

(** The body of the [for] loop of [lookupByNameSearch] and of
    [lookupByExplicitName], the same text in both: [Some c] when the body
    returns [c], [None] when the loop goes on to the next term. *)
Definition search_term (w : world) (linkedinUrl term : str)
    : M (option candidate) :=
  try_catch
    (r <- fetch w (GET (PARKER_BASE ++ "/candidates")
                    [("q[first_name_or_last_name_cont]" : str, term);
                     ("commit" : str, "Search" : str)]);;
     if negb (r_ok r) then ret None
     else
       html <- text r;;
       candidatePath <- of_run (findLinkedInMatchInSearchResults html linkedinUrl);;
       match candidatePath with
       | Some path =>
           if is_empty path then ret None
           else
             detail <- getPage w (PARKER_BASE ++ path);;
             if r_ok detail then
               detailHtml <- text detail;;
               c <- of_run (parseCandidatePage detailHtml (r_url detail));;
               ret (Some c)
             else ret None
       | None => ret None
       end)
    (fun _ => ret None).

Fixpoint search_terms (w : world) (linkedinUrl : str) (terms : list str)
    : M (option candidate) :=
  match terms with
  | [] => ret None
  | term :: terms' =>
      found <- search_term w linkedinUrl term;;
      match found with
      | Some c => ret (Some c)
      | None => search_terms w linkedinUrl terms'
      end
  end.

(** [lookupByNameSearch] *)
Definition lookupByNameSearch (w : world) (linkedinUrl : str)
    : M (option candidate) :=
  let nameParts := namesFromLinkedinUrl linkedinUrl in
  search_terms w linkedinUrl nameParts.

(** [lookupByExplicitName] *)
Definition lookupByExplicitName (w : world) (linkedinUrl firstName lastName : str)
    : M (option candidate) :=
  let searchTerms :=
    filter (fun n => negb (is_empty n) && negb (is_empty (trim n)))
      [firstName; lastName] in
  search_terms w linkedinUrl (map trim searchTerms).

(** The object [lookupCandidate] returns: [{error}], [{found: true,
    candidate}] or [{found: false}]. *)
Inductive lookup_result : Type :=
| LookupError (error : str)
| Found (c : candidate)
| NotFound.

(** [candidate.linkedin_url = candidate.linkedin_url || linkedinUrl] *)
Definition default_linkedin_url (c : candidate) (linkedinUrl : str) : candidate :=
  <["linkedin_url" :=
      JStr match c !! "linkedin_url" with
           | Some (JStr u) => or_else u linkedinUrl
           | _ => linkedinUrl
           end]> c.

(** [lookupCandidate] *)
Definition lookupCandidate (w : world) (linkedinUrl firstName lastName : str)
    : M lookup_result :=
  try_catch
    (loggedIn <- ensureLoggedIn w;;
     if negb loggedIn then
       ret (LookupError
         "Not authenticated with Parker. Open extension settings to configure credentials.")
     else
       candidate <- lookupByUrlCheck w linkedinUrl;;
       match candidate with
       | Some c => ret (Found (default_linkedin_url c linkedinUrl))
       | None =>
           candidate <- lookupByNameSearch w linkedinUrl;;
           match candidate with
           | Some c => ret (Found (default_linkedin_url c linkedinUrl))
           | None =>
               if negb (is_empty firstName) || negb (is_empty lastName) then
                 candidate <- lookupByExplicitName w linkedinUrl firstName lastName;;
                 match candidate with
                 | Some c => ret (Found (default_linkedin_url c linkedinUrl))
                 | None => ret NotFound
                 end
               else ret NotFound
           end
       end)
    (fun msg => ret (LookupError (or_else msg "Failed to look up candidate."))).

(** The argument of [createCandidate]; [sourcedDate] may be left out. *)
Record create_args : Type := mkArgs {
  firstName : str;
  lastName : str;
  linkedinUrl : str;
  sourcedDate : option str
}.

(** The object [createCandidate] returns: [{ok: false, error}] or
    [{ok: true, alreadyExisted, candidate}]. *)
Inductive create_result : Type :=
| CreateFailed (error : str)
| CreateOk (alreadyExisted : bool) (c : candidate).

(** The [payload] of the creation request, as both revisions build it. *)
Definition payload (createToken : str) (a : create_args) (sourced ownerId : str)
    : list (str * str) :=
  [("authenticity_token" : str, createToken);
   ("candidate[first_name]" : str, firstName a);
   ("candidate[last_name]" : str, lastName a);
   ("candidate[linkedin_url]" : str, linkedinUrl a);
   ("candidate[sourced_date]" : str, sourced);
   ("commit" : str, "Create Candidate" : str)] ++
  (if is_empty ownerId then []
   else [("candidate[candidate_owner_id]" : str, ownerId);
         ("candidate[sourced_by_id]" : str, ownerId)]).

Definition http_status (status : nat) : str :=
  "HTTP " ++ list_ascii_of_string (DecimalString.NilZero.string_of_uint (Nat.to_uint status)).

(** The creation request and what follows it; [error_of] reads the error
    message off the answer, each revision in its own way. *)
Definition submit (w : world) (error_of : str -> nat -> str)
    (createToken : str) (a : create_args) (formHtml : str) : M create_result :=
  let sourced := or_default (sourcedDate a) (today w) in
  stored <- settle (storage w);;
  ownerId <- of_run (findOwnerIdForEmail formHtml (or_default (fst stored) []));;
  createResp <- postForm w (PARKER_BASE ++ "/candidates")
                 (payload createToken a sourced ownerId);;
  createHtml <- text createResp;;
  if r_ok createResp && test_re Re.detail_url (r_url createResp)
  then
    c <- of_run (parseCandidatePage createHtml (r_url createResp));;
    ret (CreateOk false c)
  else
    ret (CreateFailed
            ("Parker rejected the candidate: " ++
             error_of createHtml (r_status createResp))).

(** The revision that loads the creation form directly. *)
Module FormFirst.

Definition error_of (createHtml : str) (status : nat) : str :=
  match match_re Re.error_block createHtml with
  | Some errorBlockMatch =>
      let stripped :=
        trim (replace_all Re.spaces " "
                (replace_all Re.tag " " (group errorBlockMatch 1))) in
      if is_empty stripped then http_status status else stripped
  | None => http_status status
  end.

(** [createCandidate] *)
Definition createCandidate (w : world) (a : create_args) : M create_result :=
  try_catch
    (loggedIn <- ensureLoggedIn w;;
     if negb loggedIn
     then ret (CreateFailed "Not authenticated with Parker.")
     else
       newPage <- getPage w (PARKER_BASE ++ "/candidates/new");;
       if negb (r_ok newPage) then
         ret (CreateFailed
                 ("Could not load create form (" ++
                  http_status (r_status newPage) ++ ")."))
       else
         newHtml <- text newPage;;
         let createToken := extractCsrfToken newHtml in
         if is_empty createToken then
           ret (CreateFailed "Could not extract CSRF token from create form.")
         else submit w error_of createToken a newHtml)
    (fun msg => ret (CreateFailed (or_else msg "Failed to create candidate."))).

End FormFirst.

(** The revision that starts with the check of the profile URL. *)
Module CheckFirst.

Definition error_of (createHtml : str) (status : nat) : str :=
  match match_re Re.error_text createHtml with
  | Some errorMatch => trim (group errorMatch 1)
  | None => http_status status
  end.

(** [createCandidate] *)
Definition createCandidate (w : world) (a : create_args) : M create_result :=
  try_catch
    (loggedIn <- ensureLoggedIn w;;
     if negb loggedIn
     then ret (CreateFailed "Not authenticated with Parker.")
     else
       checkPage <- getPage w (PARKER_BASE ++ "/candidates/linkedin_url_check");;
       checkHtml <- text checkPage;;
       let token := extractCsrfToken checkHtml in
       urlCheckResp <- postForm w (PARKER_BASE ++ "/candidates/check_linkedin_url")
                        [("authenticity_token" : str, token);
                         ("linkedin_url" : str, linkedinUrl a)];;
       urlCheckHtml <- text urlCheckResp;;
       if test_re Re.detail_url_end (r_url urlCheckResp) then
         c <- of_run (parseCandidatePage urlCheckHtml (r_url urlCheckResp));;
         ret (CreateOk true c)
       else
         let createToken := extractCsrfToken urlCheckHtml in
         submit w error_of createToken a urlCheckHtml)
    (fun msg => ret (CreateFailed (or_else msg "Failed to create candidate."))).

End CheckFirst.

(** ** The message router ([background.js])

    The listener answers one message with what its handler returns; a
    handler that throws leaves the message without an answer.  The settings
    are the two keys the extension keeps in [chrome.storage.sync]; a call of
    the storage settles as [storage] says, and a [set] that is fulfilled
    writes the keys it is given.

    A message is an object with a [type].  The [data] of [CREATE_CANDIDATE]
    is passed on as it comes and may be missing; the [settings] of
    [SAVE_SETTINGS] are an object that holds [parkerEmail],
    [parkerPassword], both or none. *)

Inductive message : Type :=
| LOOKUP_CANDIDATE (linkedinUrl firstName lastName : str)
| CREATE_CANDIDATE (data : option create_args)
| PARKER_LOGIN
| CHECK_AUTH_STATUS
| SAVE_SETTINGS (parkerEmail parkerPassword : option str)
| GET_SETTINGS
| PROFILE_PAGE_LOADED
| OTHER (type : str).

(** The answers: the result of the client function called, [{authenticated}],
    [{ok: true}], the settings, [{}], and [{error: `Unknown message type`}]. *)
Inductive reply : Type :=
| LookupReply (r : lookup_result)
| CreateReply (r : create_result)
| LoginReply (r : login_result)
| AuthReply (authenticated : bool)
| SavedReply
| SettingsReply (parkerEmail parkerPassword : option str)
| EmptyReply
| UnknownReply.

(** The [TypeError] of a parameter list that destructures [undefined], with
    the message Chrome gives it. *)
Definition cannot_destructure : str :=
  "Cannot destructure property 'firstName' of 'undefined' as it is undefined.".

(** [createCandidate(data)] with a [data] that may be missing.  The parameter
    list of [createCandidate] destructures its argument before the [try] of
    the body is entered: without an object the call rejects, and nothing is
    requested. *)
Definition call_create (create : world -> create_args -> M create_result)
    (w : world) (data : option create_args) : M create_result :=
  match data with
  | Some a => create w a
  | None => throw cannot_destructure
  end.

(** [chrome.storage.sync.set(items)] *)
Definition storage_set (w : world) : attempt unit :=
  match storage w with
  | Ok _ => Ok tt
  | Err msg => Err msg
  end.

(** The handler of a message; [create] is the [createCandidate] of the
    revision of the client that is loaded. *)
Definition handler (create : world -> create_args -> M create_result)
    (w : world) (msg : message) : M reply :=
  match msg with
  | LOOKUP_CANDIDATE linkedinUrl firstName lastName =>
      r <- lookupCandidate w linkedinUrl firstName lastName;; ret (LookupReply r)
  | CREATE_CANDIDATE data =>
      r <- call_create create w data;; ret (CreateReply r)
  | PARKER_LOGIN =>
      creds <- settle (storage w);;
      let '(parkerEmail, parkerPassword) := creds in
      if negb (truthy parkerEmail) || negb (truthy parkerPassword)
      then ret (LoginReply (LoginFailed "Configure credentials in extension settings."))
      else
        r <- doLogin w (or_default parkerEmail []) (or_default parkerPassword []);;
        ret (LoginReply r)
  | CHECK_AUTH_STATUS =>
      authenticated <- isLoggedIn w;; ret (AuthReply authenticated)
  | SAVE_SETTINGS _ _ =>
      _ <- settle (storage_set w);; ret SavedReply
  | GET_SETTINGS =>
      creds <- settle (storage w);; ret (SettingsReply (fst creds) (snd creds))
  | PROFILE_PAGE_LOADED => ret EmptyReply
  | OTHER _ => ret UnknownReply
  end.

(** A key that is given replaces the one held. *)
Definition put (given held : option str) : option str :=
  match given with
  | Some v => Some v
  | None => held
  end.

(** The world a message leaves behind: [SAVE_SETTINGS] writes the keys it
    carries when the storage takes them. *)
Definition after (w : world) (msg : message) : world :=
  match msg with
  | SAVE_SETTINGS parkerEmail parkerPassword =>
      match storage w with
      | Ok held =>
          mkWorld (net w) (Ok (put parkerEmail (fst held), put parkerPassword (snd held)))
            (today w)
      | Err _ => w
      end
  | _ => w
  end.

(** ** The onboarding page ([onboarding.js]) *)

(** [result.ok] and [result.error] of an answer; the error is empty where
    the answer has none. *)
Definition reply_ok (r : reply) : bool :=
  match r with
  | CreateReply (CreateOk _ _) => true
  | LoginReply (LoginOk _) => true
  | SavedReply => true
  | _ => false
  end.

Definition reply_error (r : reply) : str :=
  match r with
  | LookupReply (LookupError error) => error
  | CreateReply (CreateFailed error) => error
  | LoginReply (LoginFailed error) => error
  | UnknownReply => "Unknown message type"
  | _ => []
  end.

(** [chrome.runtime.sendMessage]: the answer of the handler.  A message
    whose handler throws gets no answer; the call then ends as [unanswered]
    says: it rejects with that message, or it does not end. *)
Definition sendMessage (unanswered : option str) (h : M reply) : M reply := fun tr =>
  match h tr with
  | (Throw _, tr') =>
      match unanswered with
      | Some msg => (Throw msg, tr')
      | None => (Loop, tr')
      end
  | other => other
  end.

(** What the page shows when the click on the button has been handled:
    "Please enter both email and password.", "Connected! ..." or an error.
    A run that does not return leaves "Testing connection to Parker". *)
Inductive page_status : Type :=
| EnterBoth
| Connected
| Failed (error : str).

(** The listener of the button. *)
Definition connect (create : world -> create_args -> M create_result)
    (unanswered : option str) (w : world) (emailValue passwordValue : str)
    : M page_status :=
  let email := trim emailValue in
  let password := passwordValue in
  if is_empty email || is_empty password then ret EnterBoth
  else
    let save := SAVE_SETTINGS (Some email) (Some password) in
    _ <- sendMessage unanswered (handler create w save);;
    try_catch
      (result <- sendMessage unanswered (handler create (after w save) PARKER_LOGIN);;
       if reply_ok result then ret Connected
       else ret (Failed (or_else (reply_error result)
                           "Login failed. Check your credentials.")))
      (fun msg => ret (Failed (or_else msg "Could not connect to Parker."))).

(** ** The content script ([content.js]) *)

(** [s.split(re)] for a pattern without groups.  [piece] is the text since
    the end of the last separator, [skip] counts the characters still
    covered by it.  A match that is empty and stands where the last
    separator ended is passed over, as [split] does. *)
Fixpoint split_from (r : regex) (s : str) (piece : str) (skip : nat) : list str :=
  match skip, s with
  | S k, _ :: s' => split_from r s' piece k
  | S _, [] => [piece]
  | 0, [] => [piece]
  | 0, a :: s' =>
      match ms r s [] with
      | (rest, _) :: _ =>
          match length s - length rest with
          | 0 =>
              if is_empty piece then split_from r s' [a] 0
              else piece :: split_from r s' [a] 0
          | S k => piece :: split_from r s' [] k
          end
      | [] => split_from r s' (piece ++ [a]) 0
      end
  end.

Definition split_re (r : regex) (s : str) : list str :=
  match s with
  | [] => match ms r [] [] with [] => [[]] | _ :: _ => [] end
  | _ :: _ => split_from r s [] 0
  end.

(** [parts.join(sep)] *)
Fixpoint join (sep : str) (parts : list str) : str :=
  match parts with
  | [] => []
  | [p] => p
  | p :: parts' => p ++ sep ++ join sep parts'
  end.

(** [getCleanLinkedInUrl]; [pathname] is the path of the address of the
    page, [new URL(window.location.href).pathname]. *)
Definition getCleanLinkedInUrl (pathname : str) : str :=
  let path := replace_re Re.trailing_slashes [] pathname in
  "https://www.linkedin.com" ++ path.

(** The selectors [extractProfileName] tries, in its order. *)
Definition selectors : list str :=
  [ "#workspace h2" : str;
    "h1.text-heading-xlarge" : str;
    "h2.text-heading-xlarge" : str;
    ".pv-text-details__left-panel h1" : str;
    ".pv-text-details__left-panel h2" : str;
    "div.mt2 h1" : str;
    "div.mt2 h2" : str;
    "section.pv-top-card h1" : str;
    "section.pv-top-card h2" : str;
    "h1" : str;
    "h2" : str ].

Definition newline : str := [ascii_of_nat 10].

(** The loop of [extractProfileName] over the selectors.  [querySelector]
    gives the [innerText] of the first element a selector finds, if it finds
    one. *)
Fixpoint find_heading (querySelector : str -> option str) (sels : list str)
    : option str :=
  match sels with
  | [] => None
  | sel :: sels' =>
      match querySelector sel with
      | Some innerText =>
          if negb (is_empty (trim innerText)) then
            let text := trim innerText in
            if (length text <? 60) && negb (includes newline text)
            then Some innerText
            else find_heading querySelector sels'
          else find_heading querySelector sels'
      | None => find_heading querySelector sels'
      end
  end.

(** [extractProfileName]: [firstName] and [lastName]. *)
Definition extractProfileName (querySelector : str -> option str) : str * str :=
  match find_heading querySelector selectors with
  | None => ([], [])
  | Some innerText =>
      let full := trim innerText in
      let parts := split_re Re.spaces full in
      (or_else (nth 0 parts []) [], or_else (join " " (tl parts)) [])
  end.

(** ** What a pattern matches

    [Matches r t rest c c']: the pattern [r] can match the text [t] when
    [rest] follows it, turning the captures [c] into [c'].  The matcher [ms]
    lists exactly these possibilities (lemmas [ms_sound] and
    [ms_complete]). *)

Definition within (hi : option nat) (n : nat) : Prop :=
  match hi with
  | Some h => n <= h
  | None => True
  end.

Inductive Matches : regex -> str -> str -> caps -> caps -> Prop :=
| M_Eps rest c : Matches Eps [] rest c c
| M_Chr p a rest c : p a = true -> Matches (Chr p) [a] rest c c
| M_Rep lz lo hi p t rest c :
    forallb p t = true -> lo <= length t -> within hi (length t) ->
    Matches (Rep lz lo hi p) t rest c c
| M_Cat r1 r2 t1 t2 rest c c1 c2 :
    Matches r1 t1 (t2 ++ rest) c c1 -> Matches r2 t2 rest c1 c2 ->
    Matches (Cat r1 r2) (t1 ++ t2) rest c c2
| M_AltL r1 r2 t rest c c' :
    Matches r1 t rest c c' -> Matches (Alt r1 r2) t rest c c'
| M_AltR r1 r2 t rest c c' :
    Matches r2 t rest c c' -> Matches (Alt r1 r2) t rest c c'
| M_Grp i r t rest c c' :
    Matches r t rest c c' -> Matches (Grp i r) t rest c ((i, t) :: c')
| M_Eoi c : Matches Eoi [] [] c c.

(** [r] has a match somewhere in [s]. *)
Definition Occurs (r : regex) (s : str) : Prop :=
  exists pre t rest c, s = pre ++ t ++ rest /\ Matches r t rest [] c.

(** The least length of a match. *)
Fixpoint min_len (r : regex) : nat :=
  match r with
  | Eps => 0
  | Chr _ => 1
  | Rep _ lo _ _ => lo
  | Cat r1 r2 => min_len r1 + min_len r2
  | Alt r1 r2 => Nat.min (min_len r1) (min_len r2)
  | Grp _ r1 => min_len r1
  | Eoi => 0
  end.

(** The matches a [while ((m = re.exec(s)) !== null)] loop goes through. *)
Fixpoint all_matches (fuel : nat) (r : regex) (s : str) (lastIndex : nat)
    : list rmatch :=
  match fuel with
  | 0 => []
  | S fuel' =>
      match exec r s lastIndex with
      | None => []
      | Some m => m :: all_matches fuel' r s (m_end m)
      end
  end.

Definition matchAll (r : regex) (s : str) : list rmatch :=
  all_matches (S (length s)) r s 0.

(** Texts equal under the [i] flag. *)
Definition eq_i (s t : str) : Prop := map Char.fold s = map Char.fold t.

(** A text without its trailing slashes. *)
Fixpoint strip_slashes (s : str) : str :=
  match s with
  | [] => []
  | a :: s' => if forallb (Char.exactly "/") s then [] else a :: strip_slashes s'
  end.

Definition ends_with_slash (s : str) : bool :=
  match rev s with
  | a :: _ => Char.eqb a "/"
  | [] => false
  end.

Unset Implicit Arguments.

(** ** Notions the properties are stated with *)

(** *** Shapes of texts *)

Definition digits (s : str) : Prop := forallb Char.is_digit s = true.

Definition no_digit (s : str) : Prop :=
  forallb (fun a => negb (Char.is_digit a)) s = true.

(** No character of [w] is one of [cs]. *)
Definition without (cs w : str) : Prop := forallb (not_in cs) w = true.

(** One white space character or more. *)
Definition spaces1 (w : str) : Prop := w <> [] /\ forallb Char.is_space w = true.

Definition lowercase (s : str) : Prop := toLowerCase s = s.

Definition no_space (s : str) : Prop := existsb Char.is_space s = false.

Definition ends_with_digit (s : str) : bool :=
  match rev s with
  | a :: _ => Char.is_digit a
  | [] => false
  end.

(** The date token of the timeline: one or two digits, a slash, one or two
    digits, a slash, two to four digits. *)
Definition is_date_token (u : str) : Prop :=
  exists a b c,
    u = a ++ "/" ++ b ++ "/" ++ c /\
    digits a /\ 1 <= length a <= 2 /\
    digits b /\ 1 <= length b <= 2 /\
    digits c /\ 2 <= length c <= 4.

(** [s] holds a text of the given shape, whose token is [tok]. *)
Definition Holds (shape : str -> str -> Prop) (s tok : str) : Prop :=
  exists pre t post, s = pre ++ t ++ post /\ shape tok t.

(** The three shapes [extractCsrfToken] looks for: a meta tag with the name
    before the content, an input with the name before the value, an input
    with the value before the name. *)
Definition meta_shape (tok t : str) : Prop :=
  exists w1 w2,
    t = ("<meta" : str) ++ w1 ++ qq "name=`csrf-token`" ++ w2 ++
        qq "content=`" ++ tok ++ [dq] /\
    spaces1 w1 /\ spaces1 w2 /\ tok <> [] /\ without [dq] tok.

Definition input_name_value_shape (tok t : str) : Prop :=
  exists a b,
    t = ("<input" : str) ++ a ++ qq "name=`authenticity_token`" ++ b ++
        qq "value=`" ++ tok ++ [dq] /\
    without ">" a /\ without ">" b /\ tok <> [] /\ without [dq] tok.

Definition input_value_name_shape (tok t : str) : Prop :=
  exists a b,
    t = ("<input" : str) ++ a ++ qq "value=`" ++ tok ++ [dq] ++ b ++
        qq "name=`authenticity_token`" /\
    without ">" a /\ without ">" b /\ tok <> [] /\ without [dq] tok.

(** The pattern [Re.of_escaped] gives for an escaped label: the characters
    of the label one after the other, under the [i] flag. *)
Definition chain_i (l : str) (tail : regex) : regex :=
  fold_right (fun a r => Cat (Chr (Char.exactly_i a)) r) tail l.

(** *** URLs *)

Definition linkedin_https : str := "https://linkedin.com".

(** The starts [normalizeLinkedinUrl] rewrites, and the one it rewrites them
    to. *)
Definition linkedin_prefixes : list str :=
  [ "https://www.linkedin.com" : str; "http://www.linkedin.com" : str;
    "http://linkedin.com" : str; "https://linkedin.com" : str ].

(** A URL without white space in which ["http"], in any case, occurs at the
    start at most. *)
Definition plain_url (u : str) : bool :=
  negb (existsb Char.is_space u) && negb (includes "http" (tl (toLowerCase u))).

(** The parts of a slug: split on hyphens, the parts of one character or
    none dropped. *)
Definition parts (s : str) : list str :=
  filter (fun p => 1 <? length p) (split_on "-" s).

Definition at_most_one_letter (l : str) : Prop :=
  l = [] \/ exists a, l = [a] /\ Char.is_alpha a = true.

(** What may follow a slug: nothing, a slash or a question mark. *)
Definition follows_slug (post : str) : Prop :=
  match post with
  | a :: _ => not_in "/?" a = false
  | [] => True
  end.

(** ["/candidates/"] and a digit occur in the URL. *)
Definition has_candidate_id (url : str) : Prop :=
  exists pre d post,
    url = pre ++ ("/candidates/" : str) ++ d :: post /\ Char.is_digit d = true.

Definition id_of (finalUrl : str) : str :=
  match match_re Re.candidate_id finalUrl with
  | Some m => group m 1
  | None => []
  end.

(** *** Tables, rows and options *)

(** The inside of the first table of a page. *)
Definition table_of (html : str) : option str :=
  match match_re Re.table html with
  | Some m => Some (group m 1)
  | None => None
  end.

(** The rows of a table and the cells of a row, in the order of the
    text. *)
Definition rows_of (tableHtml : str) : list str :=
  map (fun m => group m 1) (matchAll Re.tr tableHtml).

Definition cells_of (rowHtml : str) : list str :=
  map (fun m => trim (strip_tags (group m 1))) (matchAll Re.td rowHtml).

(** The submission of a row: none for a row of fewer than five cells. *)
Definition submission_of (cells : list str) : list submission :=
  if 5 <=? length cells
  then [mkSubmission (cell cells 0) (cell cells 1) (cell cells 2)
          (cell cells 3) (cell cells 4)]
  else [].

Definition submissions_of (html : str) : list submission :=
  match table_of html with
  | None => []
  | Some tableHtml =>
      flat_map (fun row => submission_of (cells_of row)) (tl (rows_of tableHtml))
  end.

(** The profile anchor of a row, and the path of its detail page. *)
Definition row_anchor (rowHtml : str) : option str :=
  match match_re Re.linkedin_href rowHtml with
  | Some m => Some (group m 1)
  | None => None
  end.

Definition row_path (rowHtml : str) : option str :=
  match match_re Re.candidate_href rowHtml with
  | Some m => Some (group m 1)
  | None => None
  end.

(** The profile anchor of the row normalises to the normalised target. *)
Definition row_matches (target rowHtml : str) : bool :=
  match row_anchor rowHtml with
  | Some a => str_eqb (normalizeLinkedinUrl a) (normalizeLinkedinUrl target)
  | None => false
  end.

(** The path of the first row that matches and has a path. *)
Fixpoint first_path (target : str) (rows : list str) : option str :=
  match rows with
  | [] => None
  | row :: rows' =>
      if row_matches target row then
        match row_path row with
        | Some p => Some p
        | None => first_path target rows'
        end
      else first_path target rows'
  end.

(** The inside of the owner select of a form, and its options: value and
    label. *)
Definition select_of (html : str) : option str :=
  match match_re Re.owner_select html with
  | Some m => Some (group m 1)
  | None => None
  end.

Definition options_of (selectHtml : str) : list (str * str) :=
  map (fun m => (group m 1, group m 2)) (matchAll Re.option_tag selectHtml).

(** The label of the option, trimmed and in lower case, is the e-mail in
    lower case. *)
Definition label_is (email : str) (o : str * str) : bool :=
  str_eqb (toLowerCase (trim (snd o))) (toLowerCase email).

(** An optional text field of the record: left out when empty. *)
Definition text_field (v : option str) : option jsval :=
  match v with
  | Some s => if is_empty s then None else Some (JStr s)
  | None => None
  end.

(** *** The timeline *)

Definition na_timeline : list timeline_entry :=
  map (fun l => mkEntry l "N/A") timelineLabels.

(** The date of an entry is ["N/A"], or a date token that stands in the page
    after the label of the entry, at most 300 characters after it. *)
Definition date_or_na (html : str) (e : timeline_entry) : Prop :=
  e_date e = ("N/A" : str) \/
  (is_date_token (e_date e) /\
   exists pre l gap rest,
     html = pre ++ l ++ gap ++ e_date e ++ rest /\
     eq_i l (e_label e) /\ length gap <= 300).

(** *** Runs of the client *)

(** [m] never hangs, and the requests it issues all satisfy [P]. *)
Definition Issues {A : Type} (P : request -> Prop) (m : M A) : Prop :=
  forall tr o tr', m tr = (o, tr') ->
    o <> Loop /\ exists new, tr' = new ++ tr /\ Forall P new.

(** [m] returns: it neither throws nor hangs. *)
Definition Returns {A : Type} (m : M A) : Prop :=
  forall tr, exists a tr', m tr = (Ret a, tr').

(** What [m] returns, when it returns, satisfies [Q]. *)
Definition Gives {A : Type} (Q : A -> Prop) (m : M A) : Prop :=
  forall tr a tr', m tr = (Ret a, tr') -> Q a.

(** The creation request: a POST to [/candidates]. *)
Definition is_creation (rq : request) : bool :=
  match rq with
  | POST url _ => str_eqb url (PARKER_BASE ++ "/candidates")
  | GET _ _ => false
  end.

(** The two requests of the check of a profile URL. *)
Definition check_page : request :=
  GET (PARKER_BASE ++ "/candidates/linkedin_url_check") [].

Definition check_post (token url : str) : request :=
  POST (PARKER_BASE ++ "/candidates/check_linkedin_url")
    [("authenticity_token" : str, token); ("linkedin_url" : str, url)].

Definition is_url_check (rq : request) : bool :=
  match rq with
  | POST url _ => str_eqb url (PARKER_BASE ++ "/candidates/check_linkedin_url")
  | GET url _ => str_eqb url (PARKER_BASE ++ "/candidates/linkedin_url_check")
  end.

(** The requests of [ensureLoggedIn]. *)
Definition auth_request (rq : request) : Prop :=
  rq = GET (PARKER_BASE ++ "/") [] \/
  rq = GET (PARKER_BASE ++ "/users/sign_in") [] \/
  exists form, rq = POST (PARKER_BASE ++ "/users/sign_in") form.

(** [rq] is the creation request for the form [formHtml]: its payload is
    built from the owner id resolved on that form with the stored e-mail. *)
Definition creation_request (w : world) (createToken : str) (a : create_args)
    (formHtml : str) (rq : request) : Prop :=
  exists stored ownerId,
    storage w = Ok stored /\
    findOwnerIdForEmail formHtml (or_default (fst stored) []) = Done ownerId /\
    rq = POST (PARKER_BASE ++ "/candidates")
           (payload createToken a (or_default (sourcedDate a) (today w)) ownerId).

Definition owner_key : str := "candidate[candidate_owner_id]".
Definition sourced_by_key : str := "candidate[sourced_by_id]".

(** The form of a POST, the query of a GET. *)
Definition request_form (rq : request) : list (str * str) :=
  match rq with
  | GET _ params => params
  | POST _ formData => formData
  end.

(** The request has neither the owner nor the sourced-by field; it has
    both, with the given id. *)
Definition omits_owner (rq : request) : Prop :=
  forall k v, In (k, v) (request_form rq) -> k <> owner_key /\ k <> sourced_by_key.

Definition carries_owner (ownerId : str) (rq : request) : Prop :=
  In (owner_key, ownerId) (request_form rq) /\
  In (sourced_by_key, ownerId) (request_form rq).

(** No option of the form is the one of the e-mail: the e-mail is empty,
    the form has no owner select, or no option of the select has the e-mail
    as its label. *)
Definition no_owner_option (formHtml email : str) : Prop :=
  email = [] \/ select_of formHtml = None \/
  exists selectHtml,
    select_of formHtml = Some selectHtml /\
    Forall (fun o => label_is email o = false) (options_of selectHtml).

(** The run from [tr] to [tr'] sent no creation request. *)
Definition sends_no_creation (tr tr' : list request) : Prop :=
  exists new, tr' = new ++ tr /\ Forall (fun rq => is_creation rq = false) new.

(** The requests [tr'] of a run end with the request [page] and, last, the
    creation request [rq]: the answer to [page] read [formHtml], and [rq]
    posts the payload built with the token of that text and the owner id
    [ownerId] resolved on that text with the stored e-mail [email]. *)
Definition created_from (w : world) (a : create_args) (page : request)
    (tr' : list request) (formHtml email ownerId : str) (rq : request) : Prop :=
  exists tr1 r stored,
    tr' = rq :: page :: tr1 /\
    net w tr1 page = Ok r /\ r_text r = Ok formHtml /\
    storage w = Ok stored /\ email = or_default (fst stored) [] /\
    findOwnerIdForEmail formHtml email = Done ownerId /\
    rq = POST (PARKER_BASE ++ "/candidates")
           (payload (extractCsrfToken formHtml) a
              (or_default (sourcedDate a) (today w)) ownerId).

Definition not_authenticated : str :=
  "Not authenticated with Parker. Open extension settings to configure credentials.".

(** A first or a last name is given. *)
Definition hints_present (firstName lastName : str) : bool :=
  negb (is_empty firstName) || negb (is_empty lastName).

(** What [lookupCandidate] returns, step by step: [res] is the result and
    [tr'] the requests issued when the call that started with [tr0] ends. *)
Definition lookup_outcome (w : world) (url fn ln : str) (tr0 : list request)
    (res : lookup_result) (tr' : list request) : Prop :=
  match ensureLoggedIn w tr0 with
  | (Throw msg, tr1) =>
      res = LookupError (or_else msg "Failed to look up candidate.") /\ tr' = tr1
  | (Loop, _) => False
  | (Ret false, tr1) => res = LookupError not_authenticated /\ tr' = tr1
  | (Ret true, tr1) =>
      exists a tr2, lookupByUrlCheck w url tr1 = (Ret a, tr2) /\
      match a with
      | Some c => res = Found (default_linkedin_url c url) /\ tr' = tr2
      | None =>
          exists b tr3, lookupByNameSearch w url tr2 = (Ret b, tr3) /\
          match b with
          | Some c => res = Found (default_linkedin_url c url) /\ tr' = tr3
          | None =>
              if hints_present fn ln then
                exists d tr4, lookupByExplicitName w url fn ln tr3 = (Ret d, tr4) /\
                tr' = tr4 /\
                match d with
                | Some c => res = Found (default_linkedin_url c url)
                | None => res = NotFound
                end
              else res = NotFound /\ tr' = tr3
          end
      end
  end.

(** Every strategy that is tried ends without a match. *)
Definition exhausted (w : world) (url fn ln : str) (tr0 : list request) : Prop :=
  exists tr1 tr2 tr3,
    ensureLoggedIn w tr0 = (Ret true, tr1) /\
    lookupByUrlCheck w url tr1 = (Ret None, tr2) /\
    lookupByNameSearch w url tr2 = (Ret None, tr3) /\
    (hints_present fn ln = true ->
     exists tr4, lookupByExplicitName w url fn ln tr3 = (Ret None, tr4)).

(** *** The functions as the specification words them

    Where the wording of the specification and the source part, the wording
    is written out too, to state where the two give different results. *)
Module Claimed.

(** The entities of the specification and the characters they stand for,
    in the forms the source knows: the ampersand, the angle brackets and the
    double quote by name, the apostrophe, the plus, the slash and the equals
    sign by number. *)
Definition amp : str * ascii := ("&amp;" : str, "&"%char).

Definition others : list (str * ascii) :=
  [ ("&lt;" : str, "<"%char); ("&gt;" : str, ">"%char);
    ("&quot;" : str, dq); ("&#39;" : str, "'"%char);
    ("&#x2B;" : str, "+"%char); ("&#x2b;" : str, "+"%char);
    ("&#43;" : str, "+"%char);
    ("&#x2F;" : str, "/"%char); ("&#x2f;" : str, "/"%char);
    ("&#47;" : str, "/"%char);
    ("&#61;" : str, "="%char);
    ("&#x3D;" : str, "="%char); ("&#x3d;" : str, "="%char) ].

Definition entities : list (str * ascii) := amp :: others.

(** The entity of the table a text starts with. *)
Definition entity_at (table : list (str * ascii)) (s : str)
    : option (str * ascii) :=
  List.find (fun e => starts_with (fst e) s) table.

(** A text with the entities of a table decoded: the text is read once from
    left to right, and each entity met is replaced by its character; what
    replaces an entity is not read again.  [skip] counts the characters
    still covered by the last entity. *)
Fixpoint decode_from (table : list (str * ascii)) (s : str) (skip : nat) : str :=
  match s with
  | [] => []
  | a :: s' =>
      match skip with
      | S k => decode_from table s' k
      | 0 =>
          match entity_at table s with
          | Some (e, c) => c :: decode_from table s' (length e - 1)
          | None => a :: decode_from table s' 0
          end
      end
  end.

Definition decode (s : str) : str := decode_from entities s 0.

(** [extractToken]: the three shapes, tried in the order the specification
    gives, and the first match with its entities decoded.  The shapes are
    read as the example of the specification fixes them: its meta tag has
    the name before the content. *)
Definition extractToken (html : str) : str :=
  match match_re Re.meta_token html with
  | Some m => decode (group m 1)
  | None =>
      match match_re Re.input_name_value html with
      | Some m => decode (group m 1)
      | None =>
          match match_re Re.input_value_name html with
          | Some m => decode (group m 1)
          | None => []
          end
      end
  end.

(** The final path segment of a URL: what follows its last slash. *)
Definition final_segment (url : str) : str :=
  match rev (split_on "/" url) with
  | seg :: _ => seg
  | [] => []
  end.

Definition is_alnum (a : ascii) : bool := Char.is_alpha a || Char.is_digit a.

(** A hyphen and an alphanumeric token of five characters or more, at the
    end. *)
Definition id_suffix : regex :=
  (lit "-" · Rep false 5 None is_alnum · Eoi)%re.

Definition tokens (url : str) : list str :=
  filter (fun p => 1 <? length p)
    (split_on "-" (replace_re id_suffix [] (final_segment url))).

(** The search of the listing as the specification words it: the first
    table, without its first row; the first row whose profile anchor
    normalises to the normalised target; the path of the detail page of that
    row. *)
Definition findMatch (html target : str) : option str :=
  match table_of html with
  | None => None
  | Some tableHtml =>
      match List.find (row_matches target) (tl (rows_of tableHtml)) with
      | Some row => row_path row
      | None => None
      end
  end.

End Claimed.

(** *** The decoding of the source, said with the decoder above *)

(** A text decoded in two passes: the [&amp;] first, then the other
    entities in what the first pass gives. *)
Definition decoded_amp_first (s : str) : str :=
  Claimed.decode_from Claimed.others (Claimed.decode_from [Claimed.amp] s 0) 0.

(** A character that is no ampersand and that no entity of the table
    stands for. *)
Definition plain_for (table : list (str * ascii)) (a : ascii) : bool :=
  negb (Char.eqb a "&") && negb (existsb (Char.eqb a) (map snd table)).

(** *** Inputs of the examples *)

Definition minimal_page : str := "<h1>Jane Doe</h1>".
Definition token_page : str := qq "<meta name=`csrf-token` content=`t0k`>".
Definition root_page : str := qq "<a href=`/users/sign_out`>Sign out</a>".

(** A token whose [&amp;] is followed by the rest of another entity. *)
Definition double_encoded : str := qq "<meta name=`csrf-token` content=`a&amp;lt;b`>".

Definition meta_example : str := qq "<meta name=`csrf-token` content=`abc&amp;123`>".

Definition all_entities : str :=
  "&amp; &lt; &gt; &quot; &#39; &#x2B; &#x2b; &#43; &#x2F; &#x2f; &#47; &#61; &#x3D; &#x3d;".

Definition all_decoded : str := qq "& < > ` ' + + + / / / = = =".

Definition results_page : str :=
  qq ("<table><tr><th>Name</th><th>LinkedIn</th></tr>" ++
      "<tr><td><a href=`/candidates/7`>Joe</a></td>" ++
      "<td><a href=`https://www.linkedin.com/in/joe-roe`>in</a></td></tr>" ++
      "<tr><td><a href=`/candidates/12`>Jane</a></td>" ++
      "<td><a href=`http://www.linkedin.com/in/Jane-Doe-12345/`>in</a></td></tr>" ++
      "</table>")%string.

(** Two rows with the profile looked for: the first has no link to a detail
    page, the second has one. *)
Definition unlinked_first_page : str :=
  qq ("<table><tr><th>Name</th><th>LinkedIn</th></tr>" ++
      "<tr><td>Jane</td>" ++
      "<td><a href=`https://www.linkedin.com/in/jane-doe-12345`>in</a></td></tr>" ++
      "<tr><td><a href=`/candidates/9`>Jane Doe</a></td>" ++
      "<td><a href=`https://linkedin.com/in/jane-doe-12345/`>in</a></td></tr>" ++
      "</table>")%string.

Definition form_page : str :=
  qq ("<select name=`candidate[candidate_owner_id]`>" ++
      "<option value=``>Pick</option>" ++
      "<option value=`3`>joe@example.com</option>" ++
      "<option value=`7`> Me@Example.com </option></select>")%string.

Definition experience_url : str :=
  "https://www.linkedin.com/in/jane-doe/details/experience".
Definition gonzalez_url : str := "https://www.linkedin.com/in/maria-gonzalez".
Definition kaidi_url : str := "https://www.linkedin.com/in/kaidi-cao-398131117?trk=x".
Definition nested_in_url : str := "https://www.linkedin.com/in/?next=/in/joe-doe".
Definition nested_url : str :=
  "http://linkedin.com/in/jane?next=http://linkedin.com/in/joe".
Definition uk_url : str := "http://uk.linkedin.com/in/jane".
Definition www_url : str := "https://www.example.com/".
Definition edit_url : str := "https://parker.candidatelabs.com/candidates/12/edit".
Definition jane_mixed : str := "https://WWW.LinkedIn.com/in/Jane-Doe-12345/".
Definition jane_http : str := "http://linkedin.com/in/jane-doe-12345".
Definition jane_normal : str := "https://linkedin.com/in/jane-doe-12345".

Definition jane : create_args :=
  mkArgs "Jane" "Doe" "https://www.linkedin.com/in/jane-doe-12345" None.

Definition page (url body : str) : attempt response :=
  Ok (mkResponse true 200 url (Ok body)).

(** A world in which the session is active and the check of the profile URL
    resolves to the page of candidate 42. *)
Definition world_known : world :=
  mkWorld
    (fun _ rq =>
       match rq with
       | GET url _ =>
           if str_eqb url (PARKER_BASE ++ "/")
           then page url root_page
           else if str_eqb url (PARKER_BASE ++ "/candidates/linkedin_url_check")
           then page url token_page
           else Err "no route"
       | POST url _ =>
           if str_eqb url (PARKER_BASE ++ "/candidates/check_linkedin_url")
           then page (PARKER_BASE ++ "/candidates/42") minimal_page
           else Err "no route"
       end)
    (Ok (Some ("me@example.com" : str), Some ("secret" : str)))
    "2026-01-15".

Definition new_candidate_page : str := token_page ++ form_page.

(** A world in which the session is active, no candidate has the profile,
    and the creation form lists the owners. *)
Definition world_new : world :=
  mkWorld
    (fun _ rq =>
       match rq with
       | GET url _ =>
           if str_eqb url (PARKER_BASE ++ "/")
           then page url root_page
           else if str_eqb url (PARKER_BASE ++ "/candidates/linkedin_url_check")
           then page url token_page
           else if str_eqb url (PARKER_BASE ++ "/candidates/new")
           then page url new_candidate_page
           else Err "no route"
       | POST url _ =>
           if str_eqb url (PARKER_BASE ++ "/candidates/check_linkedin_url")
           then page (PARKER_BASE ++ "/candidates/new") new_candidate_page
           else if str_eqb url (PARKER_BASE ++ "/candidates")
           then page (PARKER_BASE ++ "/candidates/43") minimal_page
           else Err "no route"
       end)
    (Ok (Some ("me@example.com" : str), Some ("secret" : str)))
    "2026-01-15".

(** A world in which every request ends on the sign-in page and no
    credentials are stored. *)
Definition world_signed_out : world :=
  mkWorld
    (fun _ rq => page (PARKER_BASE ++ "/users/sign_in") token_page)
    (Ok (None, None))
    "2026-01-15".

(** *** Clean texts *)

(** A text holds a tag: a ["<"] with a [">"] somewhere after it. *)
Definition tag_in (s : str) : Prop :=
  exists a b c, s = a ++ ("<" : str) ++ b ++ (">" : str) ++ c.

(** A text that [trim] leaves as it is. *)
Definition trimmed (s : str) : Prop := trim s = s.

(** A text as the parser leaves it: trimmed and without a tag. *)
Definition clean (s : str) : Prop := trimmed s /\ ~ tag_in s.

Definition clean_submission (s : submission) : Prop :=
  clean (s_role s) /\ clean (s_company s) /\ clean (s_stage s) /\
  clean (s_dates s) /\ clean (s_owner s).

Definition head_not_space (s : str) : Prop :=
  match s with a :: _ => Char.is_space a = false | [] => True end.

Definition ends_with_space (s : str) : bool :=
  match rev s with
  | a :: _ => Char.is_space a
  | [] => false
  end.

(** Every white space character of the text is a space, and no two stand
    side by side. *)
Fixpoint single_spaced (s : str) : bool :=
  match s with
  | [] => true
  | a :: s' =>
      (if Char.is_space a
       then Char.eqb a " " &&
            match s' with b :: _ => negb (Char.is_space b) | [] => true end
       else true) && single_spaced s'
  end.

(** A text that is not empty, trimmed, without a tag and single-spaced. *)
Definition tidy (e : str) : Prop :=
  e <> [] /\ trimmed e /\ ~ tag_in e /\ single_spaced e = true.

(** The patterns of the entities [decodeHtmlEntities] knows, with what
    replaces each, in the order of the source. *)
Definition entity_table : list (regex * str) :=
  [ (lit "&amp;", "&" : str); (lit "&lt;", "<" : str); (lit "&gt;", ">" : str);
    (lit "&quot;", [dq]); (lit "&#39;", "'" : str);
    (Re.hex_entity "2" "b" "B", "+" : str); (lit "&#43;", "+" : str);
    (Re.hex_entity "2" "f" "F", "/" : str); (lit "&#47;", "/" : str);
    (lit "&#61;", "=" : str); (Re.hex_entity "3" "d" "D", "=" : str) ].

(** *** Records *)

(** The path of a detail page: ["/candidates/"] and digits. *)
Definition detail_path (p : str) : Prop :=
  exists ds, p = ("/candidates/" : str) ++ ds /\ ds <> [] /\ digits ds.

(** A record read off some page. *)
Definition parsed (c : candidate) : Prop :=
  exists html finalUrl, parseCandidatePage html finalUrl = Done c.

(** The record holds an id that is a number. *)
Definition has_id (c : candidate) : Prop :=
  exists id, c !! "id"%string = Some (JStr id) /\ id <> [] /\ digits id.

(** *** Requests of the client *)

Definition request_url (rq : request) : str :=
  match rq with
  | GET url _ => url
  | POST url _ => url
  end.

(** The request goes to the Parker host. *)
Definition to_parker (rq : request) : Prop :=
  starts_with (PARKER_BASE ++ "/") (request_url rq) = true.

(** The requests of a login: the probe of the session, the sign-in page and
    the sign-in form. *)
Definition probe : request := GET (PARKER_BASE ++ "/") [].

Definition sign_in_page : request := GET (PARKER_BASE ++ "/users/sign_in") [].

Definition sign_in_post (token email password : str) : request :=
  POST (PARKER_BASE ++ "/users/sign_in")
    [("authenticity_token" : str, token);
     ("user[email]" : str, email);
     ("user[password]" : str, password);
     ("commit" : str, "Sign in" : str)].

(** A search by name, the request of a detail page, and the request of the
    form that creates a candidate. *)
Definition search_request (term : str) : request :=
  GET (PARKER_BASE ++ "/candidates")
    [("q[first_name_or_last_name_cont]" : str, term);
     ("commit" : str, "Search" : str)].

Definition detail_request (path : str) : request := GET (PARKER_BASE ++ path) [].

Definition new_form : request := GET (PARKER_BASE ++ "/candidates/new") [].

(** The names [lookupByExplicitName] searches for. *)
Definition given_names (firstName lastName : str) : list str :=
  map trim
    (filter (fun n => negb (is_empty n) && negb (is_empty (trim n)))
       [firstName; lastName]).

(** The requests a lookup may issue. *)
Definition lookup_request (url fn ln : str) (rq : request) : Prop :=
  auth_request rq \/ rq = check_page \/ (exists tok, rq = check_post tok url) \/
  (exists term,
     (In term (namesFromLinkedinUrl url) \/ In term (given_names fn ln)) /\
     rq = search_request term) \/
  (exists p, detail_path p /\ rq = detail_request p).

(** The requests the two revisions of [createCandidate] may issue. *)
Definition form_first_request (w : world) (a : create_args) (rq : request) : Prop :=
  auth_request rq \/ rq = new_form \/
  exists tok html, tok <> [] /\ creation_request w tok a html rq.

Definition check_first_request (w : world) (a : create_args) (rq : request) : Prop :=
  auth_request rq \/ rq = check_page \/
  (exists tok, rq = check_post tok (linkedinUrl a)) \/
  exists tok html, creation_request w tok a html rq.

(** *** Counting requests *)

(** The weight of a list of requests, each weighed by [wt]. *)
Definition weight (wt : request -> nat) (l : list request) : nat :=
  list_sum (map wt l).

(** The requests a run of [m] adds weigh [n] at most, however it ends. *)
Definition Costs {A : Type} (wt : request -> nat) (n : nat) (m : M A) : Prop :=
  forall tr o tr', m tr = (o, tr') ->
    exists new, tr' = new ++ tr /\ weight wt new <= n.

(** Two weights: every request counts, and only the creation request
    counts. *)
Definition any_request : request -> nat := fun _ => 1.

Definition creation_only (rq : request) : nat := if is_creation rq then 1 else 0.

(** *** Messages *)

(** The messages whose handler calls the storage itself. *)
Definition reads_settings (msg : message) : bool :=
  match msg with
  | PARKER_LOGIN | SAVE_SETTINGS _ _ | GET_SETTINGS => true
  | _ => false
  end.

(** The message has the [data] its handler passes on: every message but a
    [CREATE_CANDIDATE] without [data]. *)
Definition has_data (msg : message) : bool :=
  match msg with
  | CREATE_CANDIDATE None => false
  | _ => true
  end.

Definition is_create (msg : message) : bool :=
  match msg with
  | CREATE_CANDIDATE _ => true
  | _ => false
  end.

(** *** Further inputs of the examples *)

Definition plain_token : str := "dG9rZW4vYWJj+w==".

Definition jane_shouted : str := "HTTP://LINKEDIN.COM/IN/JANE-DOE-12345".

Definition jane_heading : str := " Jane  van Doe ".

(** The world of [world_known] with a storage that fails. *)
Definition world_locked : world :=
  mkWorld (net world_known) (Err "storage is locked") (today world_known).

(** A page whose only heading is an [h1]. *)
Definition heading_only (selector : str) : option str :=
  if str_eqb selector "h1" then Some jane_heading else None.

(** * Properties *)

(** ** The matcher and the patterns *)

Lemma run_length_le (p : ascii -> bool) (s : str) : run_length p s <= length s.
Proof.
  induction s as [|a s IH]; simpl; [lia|].
  destruct (p a); simpl; lia.
Qed.

Lemma run_length_firstn (p : ascii -> bool) (s : str) (n : nat) :
  n <= run_length p s -> forallb p (firstn n s) = true.
Proof.
  revert n; induction s as [|a s IH]; intros n Hn; simpl in *.
  - replace n with 0 by lia. reflexivity.
  - destruct n as [|n]; [reflexivity|]. simpl.
    destruct (p a) eqn:Hp; [|lia]. simpl. apply IH. lia.
Qed.

Lemma run_length_app (p : ascii -> bool) (t rest : str) :
  forallb p t = true -> length t <= run_length p (t ++ rest).
Proof.
  induction t as [|a t IH]; simpl; intros H; [lia|].
  apply andb_true_iff in H as [Ha Ht]. rewrite Ha. specialize (IH Ht). lia.
Qed.

Lemma rep_counts_In (lz : bool) (lo : nat) (hi : option nat)
    (p : ascii -> bool) (s : str) (n : nat) :
  In n (rep_counts lz lo hi p s) <->
  lo <= n /\ n <= run_length p s /\ within hi n.
Proof.
  unfold rep_counts, rep_top, within.
  assert (E : forall l : list nat, In n (if lz then l else rev l) <-> In n l).
  { intros l. destruct lz; [tauto|]. symmetry. apply in_rev. }
  rewrite E, in_seq. destruct hi as [h|]; lia.
Qed.

Lemma firstn_app_exact (t rest : str) :
  firstn (length (t ++ rest) - length rest) (t ++ rest) = t.
Proof.
  rewrite length_app. replace (length t + length rest - length rest) with (length t) by lia.
  rewrite firstn_app, Nat.sub_diag, firstn_all. simpl. apply app_nil_r.
Qed.

Lemma skipn_app_exact (t rest : str) : skipn (length t) (t ++ rest) = rest.
Proof.
  rewrite skipn_app, Nat.sub_diag, skipn_all. reflexivity.
Qed.

(** Every way the matcher finds is a match. *)
Lemma ms_sound (r : regex) :
  forall s c s' c', In (s', c') (ms r s c) ->
  exists t, s = t ++ s' /\ Matches r t s' c c'.
Proof.
  induction r as [|p|lz lo hi p|r1 IH1 r2 IH2|r1 IH1 r2 IH2|i r IH|];
    intros s c s' c' Hin; simpl in Hin.
  - destruct Hin as [E|[]]. inversion E; subst. exists []. split; [reflexivity|constructor].
  - destruct s as [|a s]; [destruct Hin|].
    destruct (p a) eqn:Hp; [|destruct Hin].
    destruct Hin as [E|[]]. inversion E; subst.
    exists [a]. split; [reflexivity|]. constructor. exact Hp.
  - apply in_map_iff in Hin as (n & E & Hn). inversion E; subst.
    apply rep_counts_In in Hn as (Hlo & Hrun & Hhi).
    pose proof (run_length_le p s) as Hle.
    exists (firstn n s). split; [symmetry; apply firstn_skipn|].
    constructor.
    + apply run_length_firstn. exact Hrun.
    + rewrite length_firstn. lia.
    + rewrite length_firstn. replace (Nat.min n (length s)) with n by lia. exact Hhi.
  - apply in_flat_map in Hin as ([s1 c1] & H1 & H2). simpl in H2.
    apply IH1 in H1 as (t1 & -> & M1). apply IH2 in H2 as (t2 & -> & M2).
    exists (t1 ++ t2). split; [apply app_assoc|]. econstructor; eassumption.
  - apply in_app_iff in Hin as [H|H].
    + apply IH1 in H as (t & -> & M). exists t. split; [reflexivity|]. apply M_AltL, M.
    + apply IH2 in H as (t & -> & M). exists t. split; [reflexivity|]. apply M_AltR, M.
  - apply in_map_iff in Hin as ([s1 c1] & E & H). simpl in E. inversion E; subst.
    apply IH in H as (t & -> & M). exists t. split; [reflexivity|].
    rewrite firstn_app_exact. constructor. exact M.
  - destruct s; [|destruct Hin]. destruct Hin as [E|[]]. inversion E; subst.
    exists []. split; [reflexivity|constructor].
Qed.

(** Every match is among the ways the matcher finds. *)
Lemma ms_complete (r : regex) (t rest : str) (c c' : caps) :
  Matches r t rest c c' -> In (rest, c') (ms r (t ++ rest) c).
Proof.
  induction 1; simpl.
  - left; reflexivity.
  - rewrite H. left; reflexivity.
  - apply in_map_iff. exists (length t). split.
    + rewrite skipn_app_exact. reflexivity.
    + apply rep_counts_In. split; [assumption|]. split; [|assumption].
      apply run_length_app. assumption.
  - apply in_flat_map. exists (t2 ++ rest, c1). split.
    + rewrite <- app_assoc. assumption.
    + assumption.
  - apply in_app_iff. left. assumption.
  - apply in_app_iff. right. assumption.
  - apply in_map_iff. exists (rest, c'). split; [|assumption].
    simpl. rewrite firstn_app_exact. reflexivity.
  - left; reflexivity.
Qed.

Lemma Matches_min_len (r : regex) (t rest : str) (c c' : caps) :
  Matches r t rest c c' -> min_len r <= length t.
Proof.
  induction 1; simpl; try lia.
  rewrite length_app. lia.
Qed.

(** What [search] returns: the leftmost position with a match, and there
    the first way the matcher finds. *)
Lemma search_Some (r : regex) (s : str) (idx : nat) (m : rmatch) :
  search r s idx = Some m ->
  exists pre,
    s = pre ++ m_text m ++ m_rest m /\
    m_index m = idx + length pre /\
    Matches r (m_text m) (m_rest m) [] (m_caps m) /\
    (exists others, ms r (m_text m ++ m_rest m) [] = (m_rest m, m_caps m) :: others) /\
    (forall pre1 suf, pre = pre1 ++ suf -> suf <> [] ->
       ms r (suf ++ m_text m ++ m_rest m) [] = []).
Proof.
  revert idx; induction s as [|a s IH]; intros idx H; simpl in H.
  - destruct (ms r [] []) as [|[rest c] l] eqn:E; [discriminate|].
    inversion H; subst; clear H. simpl.
    assert (Hin : In (rest, c) (ms r [] [])) by (rewrite E; left; reflexivity).
    apply ms_sound in Hin as (t & Ht & M).
    symmetry in Ht. apply app_eq_nil in Ht as [-> ->]. simpl.
    exists []. simpl. repeat split; try lia; try assumption.
    + eexists; eassumption.
    + intros pre1 suf Hp Hs. symmetry in Hp. apply app_eq_nil in Hp as [_ ->]. congruence.
  - destruct (ms r (a :: s) []) as [|[rest c] l] eqn:E.
    + apply IH in H as (pre & Hs & Hi & M & Hhd & Hleft).
      exists (a :: pre). simpl. repeat split.
      * f_equal. exact Hs.
      * lia.
      * exact M.
      * exact Hhd.
      * intros pre1 suf Hp Hne. destruct pre1 as [|b pre1]; simpl in Hp.
        -- subst suf. simpl. rewrite <- Hs. exact E.
        -- inversion Hp; subst. eapply Hleft; [reflexivity|assumption].
    + inversion H; subst; clear H. simpl.
      assert (Hin : In (rest, c) (ms r (a :: s) [])) by (rewrite E; left; reflexivity).
      apply ms_sound in Hin as (t & Ht & M).
      assert (Et : firstn (length (a :: s) - length rest) (a :: s) = t).
      { rewrite Ht. apply firstn_app_exact. }
      simpl length in Et. rewrite Et.
      exists []. simpl. repeat split; try lia; try assumption.
      * rewrite <- Ht, E. eexists; reflexivity.
      * intros pre1 suf Hp Hs. symmetry in Hp. apply app_eq_nil in Hp as [_ ->]. congruence.
Qed.

Lemma search_None (r : regex) (s : str) (idx : nat) :
  search r s idx = None -> forall pre suf, s = pre ++ suf -> ms r suf [] = [].
Proof.
  revert idx; induction s as [|a s IH]; intros idx H pre suf Hs; simpl in H.
  - symmetry in Hs. apply app_eq_nil in Hs as [_ ->].
    destruct (ms r [] []) as [|[? ?] ?]; [reflexivity|discriminate].
  - destruct (ms r (a :: s) []) as [|[rest c] l] eqn:E; [|discriminate].
    destruct pre as [|b pre]; simpl in Hs.
    + subst suf. exact E.
    + inversion Hs; subst. eapply IH; [eassumption|reflexivity].
Qed.

Lemma search_complete (r : regex) (s : str) (idx : nat) :
  Occurs r s -> exists m, search r s idx = Some m.
Proof.
  intros (pre & t & rest & c & Hs & M).
  destruct (search r s idx) as [m|] eqn:E; [eexists; reflexivity|].
  pose proof (search_None _ _ _ E pre (t ++ rest) Hs) as Hnone.
  apply ms_complete in M. rewrite Hnone in M. destruct M.
Qed.

Lemma exec_Some (r : regex) (s : str) (i : nat) (m : rmatch) :
  exec r s i = Some m ->
  exists pre,
    s = pre ++ m_text m ++ m_rest m /\
    m_index m = length pre /\
    i <= length pre /\
    Matches r (m_text m) (m_rest m) [] (m_caps m).
Proof.
  unfold exec. destruct (i <=? length s) eqn:Hi; [|discriminate].
  apply Nat.leb_le in Hi. intros H.
  apply search_Some in H as (pre & Hs & Hidx & M & _ & _).
  exists (firstn i s ++ pre). repeat split.
  - rewrite <- app_assoc, <- Hs. symmetry. apply firstn_skipn.
  - rewrite length_app, length_firstn. lia.
  - rewrite length_app, length_firstn. lia.
  - exact M.
Qed.

Lemma exec_progress (r : regex) (s : str) (i : nat) (m : rmatch) :
  exec r s i = Some m -> 1 <= min_len r -> i < m_end m /\ m_end m <= length s.
Proof.
  intros H Hmin. apply exec_Some in H as (pre & Hs & Hidx & Hi & M).
  apply Matches_min_len in M. unfold m_end.
  apply (f_equal (@length ascii)) in Hs. rewrite !length_app in Hs. lia.
Qed.

Lemma match_re_search (r : regex) (s : str) : match_re r s = search r s 0.
Proof. reflexivity. Qed.

Lemma match_re_Some (r : regex) (s : str) (m : rmatch) :
  match_re r s = Some m ->
  exists pre,
    s = pre ++ m_text m ++ m_rest m /\
    m_index m = length pre /\
    Matches r (m_text m) (m_rest m) [] (m_caps m) /\
    (exists others, ms r (m_text m ++ m_rest m) [] = (m_rest m, m_caps m) :: others) /\
    (forall pre1 suf, pre = pre1 ++ suf -> suf <> [] ->
       ms r (suf ++ m_text m ++ m_rest m) [] = []).
Proof.
  rewrite match_re_search. intros H.
  apply search_Some in H as (pre & Hs & Hidx & M & Hhd & Hleft).
  exists pre. repeat split; assumption.
Qed.

Lemma match_re_None (r : regex) (s : str) :
  match_re r s = None <-> ~ Occurs r s.
Proof.
  rewrite match_re_search. split.
  - intros H (pre & t & rest & c & Hs & M).
    pose proof (search_None _ _ _ H pre (t ++ rest) Hs) as Hnone.
    apply ms_complete in M. rewrite Hnone in M. destruct M.
  - intros H. destruct (search r s 0) as [m|] eqn:E; [|reflexivity].
    exfalso. apply H. apply search_Some in E as (pre & Hs & _ & M & _).
    exists pre, (m_text m), (m_rest m), (m_caps m). split; assumption.
Qed.

Lemma match_re_Occurs (r : regex) (s : str) :
  Occurs r s -> exists m, match_re r s = Some m.
Proof.
  intros H. destruct (match_re r s) as [m|] eqn:E; [eexists; reflexivity|].
  apply match_re_None in E. contradiction.
Qed.

(** With enough fuel the list of matches does not depend on the fuel. *)
Lemma all_matches_fuel (r : regex) (s : str) :
  1 <= min_len r ->
  forall f1 f2 i, i <= length s -> length s < f1 + i -> length s < f2 + i ->
  all_matches f1 r s i = all_matches f2 r s i.
Proof.
  intros Hmin. induction f1 as [|f1 IH]; intros f2 i Hi H1 H2; [lia|].
  destruct f2 as [|f2]; [lia|]. simpl.
  destruct (exec r s i) as [m|] eqn:E; [|reflexivity].
  destruct (exec_progress _ _ _ _ E Hmin) as [Hlt Hle].
  f_equal. apply IH; lia.
Qed.

Lemma group_of_caps (m : rmatch) (i : nat) (u : str) (c : caps) :
  m_caps m = (i, u) :: c -> group m i = u.
Proof.
  intros H. unfold group. rewrite H. simpl. rewrite Nat.eqb_refl. reflexivity.
Qed.

(** *** Reading a match off a pattern *)

Lemma Char_eqb_eq (a b : ascii) : Char.eqb a b = true <-> a = b.
Proof. unfold Char.eqb. apply Ascii.eqb_eq. Qed.

Lemma Char_eqb_refl (a : ascii) : Char.eqb a a = true.
Proof. apply Char_eqb_eq. reflexivity. Qed.

Lemma Matches_Eps_inv (t rest : str) (c c' : caps) :
  Matches Eps t rest c c' <-> t = [] /\ c' = c.
Proof.
  split.
  - inversion 1; subst; auto.
  - intros [-> ->]. constructor.
Qed.

Lemma Matches_Eoi_inv (t rest : str) (c c' : caps) :
  Matches Eoi t rest c c' <-> t = [] /\ rest = [] /\ c' = c.
Proof.
  split.
  - inversion 1; subst; auto.
  - intros (-> & -> & ->). constructor.
Qed.

Lemma Matches_Chr_inv (p : ascii -> bool) (t rest : str) (c c' : caps) :
  Matches (Chr p) t rest c c' <-> exists a, t = [a] /\ p a = true /\ c' = c.
Proof.
  split.
  - inversion 1; subst. eauto.
  - intros (a & -> & H & ->). constructor. exact H.
Qed.

Lemma Matches_Rep_inv (lz : bool) (lo : nat) (hi : option nat)
    (p : ascii -> bool) (t rest : str) (c c' : caps) :
  Matches (Rep lz lo hi p) t rest c c' <->
  forallb p t = true /\ lo <= length t /\ within hi (length t) /\ c' = c.
Proof.
  split.
  - inversion 1; subst; auto.
  - intros (H1 & H2 & H3 & ->). constructor; assumption.
Qed.

Lemma Matches_Cat_inv (r1 r2 : regex) (t rest : str) (c c' : caps) :
  Matches (Cat r1 r2) t rest c c' <->
  exists t1 t2 c1, t = t1 ++ t2 /\ Matches r1 t1 (t2 ++ rest) c c1 /\
                   Matches r2 t2 rest c1 c'.
Proof.
  split.
  - inversion 1; subst. eauto 7.
  - intros (t1 & t2 & c1 & -> & H1 & H2). econstructor; eassumption.
Qed.

Lemma Matches_Alt_inv (r1 r2 : regex) (t rest : str) (c c' : caps) :
  Matches (Alt r1 r2) t rest c c' <->
  Matches r1 t rest c c' \/ Matches r2 t rest c c'.
Proof.
  split.
  - inversion 1; subst; auto.
  - intros [H|H]; [apply M_AltL|apply M_AltR]; exact H.
Qed.

Lemma Matches_Grp_inv (i : nat) (r : regex) (t rest : str) (c c' : caps) :
  Matches (Grp i r) t rest c c' <->
  exists c1, Matches r t rest c c1 /\ c' = (i, t) :: c1.
Proof.
  split.
  - inversion 1; subst. eauto.
  - intros (c1 & H & ->). constructor. exact H.
Qed.

Lemma Matches_lit (s t rest : str) (c c' : caps) :
  Matches (lit s) t rest c c' <-> t = s /\ c' = c.
Proof.
  revert t c'. induction s as [|a s IH]; intros t c'; simpl.
  - apply Matches_Eps_inv.
  - rewrite Matches_Cat_inv. split.
    + intros (t1 & t2 & c1 & -> & H1 & H2).
      apply Matches_Chr_inv in H1 as (b & -> & Hb & ->).
      apply IH in H2 as [-> ->]. apply Char_eqb_eq in Hb as ->. auto.
    + intros [-> ->]. exists [a], s, c. repeat split.
      * apply Matches_Chr_inv. exists a. repeat split. apply Char_eqb_refl.
      * apply IH. auto.
Qed.

Lemma eq_i_cons (a b : ascii) (s t : str) :
  eq_i (a :: s) (b :: t) <-> Char.fold a = Char.fold b /\ eq_i s t.
Proof.
  unfold eq_i. simpl. split.
  - intros H. inversion H. auto.
  - intros [-> ->]. reflexivity.
Qed.

Lemma eq_i_nil_r (s : str) : eq_i s [] <-> s = [].
Proof.
  unfold eq_i. destruct s; simpl; split; congruence.
Qed.

Lemma eq_i_length (s t : str) : eq_i s t -> length s = length t.
Proof.
  unfold eq_i. intros H. apply (f_equal (@length ascii)) in H.
  rewrite !length_map in H. exact H.
Qed.

Lemma eq_i_refl (s : str) : eq_i s s.
Proof. reflexivity. Qed.

Lemma Matches_lit_i (s t rest : str) (c c' : caps) :
  Matches (lit_i s) t rest c c' <-> eq_i t s /\ c' = c.
Proof.
  revert t c'. induction s as [|a s IH]; intros t c'; simpl.
  - rewrite Matches_Eps_inv, eq_i_nil_r. tauto.
  - rewrite Matches_Cat_inv. split.
    + intros (t1 & t2 & c1 & -> & H1 & H2).
      apply Matches_Chr_inv in H1 as (b & -> & Hb & ->).
      apply IH in H2 as [H2 ->]. apply Char_eqb_eq in Hb.
      split; [|reflexivity]. simpl. apply eq_i_cons. auto.
    + intros [H ->]. destruct t as [|b t].
      { apply eq_i_length in H. discriminate. }
      apply eq_i_cons in H as [Hb Ht].
      exists [b], t, c. repeat split.
      * apply Matches_Chr_inv. exists b. repeat split. apply Char_eqb_eq, Hb.
      * apply IH. auto.
Qed.

Lemma Matches_lit_cat (s : str) (r : regex) (t rest : str) (c c' : caps) :
  Matches (Cat (lit s) r) t rest c c' <->
  exists t', t = s ++ t' /\ Matches r t' rest c c'.
Proof.
  rewrite Matches_Cat_inv. split.
  - intros (t1 & t2 & c1 & -> & H1 & H2). apply Matches_lit in H1 as [-> ->]. eauto.
  - intros (t' & -> & H). exists s, t', c. repeat split; [|exact H].
    apply Matches_lit. auto.
Qed.

Lemma Matches_lit_i_cat (s : str) (r : regex) (t rest : str) (c c' : caps) :
  Matches (Cat (lit_i s) r) t rest c c' <->
  exists s' t', t = s' ++ t' /\ eq_i s' s /\ Matches r t' rest c c'.
Proof.
  rewrite Matches_Cat_inv. split.
  - intros (t1 & t2 & c1 & -> & H1 & H2). apply Matches_lit_i in H1 as [H1 ->]. eauto.
  - intros (s' & t' & -> & Hs & H). exists s', t', c. repeat split; [|exact H].
    apply Matches_lit_i. auto.
Qed.

Lemma Matches_Rep_cat (lz : bool) (lo : nat) (hi : option nat)
    (p : ascii -> bool) (r : regex) (t rest : str) (c c' : caps) :
  Matches (Cat (Rep lz lo hi p) r) t rest c c' <->
  exists u t', t = u ++ t' /\ forallb p u = true /\ lo <= length u /\
               within hi (length u) /\ Matches r t' rest c c'.
Proof.
  rewrite Matches_Cat_inv. split.
  - intros (t1 & t2 & c1 & -> & H1 & H2).
    apply Matches_Rep_inv in H1 as (? & ? & ? & ->). eauto 8.
  - intros (u & t' & -> & H1 & H2 & H3 & H). exists u, t', c.
    repeat split; [|exact H]. apply Matches_Rep_inv. auto.
Qed.

Lemma Matches_Grp_cat (i : nat) (g r : regex) (t rest : str) (c c' : caps) :
  Matches (Cat (Grp i g) r) t rest c c' <->
  exists u t' c1, t = u ++ t' /\ Matches g u (t' ++ rest) c c1 /\
                  Matches r t' rest ((i, u) :: c1) c'.
Proof.
  rewrite Matches_Cat_inv. split.
  - intros (t1 & t2 & c1 & -> & H1 & H2).
    apply Matches_Grp_inv in H1 as (c2 & H1 & ->). eauto 8.
  - intros (u & t' & c1 & -> & H1 & H2). exists u, t', ((i, u) :: c1).
    repeat split; [|exact H2]. apply Matches_Grp_inv. eauto.
Qed.

(** *** The matcher on a sequence *)

Lemma flat_map_assoc {A B C : Type} (f : A -> list B) (g : B -> list C) (l : list A) :
  flat_map g (flat_map f l) = flat_map (fun x => flat_map g (f x)) l.
Proof.
  induction l as [|a l IH]; simpl; [reflexivity|].
  rewrite flat_map_app, IH. reflexivity.
Qed.

Lemma ms_Cat_assoc (r1 r2 r3 : regex) (s : str) (c : caps) :
  ms (Cat (Cat r1 r2) r3) s c = ms (Cat r1 (Cat r2 r3)) s c.
Proof. simpl. apply flat_map_assoc. Qed.

Lemma ms_Chr_cat (p : ascii -> bool) (r : regex) (s : str) (c : caps) :
  ms (Cat (Chr p) r) s c =
  match s with
  | a :: s' => if p a then ms r s' c else []
  | [] => []
  end.
Proof.
  simpl. destruct s as [|a s]; [reflexivity|].
  destruct (p a); [|reflexivity]. simpl. apply app_nil_r.
Qed.

Lemma ms_lit_cat (s : str) (r : regex) (y : str) (c : caps) :
  ms (Cat (lit s) r) y c =
  if starts_with s y then ms r (skipn (length s) y) c else [].
Proof.
  revert y. induction s as [|a s IH]; intros y.
  - simpl. rewrite app_nil_r. reflexivity.
  - change (lit (a :: s)) with (Cat (Chr (Char.exactly a)) (lit s)).
    rewrite ms_Cat_assoc, ms_Chr_cat.
    destruct y as [|b y]; [reflexivity|].
    cbn [starts_with length skipn]. unfold Char.exactly, Char.eqb.
    rewrite (Ascii.eqb_sym b a). destruct (Ascii.eqb a b); [|reflexivity].
    apply IH.
Qed.

Lemma ms_Grp_greedy (i lo : nat) (p : ascii -> bool) (s : str) (c : caps) :
  lo <= run_length p s ->
  exists others,
    ms (Grp i (Rep false lo None p)) s c =
    (skipn (run_length p s) s, (i, firstn (run_length p s) s) :: c) :: others.
Proof.
  intros Hlo. cbn [ms]. unfold rep_counts, rep_top.
  assert (E1 : S (run_length p s) - lo = S (run_length p s - lo)) by lia.
  assert (E2 : lo + (run_length p s - lo) = run_length p s) by lia.
  rewrite E1, seq_S, rev_app_distr, E2. cbn [rev app map fst snd].
  eexists. f_equal.
  pose proof (run_length_le p s). rewrite length_skipn.
  replace (length s - (length s - run_length p s)) with (run_length p s) by lia.
  reflexivity.
Qed.

Lemma run_length_exact (p : ascii -> bool) (t post : str) :
  forallb p t = true ->
  match post with a :: _ => p a = false | [] => True end ->
  run_length p (t ++ post) = length t.
Proof.
  intros Ht Hpost. induction t as [|a t IH]; simpl in *.
  - destruct post as [|b post]; [reflexivity|]. simpl. rewrite Hpost. reflexivity.
  - apply andb_true_iff in Ht as [-> Ht]. f_equal. apply IH. exact Ht.
Qed.

(** ** Strings *)

Ltac each_char a := destruct a as [[] [] [] [] [] [] [] []]; vm_compute; try reflexivity; try discriminate.

Lemma lower_lower (a : ascii) : Char.lower (Char.lower a) = Char.lower a.
Proof. each_char a. Qed.

Lemma is_space_lower (a : ascii) : Char.is_space (Char.lower a) = Char.is_space a.
Proof. each_char a. Qed.

Lemma is_upper_lower (a : ascii) : Char.is_upper (Char.lower a) = false.
Proof. each_char a. Qed.

Lemma toLowerCase_idem (s : str) : toLowerCase (toLowerCase s) = toLowerCase s.
Proof.
  unfold toLowerCase. rewrite map_map. apply map_ext. intros a. apply lower_lower.
Qed.

Lemma lowercase_Forall (s : str) :
  lowercase s <-> Forall (fun a => Char.lower a = a) s.
Proof.
  unfold lowercase, toLowerCase. induction s as [|a s IH]; simpl.
  - split; [constructor|reflexivity].
  - split.
    + intros H. inversion H as [[Ha Hs]]. rewrite Ha, Hs. constructor; [exact Ha|].
      apply IH. exact Hs.
    + intros H. inversion H; subst. f_equal; [assumption|]. apply IH. assumption.
Qed.

Lemma lowercase_app (s t : str) : lowercase (s ++ t) <-> lowercase s /\ lowercase t.
Proof. rewrite !lowercase_Forall. apply Forall_app. Qed.

Lemma lowercase_toLowerCase (s : str) : lowercase (toLowerCase s).
Proof. apply toLowerCase_idem. Qed.

(** A prefix and a suffix of a text. *)
Lemma trimStart_suffix (s : str) : exists ws, s = ws ++ trimStart s.
Proof.
  induction s as [|a s [ws IH]]; simpl.
  - exists []. reflexivity.
  - destruct (Char.is_space a).
    + exists (a :: ws). simpl. f_equal. exact IH.
    + exists []. reflexivity.
Qed.

Lemma trimEnd_prefix (s : str) : exists ws, s = trimEnd s ++ ws.
Proof.
  unfold trimEnd. destruct (trimStart_suffix (rev s)) as [ws H].
  exists (rev ws). apply (f_equal (@rev ascii)) in H.
  rewrite rev_involutive, rev_app_distr in H. exact H.
Qed.

Lemma trim_parts (s : str) : exists w1 w2, s = w1 ++ trim s ++ w2.
Proof.
  unfold trim. destruct (trimStart_suffix s) as [w1 H1].
  destruct (trimEnd_prefix (trimStart s)) as [w2 H2].
  exists w1, w2. rewrite <- H2. exact H1.
Qed.

Lemma trimStart_no_space (s : str) : no_space s -> trimStart s = s.
Proof.
  unfold no_space. destruct s as [|a s]; simpl; [reflexivity|].
  intros H. apply orb_false_iff in H as [-> _]. reflexivity.
Qed.

Lemma no_space_rev (s : str) : no_space s -> no_space (rev s).
Proof.
  unfold no_space. intros H.
  destruct (existsb Char.is_space (rev s)) eqn:E; [|reflexivity].
  apply existsb_exists in E as (a & Hin & Ha). apply in_rev in Hin.
  assert (existsb Char.is_space s = true) by (apply existsb_exists; eauto).
  congruence.
Qed.

Lemma trim_no_space (s : str) : no_space s -> trim s = s.
Proof.
  intros H. unfold trim, trimEnd. rewrite (trimStart_no_space s H).
  rewrite trimStart_no_space by (apply no_space_rev, H). apply rev_involutive.
Qed.

Lemma no_space_app (s t : str) : no_space (s ++ t) <-> no_space s /\ no_space t.
Proof. unfold no_space. rewrite existsb_app. apply orb_false_iff. Qed.

Lemma no_space_toLowerCase (s : str) : no_space s -> no_space (toLowerCase s).
Proof.
  unfold no_space, toLowerCase. induction s as [|a s IH]; simpl; [auto|].
  rewrite is_space_lower. intros H. apply orb_false_iff in H as [-> H]. simpl. auto.
Qed.

Lemma starts_with_app (p s : str) :
  starts_with p s = true <-> exists rest, s = p ++ rest.
Proof.
  revert s. induction p as [|a p IH]; intros s; simpl.
  - split; [exists s; reflexivity|reflexivity].
  - destruct s as [|b s].
    + split; [discriminate|]. intros [rest H]. discriminate.
    + rewrite andb_true_iff, Char_eqb_eq, IH. split.
      * intros [-> [rest ->]]. exists rest. reflexivity.
      * intros [rest H]. inversion H; subst. split; [reflexivity|eauto].
Qed.

Lemma starts_with_skipn (p s : str) :
  starts_with p s = true -> s = p ++ skipn (length p) s.
Proof.
  intros H. apply starts_with_app in H as [rest ->].
  rewrite skipn_app_exact. reflexivity.
Qed.

Lemma starts_with_trans (q p s : str) :
  starts_with q p = true -> starts_with p s = true -> starts_with q s = true.
Proof.
  rewrite !starts_with_app. intros [r1 ->] [r2 ->].
  exists (r1 ++ r2). rewrite app_assoc. reflexivity.
Qed.

Lemma starts_with_prefix (p n x : str) :
  starts_with p n = true -> starts_with p (n ++ x) = true.
Proof.
  rewrite !starts_with_app. intros [r ->]. exists (r ++ x). rewrite app_assoc. reflexivity.
Qed.

Lemma includes_spec (pat s : str) :
  includes pat s = true <-> exists pre post, s = pre ++ pat ++ post.
Proof.
  induction s as [|a s IH]; simpl.
  - rewrite orb_false_r, starts_with_app. split.
    + intros [rest H]. exists [], rest. exact H.
    + intros (pre & post & H). symmetry in H.
      apply app_eq_nil in H as [-> H]. exists post. symmetry. exact H.
  - rewrite orb_true_iff, starts_with_app, IH. split.
    + intros [[rest H]|(pre & post & H)].
      * exists [], rest. exact H.
      * exists (a :: pre), post. simpl. f_equal. exact H.
    + intros (pre & post & H). destruct pre as [|b pre]; simpl in H.
      * left. exists post. exact H.
      * inversion H; subst. right. exists pre, post. reflexivity.
Qed.

Lemma includes_false_app (pat s t : str) :
  includes pat (s ++ t) = false -> includes pat s = false /\ includes pat t = false.
Proof.
  intros H. split.
  - destruct (includes pat s) eqn:E; [|reflexivity].
    apply includes_spec in E as (pre & post & ->).
    assert (includes pat ((pre ++ pat ++ post) ++ t) = true).
    { apply includes_spec. exists pre, (post ++ t). rewrite <- !app_assoc. reflexivity. }
    congruence.
  - destruct (includes pat t) eqn:E; [|reflexivity].
    apply includes_spec in E as (pre & post & ->).
    assert (includes pat (s ++ pre ++ pat ++ post) = true).
    { apply includes_spec. exists (s ++ pre), post. rewrite <- !app_assoc. reflexivity. }
    congruence.
Qed.

(** [replace_str] leaves a text without the pattern as it is. *)
Lemma replace_str_absent (q pat rep s : str) :
  starts_with q pat = true -> includes q s = false -> replace_str pat rep s = s.
Proof.
  intros Hq. induction s as [|a s IH]; simpl; intros H.
  - destruct (starts_with pat []) eqn:E; [|reflexivity].
    rewrite (starts_with_trans _ _ _ Hq E) in H. discriminate.
  - apply orb_false_iff in H as [H1 H2].
    destruct (starts_with pat (a :: s)) eqn:E.
    + rewrite (starts_with_trans _ _ _ Hq E) in H1. discriminate.
    + f_equal. apply IH. exact H2.
Qed.

(** When the start [q] of the pattern occurs at the start of the text at
    most, the replacement happens there or not at all. *)
Lemma replace_str_at_start (q pat rep s : str) :
  starts_with q pat = true -> includes q (tl s) = false ->
  replace_str pat rep s =
  if starts_with pat s then rep ++ skipn (length pat) s else s.
Proof.
  intros Hq H. destruct s as [|a s]; simpl in *.
  - destruct (starts_with pat []); reflexivity.
  - destruct (starts_with pat (a :: s)); [reflexivity|].
    f_equal. eapply replace_str_absent; eassumption.
Qed.

Lemma str_eqb_eq (s t : str) : str_eqb s t = true <-> s = t.
Proof.
  revert t. induction s as [|a s IH]; intros [|b t]; simpl; split; try congruence.
  - intros H. apply andb_true_iff in H as [H1 H2].
    apply Char_eqb_eq in H1. apply IH in H2. congruence.
  - intros H. inversion H; subst. rewrite Char_eqb_refl. apply IH. reflexivity.
Qed.

Lemma nonempty_length (s : str) : 1 <= length s <-> s <> [].
Proof. destruct s; simpl; split; intros; try lia; congruence. Qed.

(** Two ways to cut one text. *)
Lemma app_eq_cases (a b c d : str) :
  a ++ b = c ++ d ->
  (exists x, c = a ++ x /\ b = x ++ d) \/ (exists x, x <> [] /\ a = c ++ x /\ d = x ++ b).
Proof.
  revert c. induction a as [|h a IH]; intros c H; simpl in H.
  - left. exists c. split; [reflexivity|exact H].
  - destruct c as [|k c]; simpl in H.
    + right. exists (h :: a). split; [discriminate|]. split; [reflexivity|]. symmetry. exact H.
    + inversion H; subst. destruct (IH c H2) as [(x & -> & ->)|(x & Hx & -> & ->)].
      * left. exists x. split; reflexivity.
      * right. exists x. split; [exact Hx|]. split; reflexivity.
Qed.

Lemma starts_with_short (p a b : str) :
  starts_with p (a ++ b) = true -> length p <= length a -> starts_with p a = true.
Proof.
  revert a. induction p as [|h p IH]; intros a H Hlen; [reflexivity|].
  destruct a as [|k a]; [simpl in Hlen; lia|].
  simpl in *. apply andb_true_iff in H as [-> H]. simpl. apply IH; [exact H|lia].
Qed.

Lemma forallb_app_inv {A : Type} (p : A -> bool) (x : list A) (a : A) (y : list A) :
  forallb p (x ++ a :: y) = true -> p a = true.
Proof.
  rewrite forallb_app. simpl. intros H.
  apply andb_true_iff in H as [_ H]. apply andb_true_iff in H as [H _]. exact H.
Qed.

Lemma find_first_true {A : Type} (f : A -> bool) (before : list A) (x : A) (after : list A) :
  Forall (fun y => f y = false) before -> f x = true ->
  find f (before ++ x :: after) = Some x.
Proof.
  intros Hb Hx. induction Hb as [|y before Hy _ IH]; simpl.
  - rewrite Hx. reflexivity.
  - rewrite Hy. exact IH.
Qed.

Lemma find_all_false {A : Type} (f : A -> bool) (l : list A) :
  Forall (fun y => f y = false) l -> find f l = None.
Proof.
  induction 1 as [|y l Hy _ IH]; simpl; [reflexivity|]. rewrite Hy. exact IH.
Qed.

(** *** Trailing slashes *)

Lemma strip_slashes_parts (s : str) :
  exists sl, s = strip_slashes s ++ sl /\ forallb (Char.exactly "/") sl = true.
Proof.
  induction s as [|a s (sl & IH & Hsl)]; cbn [strip_slashes].
  - exists []. split; reflexivity.
  - destruct (forallb (Char.exactly "/") (a :: s)) eqn:E.
    + exists (a :: s). split; [reflexivity|exact E].
    + exists sl. split; [simpl; f_equal; exact IH|exact Hsl].
Qed.

Lemma strip_slashes_no_slash (s : str) : ends_with_slash (strip_slashes s) = false.
Proof.
  induction s as [|a s IH]; cbn [strip_slashes]; [reflexivity|].
  destruct (forallb (Char.exactly "/") (a :: s)) eqn:E; [reflexivity|].
  unfold ends_with_slash in *. simpl rev.
  destruct (rev (strip_slashes s)) as [|b l] eqn:Er.
  - simpl. apply (f_equal (@rev ascii)) in Er. rewrite rev_involutive in Er. simpl in Er.
    destruct (strip_slashes_parts s) as (sl & Hs & Hsl). rewrite Er in Hs. simpl in Hs. subst sl.
    simpl in E. rewrite Hsl, andb_true_r in E. unfold Char.exactly in E. exact E.
  - simpl. exact IH.
Qed.

Lemma strip_slashes_fixed (s : str) : ends_with_slash s = false -> strip_slashes s = s.
Proof.
  induction s as [|a s IH]; intros H; cbn [strip_slashes]; [reflexivity|].
  destruct (forallb (Char.exactly "/") (a :: s)) eqn:E.
  - exfalso. unfold ends_with_slash in H.
    destruct (rev (a :: s)) as [|b l] eqn:Er.
    + apply (f_equal (@rev ascii)) in Er. rewrite rev_involutive in Er. discriminate.
    + assert (Hb : In b (a :: s)) by (apply in_rev; rewrite Er; left; reflexivity).
      rewrite forallb_forall in E. specialize (E b Hb). unfold Char.exactly in E. congruence.
  - f_equal. apply IH. unfold ends_with_slash in *. simpl rev in H.
    destruct (rev s) as [|b l] eqn:Er; [reflexivity|]. simpl in H. exact H.
Qed.

Lemma ms_trailing_slashes (s : str) :
  ms Re.trailing_slashes s [] <> [] <->
  s <> [] /\ forallb (Char.exactly "/") s = true.
Proof.
  split.
  - intros H. destruct (ms Re.trailing_slashes s []) as [|[s' c'] l] eqn:E; [congruence|].
    assert (Hin : In (s', c') (ms Re.trailing_slashes s [])) by (rewrite E; left; reflexivity).
    apply ms_sound in Hin as (t & -> & M). unfold Re.trailing_slashes, many1 in M.
    apply Matches_Rep_cat in M as (u & t' & -> & Hu & Hlen & _ & M).
    apply Matches_Eoi_inv in M as (-> & -> & _). rewrite !app_nil_r.
    split; [|exact Hu]. destruct u; [simpl in Hlen; lia|discriminate].
  - intros [Hne Hall] E.
    assert (M : Matches Re.trailing_slashes s [] [] []).
    { unfold Re.trailing_slashes, many1. apply Matches_Rep_cat.
      exists s, []. rewrite app_nil_r. repeat split; try assumption.
      - destruct s; [congruence|simpl; lia].
      - constructor. }
    apply ms_complete in M. rewrite app_nil_r, E in M. destruct M.
Qed.

Lemma search_trailing_slashes (s : str) : forall idx,
  match search Re.trailing_slashes s idx with
  | Some m => m_index m = idx + length (strip_slashes s) /\ m_rest m = []
  | None => strip_slashes s = s
  end.
Proof.
  induction s as [|a s IH]; intros idx.
  - simpl. split.
  - cbn [search strip_slashes].
    destruct (ms Re.trailing_slashes (a :: s) []) as [|[rest c] l] eqn:E.
    + destruct (forallb (Char.exactly "/") (a :: s)) eqn:Ea.
      * exfalso. assert (H : ms Re.trailing_slashes (a :: s) [] <> []).
        { apply ms_trailing_slashes. split; [discriminate|exact Ea]. }
        congruence.
      * specialize (IH (S idx)). destruct (search Re.trailing_slashes s (S idx)) as [m|].
        -- destruct IH as [Hi Hr]. split; [simpl; lia|exact Hr].
        -- f_equal. exact IH.
    + assert (H : ms Re.trailing_slashes (a :: s) [] <> []) by (rewrite E; discriminate).
      apply ms_trailing_slashes in H as [_ Hall]. rewrite Hall.
      cbn [m_index m_rest]. 
      assert (Hin : In (rest, c) (ms Re.trailing_slashes (a :: s) [])) by (rewrite E; left; reflexivity).
      apply ms_sound in Hin as (t & Ht & M). unfold Re.trailing_slashes, many1 in M.
      apply Matches_Rep_cat in M as (u & t' & -> & _ & _ & _ & M).
      apply Matches_Eoi_inv in M as (_ & -> & _). simpl. split; [lia|reflexivity].
Qed.

(** Replacing the pattern of trailing slashes by nothing strips them. *)
Lemma replace_trailing_slashes (s : str) :
  replace_re Re.trailing_slashes [] s = strip_slashes s.
Proof.
  unfold replace_re. rewrite match_re_search.
  pose proof (search_trailing_slashes s 0) as H.
  destruct (search Re.trailing_slashes s 0) as [m|].
  - destruct H as [Hi Hr]. rewrite Hr, Hi. simpl. rewrite app_nil_r.
    destruct (strip_slashes_parts s) as (sl & Hs & _). rewrite Hs at 2.
    rewrite firstn_app, Nat.sub_diag, firstn_all. simpl. apply app_nil_r.
  - symmetry. exact H.
Qed.

(** ** [normalizeLinkedinUrl] *)

Lemma normalize_unfold (u : str) :
  normalizeLinkedinUrl u =
  strip_slashes
    (replace_str "http://linkedin.com" linkedin_https
      (replace_str "http://www.linkedin.com" linkedin_https
        (replace_str "https://www.linkedin.com" linkedin_https
          (trim (toLowerCase u))))).
Proof.
  unfold normalizeLinkedinUrl. rewrite replace_trailing_slashes. reflexivity.
Qed.

Lemma replace_str_parts (pat rep s : str) :
  replace_str pat rep s = s \/
  exists a b, s = a ++ pat ++ b /\ replace_str pat rep s = a ++ rep ++ b.
Proof.
  induction s as [|c s IH]; cbn [replace_str].
  - destruct (starts_with pat []) eqn:E; [|left; reflexivity].
    right. exists [], (skipn (length pat) []). split; [|reflexivity].
    apply starts_with_skipn. exact E.
  - destruct (starts_with pat (c :: s)) eqn:E.
    + right. exists [], (skipn (length pat) (c :: s)). split; [|reflexivity].
      apply starts_with_skipn. exact E.
    + destruct IH as [IH|(a & b & Hs & IH)].
      * left. f_equal. exact IH.
      * right. exists (c :: a), b. split; simpl; f_equal; assumption.
Qed.

Lemma replace_str_lowercase (pat rep s : str) :
  lowercase rep -> lowercase s -> lowercase (replace_str pat rep s).
Proof.
  intros Hr Hs. destruct (replace_str_parts pat rep s) as [->|(a & b & E & ->)]; [exact Hs|].
  rewrite E in Hs. apply lowercase_app in Hs as [Ha Hb].
  apply lowercase_app in Hb as [_ Hb].
  apply lowercase_app. split; [exact Ha|]. apply lowercase_app. split; assumption.
Qed.

Lemma trim_lowercase (s : str) : lowercase s -> lowercase (trim s).
Proof.
  intros H. destruct (trim_parts s) as (w1 & w2 & E). rewrite E in H.
  apply lowercase_app in H as [_ H]. apply lowercase_app in H as [H _]. exact H.
Qed.

Lemma strip_slashes_lowercase (s : str) : lowercase s -> lowercase (strip_slashes s).
Proof.
  intros H. destruct (strip_slashes_parts s) as (sl & E & _). rewrite E in H.
  apply lowercase_app in H as [H _]. exact H.
Qed.

Lemma normalize_lowercase (u : str) : lowercase (normalizeLinkedinUrl u).
Proof.
  rewrite normalize_unfold. apply strip_slashes_lowercase.
  repeat apply replace_str_lowercase; try reflexivity.
  apply trim_lowercase, lowercase_toLowerCase.
Qed.

Lemma normalize_no_trailing_slash (u : str) :
  ends_with_slash (normalizeLinkedinUrl u) = false.
Proof. rewrite normalize_unfold. apply strip_slashes_no_slash. Qed.

(** The text after the host is rewritten, the host stays. *)
Lemma replace_after_https (pat s : str) :
  In pat [ "https://www.linkedin.com" : str; "http://www.linkedin.com" : str;
           "http://linkedin.com" : str ] ->
  replace_str pat linkedin_https (linkedin_https ++ s) =
  linkedin_https ++ replace_str pat linkedin_https s.
Proof.
  intros [<-|[<-|[<-|[]]]]; reflexivity.
Qed.

Lemma strip_after_https (s : str) :
  strip_slashes (linkedin_https ++ s) = linkedin_https ++ strip_slashes s.
Proof. reflexivity. Qed.

Lemma normalize_host (u rest : str) (p : str) :
  In p linkedin_prefixes ->
  trim (toLowerCase u) = p ++ rest ->
  exists rest', normalizeLinkedinUrl u = linkedin_https ++ rest'.
Proof.
  intros Hp Hu. rewrite normalize_unfold, Hu.
  destruct Hp as [<-|[<-|[<-|[<-|[]]]]].
  - eexists.
    change (replace_str "https://www.linkedin.com" linkedin_https
              (("https://www.linkedin.com" : str) ++ rest))
      with (linkedin_https ++ rest).
    rewrite !replace_after_https by (simpl; auto).
    rewrite strip_after_https. reflexivity.
  - eexists.
    change (replace_str "https://www.linkedin.com" linkedin_https
              (("http://www.linkedin.com" : str) ++ rest))
      with (("http://www.linkedin.com" : str) ++
            replace_str "https://www.linkedin.com" linkedin_https rest).
    set (rest1 := replace_str "https://www.linkedin.com" linkedin_https rest).
    change (replace_str "http://www.linkedin.com" linkedin_https
              (("http://www.linkedin.com" : str) ++ rest1))
      with (linkedin_https ++ rest1).
    rewrite !replace_after_https by (simpl; auto).
    rewrite strip_after_https. reflexivity.
  - eexists.
    change (replace_str "https://www.linkedin.com" linkedin_https
              (("http://linkedin.com" : str) ++ rest))
      with (("http://linkedin.com" : str) ++
            replace_str "https://www.linkedin.com" linkedin_https rest).
    set (rest1 := replace_str "https://www.linkedin.com" linkedin_https rest).
    change (replace_str "http://www.linkedin.com" linkedin_https
              (("http://linkedin.com" : str) ++ rest1))
      with (("http://linkedin.com" : str) ++
            replace_str "http://www.linkedin.com" linkedin_https rest1).
    set (rest2 := replace_str "http://www.linkedin.com" linkedin_https rest1).
    change (replace_str "http://linkedin.com" linkedin_https
              (("http://linkedin.com" : str) ++ rest2))
      with (linkedin_https ++ rest2).
    rewrite strip_after_https. reflexivity.
  - eexists.
    change (("https://linkedin.com" : str) ++ rest) with (linkedin_https ++ rest).
    rewrite !replace_after_https by (simpl; auto).
    rewrite strip_after_https. reflexivity.
Qed.

(** A text the function leaves as it is. *)
Lemma normalize_fixed (n : str) :
  no_space n -> lowercase n -> includes "http" (tl n) = false ->
  starts_with "https://www.linkedin.com" n = false ->
  starts_with "http://www.linkedin.com" n = false ->
  starts_with "http://linkedin.com" n = false ->
  ends_with_slash n = false ->
  normalizeLinkedinUrl n = n.
Proof.
  intros Hsp Hlow Hhttp H1 H2 H3 Hsl.
  rewrite normalize_unfold, Hlow, (trim_no_space n Hsp).
  rewrite (replace_str_at_start "http" "https://www.linkedin.com") by (reflexivity || assumption).
  rewrite H1.
  rewrite (replace_str_at_start "http" "http://www.linkedin.com") by (reflexivity || assumption).
  rewrite H2.
  rewrite (replace_str_at_start "http" "http://linkedin.com") by (reflexivity || assumption).
  rewrite H3.
  apply strip_slashes_fixed. exact Hsl.
Qed.

Lemma strip_slashes_no_space (s : str) : no_space s -> no_space (strip_slashes s).
Proof.
  intros H. destruct (strip_slashes_parts s) as (sl & E & _). rewrite E in H.
  apply no_space_app in H as [H _]. exact H.
Qed.

Lemma strip_slashes_includes (pat s : str) :
  includes pat s = false -> includes pat (strip_slashes s) = false.
Proof.
  intros H. destruct (strip_slashes_parts s) as (sl & E & _). rewrite E in H.
  apply includes_false_app in H as [H _]. exact H.
Qed.

(** After the host, a text without ["http"] is left alone by the three
    replacements. *)
Lemma normalize_after_host (rest : str) :
  no_space rest -> lowercase rest -> includes "http" rest = false ->
  let n := linkedin_https ++ strip_slashes rest in
  normalizeLinkedinUrl n = n.
Proof.
  intros Hsp Hlow Hhttp n. apply normalize_fixed.
  - apply no_space_app. split; [reflexivity|]. apply strip_slashes_no_space, Hsp.
  - apply lowercase_app. split; [reflexivity|]. apply strip_slashes_lowercase, Hlow.
  - change (includes "http" (strip_slashes rest) = false).
    apply strip_slashes_includes, Hhttp.
  - reflexivity.
  - reflexivity.
  - reflexivity.
  - unfold n. rewrite <- strip_after_https. apply strip_slashes_no_slash.
Qed.

Lemma normalize_no_host (v : str) :
  no_space v -> lowercase v -> includes "http" (tl v) = false ->
  starts_with "https://www.linkedin.com" v = false ->
  starts_with "http://www.linkedin.com" v = false ->
  starts_with "http://linkedin.com" v = false ->
  normalizeLinkedinUrl (strip_slashes v) = strip_slashes v.
Proof.
  intros Hsp Hlow Hhttp H1 H2 H3.
  destruct (strip_slashes_parts v) as (sl & E & _).
  assert (Hpre : forall p, starts_with p v = false -> starts_with p (strip_slashes v) = false).
  { intros p Hp. destruct (starts_with p (strip_slashes v)) eqn:Es; [|reflexivity].
    apply (starts_with_prefix _ _ sl) in Es. rewrite <- E in Es. congruence. }
  apply normalize_fixed; auto.
  - apply strip_slashes_no_space, Hsp.
  - apply strip_slashes_lowercase, Hlow.
  - destruct (strip_slashes v) as [|a n] eqn:En; [reflexivity|].
    rewrite E in Hhttp. simpl in Hhttp. simpl.
    apply includes_false_app in Hhttp as [H _]. exact H.
  - apply strip_slashes_no_slash.
Qed.

Lemma plain_url_lower (u : str) :
  plain_url u = true ->
  let v := toLowerCase u in
  no_space v /\ lowercase v /\ includes "http" (tl v) = false /\ trim v = v.
Proof.
  unfold plain_url. intros H. apply andb_true_iff in H as [H1 H2].
  apply negb_true_iff in H1, H2.
  assert (Hsp : no_space (toLowerCase u)) by (apply no_space_toLowerCase, H1).
  repeat split; try assumption.
  - apply lowercase_toLowerCase.
  - apply trim_no_space, Hsp.
Qed.

(** What the function returns on a text without white space in which
    ["http"] occurs at the start at most. *)
Lemma normalize_plain (u : str) :
  plain_url u = true ->
  normalizeLinkedinUrl (normalizeLinkedinUrl u) = normalizeLinkedinUrl u.
Proof.
  intros Hu. destruct (plain_url_lower u Hu) as (Hsp & Hlow & Hhttp & Htrim).
  set (v := toLowerCase u) in *.
  assert (Hrest : forall p, starts_with "http" p = true -> p <> [] ->
            starts_with p v = true ->
            let rest := skipn (length p) v in
            v = p ++ rest /\ no_space rest /\ lowercase rest /\
            includes "http" rest = false).
  { intros p Hp Hne Hv rest. pose proof (starts_with_skipn _ _ Hv) as E. fold rest in E.
    split; [exact E|]. rewrite E in Hsp, Hlow, Hhttp.
    apply no_space_app in Hsp as [_ Hsp]. apply lowercase_app in Hlow as [_ Hlow].
    repeat split; try assumption.
    destruct p as [|a p]; [congruence|]. simpl in Hhttp.
    apply includes_false_app in Hhttp as [_ H]. exact H. }
  assert (Habs : forall pat rest, starts_with "http" pat = true ->
            includes "http" rest = false ->
            replace_str pat linkedin_https rest = rest).
  { intros pat rest Hp Hr. eapply replace_str_absent; eassumption. }
  rewrite (normalize_unfold u). fold v. rewrite Htrim.
  rewrite (replace_str_at_start "http" "https://www.linkedin.com" linkedin_https v)
    by (reflexivity || assumption).
  destruct (starts_with "https://www.linkedin.com" v) eqn:E1.
  { destruct (Hrest ("https://www.linkedin.com" : str) eq_refl ltac:(discriminate) E1) as (_ & Hs & Hl & Hh).
    rewrite !replace_after_https by (simpl; auto).
    rewrite ?(Habs ("http://www.linkedin.com" : str) _ eq_refl Hh),
            ?(Habs ("http://linkedin.com" : str) _ eq_refl Hh).
    rewrite strip_after_https. apply normalize_after_host; assumption. }
  rewrite (replace_str_at_start "http" "http://www.linkedin.com" linkedin_https v)
    by (reflexivity || assumption).
  destruct (starts_with "http://www.linkedin.com" v) eqn:E2.
  { destruct (Hrest ("http://www.linkedin.com" : str) eq_refl ltac:(discriminate) E2) as (_ & Hs & Hl & Hh).
    rewrite !replace_after_https by (simpl; auto).
    rewrite ?(Habs ("http://www.linkedin.com" : str) _ eq_refl Hh),
            ?(Habs ("http://linkedin.com" : str) _ eq_refl Hh).
    rewrite strip_after_https. apply normalize_after_host; assumption. }
  rewrite (replace_str_at_start "http" "http://linkedin.com" linkedin_https v)
    by (reflexivity || assumption).
  destruct (starts_with "http://linkedin.com" v) eqn:E3.
  { destruct (Hrest ("http://linkedin.com" : str) eq_refl ltac:(discriminate) E3) as (_ & Hs & Hl & Hh).
    rewrite strip_after_https. apply normalize_after_host; assumption. }
  apply normalize_no_host; assumption.
Qed.

(** C8, where the claim fails: the scheme and the ["www."] of a host other
    than [linkedin.com] stay. *)
Lemma normalize_other_host_counterexample :
  starts_with "https://" (normalizeLinkedinUrl uk_url) = false /\
  normalizeLinkedinUrl www_url = ("https://www.example.com" : str).
Proof. split; vm_compute; reflexivity. Qed.

(** C8, amended.  The normalised form of every URL is in lower case and
    does not end in a slash; when the URL, in lower case and trimmed, starts
    with [http://] or [https://], then [www.] or not, then [linkedin.com],
    its normalised form starts with [https://linkedin.com]. *)
Theorem normalize_shape (u : str) :
  lowercase (normalizeLinkedinUrl u) /\
  ends_with_slash (normalizeLinkedinUrl u) = false /\
  (forall p rest, In p linkedin_prefixes -> trim (toLowerCase u) = p ++ rest ->
     exists rest', normalizeLinkedinUrl u = linkedin_https ++ rest').
Proof.
  split; [apply normalize_lowercase|]. split; [apply normalize_no_trailing_slash|].
  intros p rest Hp Hu. eapply normalize_host; eassumption.
Qed.

Lemma normalize_shape_witness :
  exists rest', normalizeLinkedinUrl jane_mixed = linkedin_https ++ rest'.
Proof.
  apply (proj2 (proj2 (normalize_shape jane_mixed))
           ("https://www.linkedin.com" : str) ("/in/jane-doe-12345/" : str)).
  - left. reflexivity.
  - reflexivity.
Defined.

Example normalize_not_idempotent :
  let u : str := "http://linkedin.com/in/jane?next=http://linkedin.com/in/joe" in
  normalizeLinkedinUrl u =
    ("https://linkedin.com/in/jane?next=http://linkedin.com/in/joe" : str) /\
  normalizeLinkedinUrl (normalizeLinkedinUrl u) =
    ("https://linkedin.com/in/jane?next=https://linkedin.com/in/joe" : str).
Proof. vm_compute. split; reflexivity. Qed.

(** C7, where the claim fails: a URL that carries another one. *)
Lemma normalize_idempotent_counterexample :
  normalizeLinkedinUrl (normalizeLinkedinUrl nested_url) <>
  normalizeLinkedinUrl nested_url.
Proof. vm_compute. discriminate. Qed.

(** C7, amended.  Normalising twice gives what normalising once gives, for
    every URL without white space in which ["http"], in any case, occurs at
    the start at most; and the two URLs of the example normalise to the
    third. *)
Theorem normalize_idempotent_plain :
  (forall u : str, plain_url u = true ->
     normalizeLinkedinUrl (normalizeLinkedinUrl u) = normalizeLinkedinUrl u) /\
  normalizeLinkedinUrl jane_mixed = jane_normal /\
  normalizeLinkedinUrl jane_http = jane_normal.
Proof.
  split; [exact normalize_plain|]. split; vm_compute; reflexivity.
Qed.

Lemma normalize_idempotent_plain_witness :
  normalizeLinkedinUrl (normalizeLinkedinUrl jane_mixed) =
  normalizeLinkedinUrl jane_mixed.
Proof.
  apply (proj1 normalize_idempotent_plain). reflexivity.
Defined.

(** ** Replacing every match *)

Lemma ms_nil_min_len (r : regex) (c : caps) : 1 <= min_len r -> ms r [] c = [].
Proof.
  intros H. destruct (ms r [] c) as [|[rest c'] l] eqn:E; [reflexivity|].
  exfalso. assert (Hin : In (rest, c') (ms r [] c)) by (rewrite E; left; reflexivity).
  apply ms_sound in Hin as (t & Ht & M). apply Matches_min_len in M.
  symmetry in Ht. apply app_eq_nil in Ht as [-> _]. simpl in M. lia.
Qed.

Lemma replace_all_from_skip (r : regex) (rep : str) :
  forall k s, k <= length s ->
  replace_all_from r rep s k = replace_all_from r rep (skipn k s) 0.
Proof.
  induction k as [|k IH]; intros s Hk; [reflexivity|].
  destruct s as [|a s']; [simpl in Hk; lia|].
  simpl in Hk. cbn [replace_all_from skipn]. apply IH. lia.
Qed.

Lemma replace_all_nil (r : regex) (rep : str) :
  1 <= min_len r -> replace_all r rep [] = [].
Proof.
  intros H. unfold replace_all. cbn [replace_all_from].
  rewrite ms_nil_min_len by exact H. reflexivity.
Qed.

(** One step of a global replacement, for a pattern that matches no empty
    text: at a match the replacement is put and the search goes on after the
    match; elsewhere the character is kept. *)
Lemma replace_all_cons (r : regex) (rep : str) (a : ascii) (s' : str) :
  1 <= min_len r ->
  replace_all r rep (a :: s') =
  match ms r (a :: s') [] with
  | (rest, _) :: _ => rep ++ replace_all r rep rest
  | [] => a :: replace_all r rep s'
  end.
Proof.
  intros Hmin. unfold replace_all. cbn [replace_all_from].
  destruct (ms r (a :: s') []) as [|[rest c] l] eqn:E; [reflexivity|].
  assert (Hin : In (rest, c) (ms r (a :: s') [])) by (rewrite E; left; reflexivity).
  apply ms_sound in Hin as (t & Ht & M). apply Matches_min_len in M.
  assert (Hlen : length (a :: s') = length t + length rest)
    by (rewrite Ht, length_app; reflexivity).
  destruct t as [|b t]; [simpl in M; lia|].
  simpl in Ht. inversion Ht; subst b s'. clear Ht.
  replace (length (a :: t ++ rest) - length rest) with (S (length t))
    by (simpl; rewrite length_app; lia).
  f_equal. rewrite replace_all_from_skip by (rewrite length_app; lia).
  rewrite skipn_app_exact. reflexivity.
Qed.

(** The first match at a position, read as a split of the text. *)
Lemma ms_head (r : regex) (s rest : str) (c : caps) (l : list (str * caps)) :
  ms r s [] = (rest, c) :: l ->
  exists t, s = t ++ rest /\ Matches r t rest [] c.
Proof.
  intros E. apply ms_sound. rewrite E. left. reflexivity.
Qed.

Lemma replace_all_ind (r : regex) (rep : str) (P : str -> str -> Prop) :
  1 <= min_len r ->
  P [] [] ->
  (forall a s', ms r (a :: s') [] = [] ->
     P s' (replace_all r rep s') -> P (a :: s') (a :: replace_all r rep s')) ->
  (forall t rest c, t <> [] -> Matches r t rest [] c ->
     (exists l, ms r (t ++ rest) [] = (rest, c) :: l) ->
     P rest (replace_all r rep rest) -> P (t ++ rest) (rep ++ replace_all r rep rest)) ->
  forall s, P s (replace_all r rep s).
Proof.
  intros Hmin Hnil Hkeep Hrep s.
  remember (length s) as n eqn:Hn. revert s Hn.
  induction n as [n IH] using lt_wf_ind. intros s Hn.
  destruct s as [|a s'].
  - rewrite replace_all_nil by exact Hmin. exact Hnil.
  - rewrite replace_all_cons by exact Hmin.
    destruct (ms r (a :: s') []) as [|[rest c] l] eqn:E.
    + apply Hkeep; [exact E|]. apply (IH (length s')); [simpl in Hn; lia|reflexivity].
    + destruct (ms_head _ _ _ _ _ E) as (t & Ht & M).
      pose proof (Matches_min_len _ _ _ _ _ M) as Hlen.
      rewrite Ht. apply (Hrep t rest c);
        [destruct t; [simpl in Hlen; lia|discriminate]|exact M
        |exists l; rewrite <- Ht; exact E|].
      apply (IH (length rest)); [|reflexivity].
      rewrite Hn, Ht, length_app. lia.
Qed.

(** A global replacement leaves a text without a match as it is. *)
Lemma replace_all_absent (r : regex) (rep s : str) :
  1 <= min_len r -> ~ Occurs r s -> replace_all r rep s = s.
Proof.
  intros Hmin. revert s.
  apply (replace_all_ind r rep (fun s out => ~ Occurs r s -> out = s) Hmin).
  - reflexivity.
  - intros a s' _ IH Hno. f_equal. apply IH.
    intros (pre & t & rest & c & Hs & M). apply Hno.
    exists (a :: pre), t, rest, c. split; [rewrite Hs; reflexivity|exact M].
  - intros t rest c _ M _ _ Hno. exfalso. apply Hno.
    exists [], t, rest, c. split; [reflexivity|exact M].
Qed.

(** A global replacement by a text no longer than the least match gives a
    text no longer than the one it is given. *)
Lemma replace_all_length (r : regex) (rep s : str) :
  1 <= min_len r -> length rep <= min_len r ->
  length (replace_all r rep s) <= length s.
Proof.
  intros Hmin Hrep. revert s.
  apply (replace_all_ind r rep (fun s out => length out <= length s) Hmin).
  - simpl. lia.
  - intros a s' _ IH. simpl. lia.
  - intros t rest c _ M _ IH. apply Matches_min_len in M.
    rewrite !length_app. lia.
Qed.

Lemma replace_all_nonempty (r : regex) (rep s : str) :
  1 <= min_len r -> rep <> [] -> s <> [] -> replace_all r rep s <> [].
Proof.
  intros Hmin Hrep. revert s.
  apply (replace_all_ind r rep (fun s out => s <> [] -> out <> []) Hmin).
  - congruence.
  - discriminate.
  - intros t rest c _ _ _ _ _. destruct rep; [congruence|discriminate].
Qed.

(** ** [decodeHtmlEntities] *)

Lemma decodeHtmlEntities_fold (s : str) :
  decodeHtmlEntities s =
  fold_left (fun acc e => replace_all (fst e) (snd e) acc) entity_table s.
Proof. reflexivity. Qed.

Lemma entity_table_sizes :
  Forall (fun e => 1 <= min_len (fst e) /\ length (snd e) <= min_len (fst e) /\
                   snd e <> []) entity_table.
Proof. repeat constructor; simpl; try lia; discriminate. Qed.

Lemma entity_starts_with_ampersand :
  Forall (fun e => forall t rest c c', Matches (fst e) t rest c c' ->
                   exists t', t = "&"%char :: t') entity_table.
Proof.
  repeat constructor; cbn [fst]; intros t rest c c' M;
    try (apply Matches_lit in M as [-> _]; eexists; reflexivity);
    unfold Re.hex_entity in M; apply Matches_lit_cat in M as (t' & -> & _);
    eexists; reflexivity.
Qed.

Lemma without_app (cs s t : str) : without cs (s ++ t) <-> without cs s /\ without cs t.
Proof. unfold without. rewrite forallb_app, andb_true_iff. reflexivity. Qed.

Lemma decode_fold_length (tbl : list (regex * str)) :
  Forall (fun e => 1 <= min_len (fst e) /\ length (snd e) <= min_len (fst e) /\
                   snd e <> []) tbl ->
  forall s,
    length (fold_left (fun acc e => replace_all (fst e) (snd e) acc) tbl s) <= length s /\
    (s <> [] -> fold_left (fun acc e => replace_all (fst e) (snd e) acc) tbl s <> []).
Proof.
  induction 1 as [|e tbl (Hmin & Hrep & Hne) _ IH]; intros s.
  - simpl. split; [lia|auto].
  - cbn [fold_left]. destruct (IH (replace_all (fst e) (snd e) s)) as [Hl Hn]. split.
    + pose proof (replace_all_length (fst e) (snd e) s Hmin Hrep). lia.
    + intros Hs. apply Hn. apply replace_all_nonempty; assumption.
Qed.

Lemma decode_fold_absent (tbl : list (regex * str)) (s : str) :
  Forall (fun e => 1 <= min_len (fst e) /\ length (snd e) <= min_len (fst e) /\
                   snd e <> []) tbl ->
  Forall (fun e => forall t rest c c', Matches (fst e) t rest c c' ->
                   exists t', t = "&"%char :: t') tbl ->
  without "&" s ->
  fold_left (fun acc e => replace_all (fst e) (snd e) acc) tbl s = s.
Proof.
  intros Hsz Hamp Hs. induction tbl as [|e tbl IH]; [reflexivity|].
  inversion Hsz as [|? ? (Hmin & _) Hsz']; subst.
  inversion Hamp as [|? ? He Hamp']; subst.
  cbn [fold_left]. rewrite replace_all_absent; [apply IH; assumption|exact Hmin|].
  intros (pre & t & rest & c & Heq & M).
  destruct (He _ _ _ _ M) as [t' ->]. rewrite Heq in Hs.
  apply without_app in Hs as [_ Hs]. apply without_app in Hs as [Hs _].
  unfold without in Hs. simpl in Hs. discriminate.
Qed.

(** X1.  [decodeHtmlEntities] leaves a text without an ampersand as it
    is. *)
Theorem decode_plain_text (s : str) :
  without "&" s -> decodeHtmlEntities s = s.
Proof.
  intros H. rewrite decodeHtmlEntities_fold.
  apply decode_fold_absent; [apply entity_table_sizes|apply entity_starts_with_ampersand|exact H].
Qed.

Lemma decode_plain_text_witness :
  without "&" plain_token /\ decodeHtmlEntities plain_token = plain_token.
Proof.
  split; [reflexivity|]. apply (decode_plain_text plain_token). reflexivity.
Defined.

Lemma decode_length (s : str) : length (decodeHtmlEntities s) <= length s.
Proof. rewrite decodeHtmlEntities_fold. apply decode_fold_length, entity_table_sizes. Qed.

Lemma decode_nonempty (s : str) : s <> [] -> decodeHtmlEntities s <> [].
Proof. rewrite decodeHtmlEntities_fold. apply decode_fold_length, entity_table_sizes. Qed.

(** X2.  [decodeHtmlEntities] never gives a longer text, and it gives the
    empty text for the empty text only. *)
Theorem decode_never_longer (s : str) :
  length (decodeHtmlEntities s) <= length s /\
  (decodeHtmlEntities s = [] <-> s = []).
Proof.
  split; [apply decode_length|]. split.
  - intros H. destruct s as [|a s]; [reflexivity|].
    destruct (decode_nonempty (a :: s) ltac:(discriminate) H).
  - intros ->. reflexivity.
Qed.

(** ** Decoding in one pass and in two *)

Lemma decode_from_no_table (s : str) : Claimed.decode_from [] s 0 = s.
Proof. induction s as [|a s IH]; simpl; [reflexivity|]. rewrite IH. reflexivity. Qed.

Lemma decode_from_skip (T : list (str * ascii)) (p rest : str) :
  Claimed.decode_from T (p ++ rest) (length p) = Claimed.decode_from T rest 0.
Proof. induction p as [|a p IH]; [reflexivity|]. simpl. exact IH. Qed.

Lemma find_app_cases {A : Type} (f : A -> bool) (l1 l2 : list A) :
  List.find f (l1 ++ l2) =
  match List.find f l1 with Some x => Some x | None => List.find f l2 end.
Proof.
  induction l1 as [|x l1 IH]; [reflexivity|]. simpl. destruct (f x); [reflexivity|exact IH].
Qed.

Lemma entity_at_plain (T : list (str * ascii)) (b : ascii) (s : str) :
  Forall (fun ec => exists e', fst ec = "&"%char :: e') T ->
  Char.eqb b "&" = false -> Claimed.entity_at T (b :: s) = None.
Proof.
  intros HT Hb. unfold Claimed.entity_at. induction HT as [|[e0 c0] T' [e' He] _ IH];
    [reflexivity|].
  cbn [List.find fst] in *. rewrite He. cbn [starts_with].
  destruct (Char.eqb "&" b) eqn:E; [|exact IH].
  apply Char_eqb_eq in E. subst b. rewrite Char_eqb_refl in Hb. discriminate.
Qed.

Section Pass.

Variables (r : regex) (es : list str) (c : ascii) (T : list (str * ascii)).
Hypothesis Hmin : 1 <= min_len r.
Hypothesis Hsound : forall t rest c0 c', Matches r t rest c0 c' -> In t es.
Hypothesis Hcomplete : forall e Y, In e es -> exists c', Matches r e Y [] c'.
Hypothesis Hlen : forall e1 e2, In e1 es -> In e2 es -> length e1 = length e2.
Hypothesis Hes : Forall (fun e => exists e', e = "&"%char :: e' /\
                                  forallb (plain_for T) e' = true) es.
Hypothesis HT : Forall (fun ec => (exists e', fst ec = "&"%char :: e') /\
                                  snd ec <> "&"%char) T.

Lemma decode_plain_prefix (e' rest : str) :
  forallb (plain_for T) e' = true ->
  Claimed.decode_from T (e' ++ rest) 0 = e' ++ Claimed.decode_from T rest 0.
Proof.
  induction e' as [|b e' IH]; intros H; [reflexivity|].
  simpl in H. apply andb_true_iff in H as [Hb H].
  unfold plain_for in Hb. apply andb_true_iff in Hb as [Hb _].
  apply negb_true_iff in Hb.
  change ((b :: e') ++ rest) with (b :: (e' ++ rest)).
  cbn [Claimed.decode_from].
  rewrite (entity_at_plain T b _);
    [|eapply List.Forall_impl; [|exact HT]; intros ? [? _]; assumption|exact Hb].
  rewrite IH by exact H. reflexivity.
Qed.

Lemma entity_at_In (s e0 : str) (c0 : ascii) (T0 : list (str * ascii)) :
  Claimed.entity_at T0 s = Some (e0, c0) -> In (e0, c0) T0 /\ starts_with e0 s = true.
Proof. unfold Claimed.entity_at. intros H. apply List.find_some in H. exact H. Qed.

Lemma prefix_through (e' : str) :
  forallb (plain_for T) e' = true ->
  forall s, starts_with e' (Claimed.decode_from T s 0) = true -> starts_with e' s = true.
Proof.
  induction e' as [|b e' IH]; intros H s Hs; [reflexivity|].
  simpl in H. apply andb_true_iff in H as [Hb H].
  destruct s as [|a s]; [simpl in Hs; discriminate|].
  cbn [Claimed.decode_from] in Hs.
  destruct (Claimed.entity_at T (a :: s)) as [[e0 c0]|] eqn:E.
  - exfalso. apply entity_at_In in E as [Hin _].
    simpl in Hs. apply andb_true_iff in Hs as [Hbc _]. apply Char_eqb_eq in Hbc. subst c0.
    unfold plain_for in Hb. apply andb_true_iff in Hb as [_ Hb].
    apply negb_true_iff in Hb.
    assert (Hex : existsb (Char.eqb b) (map snd T) = true).
    { apply existsb_exists. exists b. split; [|apply Char_eqb_refl].
      apply in_map_iff. exists (e0, b). split; [reflexivity|exact Hin]. }
    congruence.
  - simpl in Hs. apply andb_true_iff in Hs as [Hba Hs].
    simpl. rewrite Hba. simpl. apply IH; assumption.
Qed.

Lemma no_match_at (a : ascii) (X : str) :
  (forall e rest, In e es -> a :: X = e ++ rest -> False) -> ms r (a :: X) [] = [].
Proof.
  intros H. destruct (ms r (a :: X) []) as [|[rest cp] l] eqn:E; [reflexivity|].
  exfalso. destruct (ms_head _ _ _ _ _ E) as (t & Ht & M).
  apply (H t rest); [eapply Hsound, M|exact Ht].
Qed.

Lemma match_at (e X : str) :
  In e es -> exists cp l, ms r (e ++ X) [] = (X, cp) :: l.
Proof.
  intros He. destruct (Hcomplete e X He) as [c' M]. apply ms_complete in M.
  destruct (ms r (e ++ X) []) as [|[rest cp] l] eqn:E; [destruct M|].
  destruct (ms_head _ _ _ _ _ E) as (t & Ht & M').
  assert (Hl : length t = length e) by (apply Hlen; [eapply Hsound, M'|exact He]).
  assert (rest = X).
  { apply (f_equal (skipn (length e))) in Ht. rewrite skipn_app_exact in Ht.
    rewrite <- Hl, skipn_app_exact in Ht. congruence. }
  subst rest. eauto.
Qed.

Lemma one_pass (s : str) :
  forall skip,
    replace_all r [c] (Claimed.decode_from T s skip) =
    Claimed.decode_from (T ++ map (fun e => (e, c)) es) s skip.
Proof.
  induction s as [|a s IH]; intros skip.
  - simpl. apply replace_all_nil, Hmin.
  - destruct skip as [|k]; [|simpl; apply IH].
    cbn [Claimed.decode_from]. unfold Claimed.entity_at at 2. rewrite find_app_cases.
    fold (Claimed.entity_at T (a :: s)).
    destruct (Claimed.entity_at T (a :: s)) as [[e0 c0]|] eqn:ET.
    + (* an entity of the table stands here *)
      apply entity_at_In in ET as [Hin _].
      rewrite replace_all_cons by exact Hmin. rewrite no_match_at.
      * rewrite IH. reflexivity.
      * intros e rest He Heq.
        rewrite List.Forall_forall in Hes. destruct (Hes e He) as (e' & -> & _).
        inversion Heq; subst c0.
        rewrite List.Forall_forall in HT. destruct (HT _ Hin) as [_ Hc]. apply Hc. reflexivity.
    + destruct (List.find (fun e => starts_with (fst e) (a :: s))
                  (map (fun e => (e, c)) es)) as [[e1 c1]|] eqn:EE.
      * (* an entity of the pattern stands here *)
        apply List.find_some in EE as [Hin Hsw]. cbn [fst] in Hsw.
        apply in_map_iff in Hin as (e & He1 & He). inversion He1; subst e1 c1. clear He1.
        apply starts_with_app in Hsw as [rest Hs].
        pose proof Hes as Hes'. rewrite List.Forall_forall in Hes'.
        destruct (Hes' e He) as (e' & -> & Hplain).
        simpl in Hs. inversion Hs as [[Ha Hs']]. subst a s.
        rewrite decode_plain_prefix by exact Hplain.
        destruct (match_at ("&"%char :: e') (Claimed.decode_from T rest 0) He) as (cp & l & Em).
        rewrite replace_all_cons by exact Hmin.
        change ("&"%char :: e' ++ Claimed.decode_from T rest 0)
          with (("&"%char :: e') ++ Claimed.decode_from T rest 0).
        rewrite Em. simpl. f_equal. rewrite Nat.sub_0_r.
        rewrite <- IH. rewrite decode_from_skip. reflexivity.
      * (* no entity stands here *)
        rewrite replace_all_cons by exact Hmin. rewrite no_match_at.
        -- rewrite IH. reflexivity.
        -- intros e rest He Heq.
           pose proof Hes as Hes'. rewrite List.Forall_forall in Hes'.
           destruct (Hes' e He) as (e' & -> & Hplain).
           inversion Heq as [[Ha HX]]. subst a.
           assert (Hsw : starts_with e' s = true).
           { apply prefix_through; [exact Hplain|]. rewrite HX.
             apply starts_with_app. eauto. }
           assert (Hf : starts_with (fst ("&"%char :: e', c)) ("&"%char :: s) = true).
           { simpl. exact Hsw. }
           pose proof (List.find_none _ _ EE ("&"%char :: e', c)) as Hn.
           cbn beta in Hn. rewrite Hf in Hn.
           assert (false = true); [|discriminate]. symmetry. apply Hn.
           apply in_map_iff. exists ("&"%char :: e'). auto.
Qed.

End Pass.

Lemma pass_lit (e' : str) (c : ascii) (T : list (str * ascii)) (s : str) :
  forallb (plain_for T) e' = true ->
  Forall (fun ec => (exists e0, fst ec = "&"%char :: e0) /\ snd ec <> "&"%char) T ->
  replace_all (lit ("&"%char :: e')) [c] (Claimed.decode_from T s 0) =
  Claimed.decode_from (T ++ [("&"%char :: e', c)]) s 0.
Proof.
  intros He HT.
  apply (one_pass (lit ("&"%char :: e')) ["&"%char :: e'] c T).
  - simpl. lia.
  - intros t rest c0 c' M. apply Matches_lit in M as [-> _]. left. reflexivity.
  - intros e Y [<-|[]]. exists []. apply Matches_lit. auto.
  - intros e1 e2 [<-|[]] [<-|[]]. reflexivity.
  - constructor; [|constructor]. eauto.
  - exact HT.
Qed.

Lemma Matches_hex_entity (d lo up : ascii) (t rest : str) (c c' : caps) :
  Matches (Re.hex_entity d lo up) t rest c c' <->
  (t = ("&#x" : str) ++ [d; up; ";"%char] \/ t = ("&#x" : str) ++ [d; lo; ";"%char]) /\
  c' = c.
Proof.
  unfold Re.hex_entity. rewrite Matches_lit_cat. split.
  - intros (t' & -> & M). apply Matches_Cat_inv in M as (t1 & t2 & c1 & -> & M1 & M2).
    apply Matches_Chr_inv in M1 as (a & -> & Ha & ->).
    apply Matches_Cat_inv in M2 as (t3 & t4 & c2 & -> & M3 & M4).
    apply Matches_Chr_inv in M3 as (b & -> & Hb & ->).
    apply Matches_lit in M4 as [-> ->].
    unfold Char.exactly in Ha. apply Char_eqb_eq in Ha. subst a.
    apply orb_true_iff in Hb as [Hb|Hb]; apply Char_eqb_eq in Hb; subst b; auto.
  - intros [Ht ->].
    assert (exists x, t = ("&#x" : str) ++ [d; x; ";"%char] /\
                      Char.eqb x up || Char.eqb x lo = true) as (x & -> & Hx).
    { destruct Ht as [-> | ->]; eexists; (split; [reflexivity|]);
        rewrite Char_eqb_refl; [reflexivity|apply orb_true_r]. }
    exists [d; x; ";"%char]. split; [reflexivity|].
    apply Matches_Cat_inv. exists [d], [x; ";"%char], c. split; [reflexivity|]. split.
    + apply Matches_Chr_inv. exists d. unfold Char.exactly. rewrite Char_eqb_refl. auto.
    + apply Matches_Cat_inv. exists [x], [";"%char], c. split; [reflexivity|]. split.
      * apply Matches_Chr_inv. exists x. auto.
      * apply Matches_lit. auto.
Qed.

Lemma pass_hex (d lo up c : ascii) (T : list (str * ascii)) (s : str) :
  forallb (plain_for T) ["#"%char; "x"%char; d; up; ";"%char] = true ->
  forallb (plain_for T) ["#"%char; "x"%char; d; lo; ";"%char] = true ->
  Forall (fun ec => (exists e0, fst ec = "&"%char :: e0) /\ snd ec <> "&"%char) T ->
  replace_all (Re.hex_entity d lo up) [c] (Claimed.decode_from T s 0) =
  Claimed.decode_from (T ++ [(("&#x" : str) ++ [d; up; ";"%char], c);
                     (("&#x" : str) ++ [d; lo; ";"%char], c)]) s 0.
Proof.
  intros Hup Hlo HT.
  apply (one_pass (Re.hex_entity d lo up)
           [("&#x" : str) ++ [d; up; ";"%char]; ("&#x" : str) ++ [d; lo; ";"%char]] c T).
  - simpl. lia.
  - intros t rest c0 c' M. apply Matches_hex_entity in M as [[-> | ->] _];
      [left|right; left]; reflexivity.
  - intros e Y He. exists []. apply Matches_hex_entity. split; [|reflexivity].
    destruct He as [<-|[<-|[]]]; auto.
  - intros e1 e2 [<-|[<-|[]]] [<-|[<-|[]]]; reflexivity.
  - constructor; [|constructor; [|constructor]]; eexists; (split; [reflexivity|]); assumption.
  - exact HT.
Qed.

Ltac entities_ok :=
  first [ reflexivity
        | repeat constructor; cbn [fst snd]; try (eexists; reflexivity); discriminate ].

Ltac pass_with lem :=
  match goal with
  | |- context [replace_all ?r ?rep (Claimed.decode_from ?T ?s 0)] =>
      let E := fresh "E" in
      eassert (E : replace_all r rep (Claimed.decode_from T s 0) = _);
      [ apply lem; entities_ok | rewrite E; clear E ]
  end.

(** [decodeHtmlEntities] is two passes: the [&amp;] are decoded, and then
    the other entities, in what the first pass gives. *)
Lemma decodeHtmlEntities_passes (s : str) :
  decodeHtmlEntities s =
  Claimed.decode_from Claimed.others (Claimed.decode_from [Claimed.amp] s 0) 0.
Proof.
  unfold decodeHtmlEntities.
  assert (H1 : replace_all (lit "&amp;") "&" s = Claimed.decode_from [Claimed.amp] s 0).
  { rewrite <- (decode_from_no_table s) at 1.
    apply (pass_lit "amp;" "&" [] s); entities_ok. }
  rewrite H1. generalize (Claimed.decode_from [Claimed.amp] s 0). clear s H1. intros s.
  rewrite <- (decode_from_no_table s) at 1.
  pass_with (pass_lit "lt;" "<"). pass_with (pass_lit "gt;" ">").
  pass_with (pass_lit "quot;" dq). pass_with (pass_lit "#39;" "'").
  pass_with (pass_hex "2" "b" "B" "+"). pass_with (pass_lit "#43;" "+").
  pass_with (pass_hex "2" "f" "F" "/"). pass_with (pass_lit "#47;" "/").
  pass_with (pass_lit "#61;" "="). pass_with (pass_hex "3" "d" "D" "=").
  reflexivity.
Qed.

Lemma decode_from_absent (e : str) (c : ascii) (T : list (str * ascii)) (s : str) :
  includes e s = false ->
  forall skip, Claimed.decode_from ((e, c) :: T) s skip = Claimed.decode_from T s skip.
Proof.
  induction s as [|a s IH]; intros H skip; [reflexivity|].
  simpl in H. apply orb_false_iff in H as [Hsw H].
  destruct skip as [|k]; [|simpl; apply IH, H].
  cbn [Claimed.decode_from]. unfold Claimed.entity_at. cbn [List.find fst]. rewrite Hsw.
  fold (Claimed.entity_at T (a :: s)).
  destruct (Claimed.entity_at T (a :: s)) as [[e0 c0]|]; rewrite IH by exact H; reflexivity.
Qed.

(** A text without [&amp;]: the two passes are one pass. *)
Lemma decode_one_pass (s : str) :
  includes "&amp;" s = false -> decodeHtmlEntities s = Claimed.decode s.
Proof.
  intros H. rewrite decodeHtmlEntities_passes. unfold Claimed.decode, Claimed.entities, Claimed.amp.
  rewrite !(decode_from_absent "&amp;" "&" _ s H). rewrite decode_from_no_table.
  reflexivity.
Qed.

(** ** [extractCsrfToken] *)

Lemma Matches_meta_token (t rest : str) (c : caps) :
  Matches Re.meta_token t rest [] c <-> exists tok, meta_shape tok t /\ c = [(1, tok)].
Proof.
  unfold Re.meta_token, meta_shape, many1, spaces1, without.
  rewrite Matches_lit_cat. setoid_rewrite Matches_Rep_cat.
  setoid_rewrite Matches_lit_cat. setoid_rewrite Matches_Rep_cat.
  setoid_rewrite Matches_lit_cat. setoid_rewrite Matches_Grp_cat.
  setoid_rewrite Matches_Rep_inv. setoid_rewrite Matches_lit. split.
  - intros (t1 & -> & w1 & t2 & -> & Hw1 & Hl1 & _ & t3 & -> & w2 & t4 & -> & Hw2 & Hl2 & _
            & t5 & -> & tok & t6 & c1 & -> & (Htok & Hl3 & _ & ->) & -> & ->).
    exists tok. split; [|reflexivity]. exists w1, w2.
    rewrite <- !nonempty_length. repeat split; auto.
  - intros (tok & (w1 & w2 & -> & [Hn1 Hw1] & [Hn2 Hw2] & Hn3 & Htok) & ->).
    rewrite <- nonempty_length in Hn1, Hn2, Hn3.
    eexists. split; [reflexivity|]. exists w1. eexists. split; [reflexivity|].
    repeat split; auto. eexists. split; [reflexivity|]. exists w2. eexists.
    split; [reflexivity|]. repeat split; auto. eexists. split; [reflexivity|].
    exists tok, [dq], []. repeat split; auto.
Qed.

Lemma Matches_input_name_value (t rest : str) (c : caps) :
  Matches Re.input_name_value t rest [] c <->
  exists tok, input_name_value_shape tok t /\ c = [(1, tok)].
Proof.
  unfold Re.input_name_value, input_name_value_shape, many1, many, without.
  rewrite Matches_lit_cat. setoid_rewrite Matches_Rep_cat.
  setoid_rewrite Matches_lit_cat. setoid_rewrite Matches_Rep_cat.
  setoid_rewrite Matches_lit_cat. setoid_rewrite Matches_Grp_cat.
  setoid_rewrite Matches_Rep_inv. setoid_rewrite Matches_lit. split.
  - intros (t1 & -> & a & t2 & -> & Ha & _ & _ & t3 & -> & b & t4 & -> & Hb & _ & _
            & t5 & -> & tok & t6 & c1 & -> & (Htok & Hl3 & _ & ->) & -> & ->).
    exists tok. split; [|reflexivity]. exists a, b.
    rewrite <- !nonempty_length. repeat split; auto.
  - intros (tok & (a & b & -> & Ha & Hb & Hn3 & Htok) & ->).
    rewrite <- nonempty_length in Hn3.
    eexists. split; [reflexivity|]. exists a. eexists. split; [reflexivity|].
    repeat split; auto; try lia. eexists. split; [reflexivity|]. exists b. eexists.
    split; [reflexivity|]. repeat split; auto; try lia. eexists. split; [reflexivity|].
    exists tok, [dq], []. repeat split; auto.
Qed.

Lemma Matches_input_value_name (t rest : str) (c : caps) :
  Matches Re.input_value_name t rest [] c <->
  exists tok, input_value_name_shape tok t /\ c = [(1, tok)].
Proof.
  unfold Re.input_value_name, input_value_name_shape, many1, many, without.
  rewrite Matches_lit_cat. setoid_rewrite Matches_Rep_cat.
  setoid_rewrite Matches_lit_cat. setoid_rewrite Matches_Grp_cat.
  setoid_rewrite Matches_Rep_inv. setoid_rewrite Matches_lit_cat.
  setoid_rewrite Matches_Rep_cat. setoid_rewrite Matches_lit. split.
  - intros (t1 & -> & a & t2 & -> & Ha & _ & _ & t3 & -> & tok & t4 & c1 & ->
            & (Htok & Hl3 & _ & ->) & t5 & -> & b & t6 & -> & Hb & _ & _ & -> & ->).
    exists tok. split; [|reflexivity]. exists a, b.
    rewrite <- !nonempty_length. repeat split; auto.
  - intros (tok & (a & b & -> & Ha & Hb & Hn3 & Htok) & ->).
    rewrite <- nonempty_length in Hn3.
    eexists. split; [reflexivity|]. exists a. eexists. split; [reflexivity|].
    repeat split; auto; try lia. eexists. split; [reflexivity|].
    exists tok. eexists. exists []. split; [reflexivity|]. repeat split; auto.
    eexists. split; [reflexivity|]. exists b. eexists. split; [reflexivity|].
    repeat split; auto; lia.
Qed.

(** The first group of the first match of a pattern whose matches have the
    given shape. *)
Lemma match_re_shape (r : regex) (shape : str -> str -> Prop) (s : str) :
  (forall t rest c, Matches r t rest [] c <-> exists tok, shape tok t /\ c = [(1, tok)]) ->
  match match_re r s with
  | Some m => Holds shape s (group m 1)
  | None => forall tok, ~ Holds shape s tok
  end.
Proof.
  intros Hr. destruct (match_re r s) as [m|] eqn:E.
  - apply match_re_Some in E as (pre & Hs & _ & M & _).
    apply Hr in M as (tok & Hshape & Hc).
    rewrite (group_of_caps _ _ _ _ Hc).
    exists pre, (m_text m), (m_rest m). split; assumption.
  - apply match_re_None in E. intros tok (pre & t & post & Hs & Hshape). apply E.
    exists pre, t, post, [(1, tok)]. split; [exact Hs|]. apply Hr. eauto.
Qed.

(** [extractCsrfToken]: the three shapes in the order they are tried. *)
Lemma extractCsrfToken_spec (html : str) :
  ((exists tok, Holds meta_shape html tok) ->
   exists tok, Holds meta_shape html tok /\
               extractCsrfToken html = decodeHtmlEntities tok) /\
  ((forall tok, ~ Holds meta_shape html tok) ->
   (exists tok, Holds input_name_value_shape html tok) ->
   exists tok, Holds input_name_value_shape html tok /\
               extractCsrfToken html = decodeHtmlEntities tok) /\
  ((forall tok, ~ Holds meta_shape html tok) ->
   (forall tok, ~ Holds input_name_value_shape html tok) ->
   (exists tok, Holds input_value_name_shape html tok) ->
   exists tok, Holds input_value_name_shape html tok /\
               extractCsrfToken html = decodeHtmlEntities tok) /\
  ((forall tok, ~ Holds meta_shape html tok) ->
   (forall tok, ~ Holds input_name_value_shape html tok) ->
   (forall tok, ~ Holds input_value_name_shape html tok) ->
   extractCsrfToken html = []).
Proof.
  pose proof (match_re_shape Re.meta_token meta_shape html Matches_meta_token) as H1.
  pose proof (match_re_shape Re.input_name_value input_name_value_shape html
                Matches_input_name_value) as H2.
  pose proof (match_re_shape Re.input_value_name input_value_name_shape html
                Matches_input_value_name) as H3.
  unfold extractCsrfToken.
  destruct (match_re Re.meta_token html) as [m1|].
  { repeat split.
    - intros _. eauto.
    - intros H. exfalso. eapply H, H1.
    - intros H. exfalso. eapply H, H1.
    - intros H. exfalso. eapply H, H1. }
  destruct (match_re Re.input_name_value html) as [m2|].
  { repeat split.
    - intros [tok H]. exfalso. eapply H1, H.
    - intros _ _. eauto.
    - intros _ H. exfalso. eapply H, H2.
    - intros _ H. exfalso. eapply H, H2. }
  destruct (match_re Re.input_value_name html) as [m3|].
  { repeat split.
    - intros [tok H]. exfalso. eapply H1, H.
    - intros _ [tok H]. exfalso. eapply H2, H.
    - intros _ _ _. eauto.
    - intros _ _ H. exfalso. eapply H, H3. }
  repeat split.
  - intros [tok H]. exfalso. eapply H1, H.
  - intros _ [tok H]. exfalso. eapply H2, H.
  - intros _ _ [tok H]. exfalso. eapply H3, H.
Qed.


(** On the example of the specification the two agree. *)
Example claimed_token_example :
  Claimed.extractToken meta_example = ("abc&123" : str) /\
  extractCsrfToken meta_example = Claimed.extractToken meta_example.
Proof. split; vm_compute; reflexivity. Qed.



(** ** [namesFromLinkedinUrl] *)

Lemma Matches_in_slug (t rest : str) (c : caps) :
  Matches Re.in_slug t rest [] c <->
  exists slug, t = ("/in/" : str) ++ slug /\ slug <> [] /\ without "/?" slug /\
               c = [(1, slug)].
Proof.
  unfold Re.in_slug, many1, without. rewrite Matches_lit_cat.
  setoid_rewrite Matches_Grp_inv. setoid_rewrite Matches_Rep_inv. split.
  - intros (slug & -> & c1 & (H1 & H2 & _ & ->) & ->). exists slug.
    rewrite <- nonempty_length. auto.
  - intros (slug & -> & Hne & Hs & ->). exists slug. split; [reflexivity|].
    exists []. rewrite nonempty_length. repeat split; auto.
Qed.

(** The slug: what follows the first ["/in/"], up to the next slash or
    question mark. *)
Lemma match_in_slug (pre slug post : str) :
  includes "/in/" (pre ++ "/in") = false ->
  slug <> [] -> without "/?" slug ->
  match post with a :: _ => not_in "/?" a = false | [] => True end ->
  exists m, match_re Re.in_slug (pre ++ "/in/" ++ slug ++ post) = Some m /\
            group m 1 = slug.
Proof.
  intros Hpre Hne Hslug Hpost.
  assert (M0 : Matches Re.in_slug (("/in/" : str) ++ slug) post [] [(1, slug)]).
  { apply Matches_in_slug. exists slug. auto. }
  assert (Hocc : Occurs Re.in_slug (pre ++ "/in/" ++ slug ++ post)).
  { exists pre, (("/in/" : str) ++ slug), post, [(1, slug)]. split; [|exact M0].
    rewrite <- !app_assoc. reflexivity. }
  destruct (match_re_Occurs _ _ Hocc) as [m E]. exists m. split; [exact E|].
  apply match_re_Some in E as (pre' & Hs & _ & M & [others Hhd] & Hleft).
  apply Matches_in_slug in M as (slug' & Ht & Hne' & Hslug' & Hc).
  assert (Hpos : pre' = pre /\ slug' ++ m_rest m = slug ++ post).
  { rewrite Ht, <- !app_assoc in Hs.
    destruct (app_eq_cases _ _ _ _ Hs) as [(x & -> & Hx)|(x & Hx & -> & Hy)].
    - destruct x as [|x0 x].
      + rewrite app_nil_r. split; [reflexivity|].
        simpl in Hx. inversion Hx. reflexivity.
      + exfalso. specialize (Hleft pre (x0 :: x) eq_refl ltac:(discriminate)).
        apply ms_complete in M0. rewrite Ht in Hleft.
        rewrite <- !app_assoc in Hleft, M0. rewrite <- Hx in Hleft.
        rewrite Hleft in M0. destruct M0.
    - exfalso.
      assert (Hsw : starts_with "/in/" (x ++ ("/in" : str)) = true).
      { apply (starts_with_short _ _ (("/" : str) ++ slug ++ post)).
        - rewrite <- app_assoc. change (("/in" : str) ++ ("/" : str) ++ slug ++ post)
            with (("/in/" : str) ++ slug ++ post).
          rewrite <- Hy. reflexivity.
        - rewrite length_app. destruct x; [congruence|]. simpl. lia. }
      apply starts_with_app in Hsw as [r Hr].
      assert (Hin : includes "/in/" ((pre' ++ x) ++ "/in") = true).
      { apply includes_spec. exists pre', r. rewrite <- app_assoc, Hr. reflexivity. }
      congruence. }
  destruct Hpos as [-> Hrest].
  rewrite Ht, <- app_assoc in Hhd. unfold Re.in_slug in Hhd.
  rewrite ms_lit_cat in Hhd.
  change (starts_with "/in/" (("/in/" : str) ++ slug' ++ m_rest m)) with true in Hhd.
  change (skipn (length ("/in/" : str)) (("/in/" : str) ++ slug' ++ m_rest m))
    with (slug' ++ m_rest m) in Hhd.
  rewrite Hrest in Hhd.
  assert (Hrun : run_length (not_in "/?") (slug ++ post) = length slug).
  { apply run_length_exact; assumption. }
  destruct (ms_Grp_greedy 1 1 (not_in "/?") (slug ++ post) []) as [others' Hg].
  { rewrite Hrun. apply nonempty_length, Hne. }
  unfold many1 in Hhd. rewrite Hg in Hhd. inversion Hhd as [[Hr Hcaps]].
  rewrite (group_of_caps m 1 _ _ (eq_sym Hcaps)).
  change (firstn (run_length (not_in "/?") (slug ++ post)) (slug ++ post) = slug).
  rewrite Hrun, firstn_app, Nat.sub_diag, firstn_all. simpl. apply app_nil_r.
Qed.

(** The slug: what follows the first ["/in/"] that has a character of a
    slug after it, up to the next slash or question mark. *)
Lemma match_in_slug_first (url pre slug post : str) :
  url = pre ++ ("/in/" : str) ++ slug ++ post ->
  (forall p a q, length p < length pre -> url = p ++ ("/in/" : str) ++ a :: q ->
                 not_in "/?" a = false) ->
  slug <> [] -> without "/?" slug -> follows_slug post ->
  exists m, match_re Re.in_slug url = Some m /\ group m 1 = slug.
Proof.
  intros Hurl Hfirst Hne Hslug Hpost.
  assert (M0 : Matches Re.in_slug (("/in/" : str) ++ slug) post [] [(1, slug)]).
  { apply Matches_in_slug. exists slug. auto. }
  assert (Hocc : Occurs Re.in_slug url).
  { exists pre, (("/in/" : str) ++ slug), post, [(1, slug)]. split; [|exact M0].
    rewrite Hurl, <- !app_assoc. reflexivity. }
  destruct (match_re_Occurs _ _ Hocc) as [m E]. exists m. split; [exact E|].
  apply match_re_Some in E as (pre' & Hs & _ & M & [others Hhd] & Hleft).
  apply Matches_in_slug in M as (slug' & Ht & Hne' & Hslug' & Hc).
  assert (Hpos : pre' = pre /\ slug' ++ m_rest m = slug ++ post).
  { rewrite Ht, <- !app_assoc in Hs. rewrite Hurl in Hs.
    destruct (app_eq_cases _ _ _ _ Hs) as [(x & -> & Hx)|(x & Hx & -> & Hy)].
    - destruct x as [|x0 x].
      + rewrite app_nil_r. split; [reflexivity|].
        simpl in Hx. inversion Hx. reflexivity.
      + exfalso. specialize (Hleft pre (x0 :: x) eq_refl ltac:(discriminate)).
        apply ms_complete in M0. rewrite Ht in Hleft.
        rewrite <- !app_assoc in Hleft, M0. rewrite <- Hx in Hleft.
        rewrite Hleft in M0. destruct M0.
    - exfalso. destruct slug' as [|a slug']; [congruence|].
      unfold without in Hslug'. cbn [forallb] in Hslug'.
      apply andb_true_iff in Hslug' as [Ha _].
      rewrite (Hfirst pre' a (slug' ++ m_rest m)) in Ha; [discriminate| |].
      + rewrite length_app. destruct x; [congruence|]. simpl. lia.
      + rewrite Hurl, Hs. reflexivity. }
  destruct Hpos as [-> Hrest].
  rewrite Ht, <- app_assoc in Hhd. unfold Re.in_slug in Hhd.
  rewrite ms_lit_cat in Hhd.
  change (starts_with "/in/" (("/in/" : str) ++ slug' ++ m_rest m)) with true in Hhd.
  change (skipn (length ("/in/" : str)) (("/in/" : str) ++ slug' ++ m_rest m))
    with (slug' ++ m_rest m) in Hhd.
  rewrite Hrest in Hhd.
  assert (Hrun : run_length (not_in "/?") (slug ++ post) = length slug).
  { apply run_length_exact; assumption. }
  destruct (ms_Grp_greedy 1 1 (not_in "/?") (slug ++ post) []) as [others' Hg].
  { rewrite Hrun. apply nonempty_length, Hne. }
  unfold many1 in Hhd. rewrite Hg in Hhd. inversion Hhd as [[Hr Hcaps]].
  rewrite (group_of_caps m 1 _ _ (eq_sym Hcaps)).
  change (firstn (run_length (not_in "/?") (slug ++ post)) (slug ++ post) = slug).
  rewrite Hrun, firstn_app, Nat.sub_diag, firstn_all. simpl. apply app_nil_r.
Qed.

Lemma no_in_slug (url : str) :
  (forall pre a post, url = pre ++ ("/in/" : str) ++ a :: post -> not_in "/?" a = false) ->
  namesFromLinkedinUrl url = [].
Proof.
  intros H. unfold namesFromLinkedinUrl.
  destruct (match_re Re.in_slug url) as [m|] eqn:E; [|reflexivity].
  exfalso. apply match_re_Some in E as (pre & Hs & _ & M & _).
  apply Matches_in_slug in M as (slug & Ht & Hne & Hslug & _).
  destruct slug as [|a slug]; [congruence|].
  unfold without in Hslug. cbn [forallb] in Hslug.
  apply andb_true_iff in Hslug as [Ha _].
  rewrite (H pre a (slug ++ m_rest m)) in Ha; [discriminate|].
  rewrite Hs, Ht, <- !app_assoc. reflexivity.
Qed.

Lemma Matches_id_suffix (t rest : str) (c : caps) :
  Matches Re.id_suffix t rest [] c <->
  exists l d1 d2,
    t = ("-" : str) ++ l ++ d1 ++ d2 /\
    forallb Char.is_alpha l = true /\ length l <= 1 /\
    digits d1 /\ 5 <= length d1 /\ digits d2 /\ rest = [] /\ c = [].
Proof.
  unfold Re.id_suffix, optional, many, digits. rewrite Matches_lit_cat.
  setoid_rewrite Matches_Rep_cat. setoid_rewrite Matches_Rep_cat.
  setoid_rewrite Matches_Rep_cat. setoid_rewrite Matches_Eoi_inv.
  unfold within. split.
  - intros (t1 & -> & l & t2 & -> & Hl & _ & Hl1 & d1 & t3 & -> & Hd1 & Hd5 & _
            & d2 & t4 & -> & Hd2 & _ & _ & -> & -> & ->).
    exists l, d1, d2. rewrite app_nil_r. repeat split; auto.
  - intros (l & d1 & d2 & -> & Hl & Hl1 & Hd1 & Hd5 & Hd2 & -> & ->).
    eexists. split; [reflexivity|]. exists l. eexists. split; [reflexivity|].
    repeat split; auto; try lia. exists d1. eexists. split; [reflexivity|].
    repeat split; auto. exists d2, []. rewrite app_nil_r. repeat split; auto; lia.
Qed.

Lemma at_most_one_letter_spec (l : str) :
  at_most_one_letter l <-> forallb Char.is_alpha l = true /\ length l <= 1.
Proof.
  unfold at_most_one_letter. split.
  - intros [->|(a & -> & Ha)]; simpl; [auto|]. rewrite Ha. auto.
  - intros [H1 H2]. destruct l as [|a [|b l]]; simpl in *; try lia; [left; reflexivity|].
    right. exists a. split; [reflexivity|]. apply andb_true_iff in H1 as [H1 _]. exact H1.
Qed.

(** The suffix is cut where the hyphen is that starts it. *)
Lemma strip_id_suffix (base l ds : str) :
  at_most_one_letter l -> digits ds -> 5 <= length ds ->
  replace_re Re.id_suffix [] (base ++ "-" ++ l ++ ds) = base.
Proof.
  intros Hl Hds H5. apply at_most_one_letter_spec in Hl as [Hl Hl1].
  assert (M0 : Matches Re.id_suffix (("-" : str) ++ l ++ ds) [] [] []).
  { apply Matches_id_suffix. exists l, ds, []. rewrite app_nil_r.
    repeat split; auto. }
  assert (Hocc : Occurs Re.id_suffix (base ++ "-" ++ l ++ ds)).
  { exists base, (("-" : str) ++ l ++ ds), [], []. split; [|exact M0].
    rewrite app_nil_r. reflexivity. }
  unfold replace_re. destruct (match_re_Occurs _ _ Hocc) as [m E]. rewrite E.
  apply match_re_Some in E as (pre' & Hs & Hidx & M & _ & Hleft).
  apply Matches_id_suffix in M as (l' & d1 & d2 & Ht & Hl' & Hl1' & Hd1 & Hd5 & Hd2 & Hrest & _).
  rewrite Hrest, app_nil_r in *. rewrite Hidx.
  assert (Hpos : pre' = base).
  { destruct (app_eq_cases _ _ _ _ Hs) as [(x & -> & Hx)|(x & Hx & -> & Hy)].
    - destruct x as [|x0 x]; [apply app_nil_r|]. exfalso.
      specialize (Hleft base (x0 :: x) eq_refl ltac:(discriminate)).
      apply ms_complete in M0. rewrite app_nil_r in M0.
      rewrite <- Hx in Hleft. rewrite Hleft in M0. destruct M0.
    - exfalso. rewrite Ht in Hy.
      destruct x as [|x0 x]; [congruence|]. simpl in Hy. inversion Hy as [[Hx0 Hy']].
      assert (Hdd : forallb Char.is_digit (d1 ++ d2) = true).
      { rewrite forallb_app. unfold digits in *. rewrite Hd1, Hd2. reflexivity. }
      destruct l' as [|a [|b l']]; simpl in Hl1'; try lia; simpl in Hy'.
      + rewrite Hy' in Hdd. apply forallb_app_inv in Hdd. discriminate.
      + destruct x as [|x1 x]; simpl in Hy'; inversion Hy' as [[Ha Hy'']].
        * subst a. simpl in Hl'. discriminate.
        * rewrite Hy'' in Hdd. apply forallb_app_inv in Hdd. discriminate. }
  subst pre'. rewrite Hs at 1.
  rewrite firstn_app, Nat.sub_diag, firstn_all. simpl. rewrite !app_nil_r. reflexivity.
Qed.

Lemma ends_with_digit_app (s d : str) :
  d <> [] -> forallb Char.is_digit d = true -> ends_with_digit (s ++ d) = true.
Proof.
  intros Hne Hd. unfold ends_with_digit. rewrite rev_app_distr.
  destruct (rev d) as [|a r] eqn:E.
  - apply (f_equal (@rev ascii)) in E. rewrite rev_involutive in E. contradiction.
  - simpl. rewrite forallb_forall in Hd. apply Hd, in_rev. rewrite E. left. reflexivity.
Qed.

(** A slug that does not end in a digit keeps its last part. *)
Lemma keep_without_digit (slug : str) :
  ends_with_digit slug = false -> replace_re Re.id_suffix [] slug = slug.
Proof.
  intros H. unfold replace_re.
  destruct (match_re Re.id_suffix slug) as [m|] eqn:E; [|reflexivity].
  exfalso. apply match_re_Some in E as (pre & Hs & _ & M & _).
  apply Matches_id_suffix in M as (l & d1 & d2 & Ht & _ & _ & Hd1 & Hd5 & Hd2 & Hrest & _).
  rewrite Hrest, app_nil_r, Ht in Hs.
  assert (Hd : ends_with_digit slug = true).
  { rewrite Hs. rewrite !app_assoc, <- app_assoc. apply ends_with_digit_app.
    - destruct d1; [simpl in Hd5; lia|discriminate].
    - rewrite forallb_app. unfold digits in *. rewrite Hd1, Hd2. reflexivity. }
  congruence.
Qed.

Lemma ends_with_digit_last (base last : str) :
  no_digit last -> (base = [] \/ exists b, base = b ++ ("-" : str)) ->
  ends_with_digit (base ++ last) = false.
Proof.
  intros Hlast Hbase. unfold ends_with_digit. rewrite rev_app_distr.
  destruct (rev last) as [|a r] eqn:E.
  - simpl. destruct Hbase as [->|[b ->]]; [reflexivity|].
    rewrite rev_app_distr. reflexivity.
  - simpl. unfold no_digit in Hlast. rewrite forallb_forall in Hlast.
    assert (Ha : In a last) by (apply in_rev; rewrite E; left; reflexivity).
    apply Hlast in Ha. apply negb_true_iff in Ha. exact Ha.
Qed.

(** A slug that does not end with the suffix is left whole. *)
Lemma keep_without_suffix (slug : str) :
  (forall base l ds, slug = base ++ ("-" : str) ++ l ++ ds ->
     at_most_one_letter l -> digits ds -> length ds < 5) ->
  replace_re Re.id_suffix [] slug = slug.
Proof.
  intros H. unfold replace_re.
  destruct (match_re Re.id_suffix slug) as [m|] eqn:E; [|reflexivity].
  exfalso. apply match_re_Some in E as (pre & Hs & _ & M & _).
  apply Matches_id_suffix in M as (l & d1 & d2 & Ht & Hl & Hl1 & Hd1 & Hd5 & Hd2 & Hrest & _).
  rewrite Hrest, app_nil_r, Ht in Hs.
  assert (Hlt : length (d1 ++ d2) < 5).
  { apply (H pre l (d1 ++ d2)); [exact Hs| |].
    - apply at_most_one_letter_spec. auto.
    - unfold digits in *. rewrite forallb_app, Hd1, Hd2. reflexivity. }
  rewrite length_app in Hlt. lia.
Qed.

(** The pattern decides whether a slug ends with the suffix. *)
Lemma no_suffix_spec (slug : str) :
  match_re Re.id_suffix slug = None ->
  forall base l ds, slug = base ++ ("-" : str) ++ l ++ ds ->
    at_most_one_letter l -> digits ds -> length ds < 5.
Proof.
  intros E base l ds Hs Hl Hds.
  destruct (le_lt_dec 5 (length ds)) as [H5|]; [|assumption]. exfalso.
  apply match_re_None in E. apply E.
  exists base, (("-" : str) ++ l ++ ds), [], []. split; [rewrite app_nil_r; exact Hs|].
  apply at_most_one_letter_spec in Hl as [Hl Hl1].
  apply Matches_id_suffix. exists l, ds, []. rewrite app_nil_r. repeat split; auto.
Qed.




(** The suffix the comment of the source gives as an example is not cut:
    the pattern allows one letter only before the digits. *)
Example alphanumeric_suffix_kept :
  tokensFromSlug "john-smith-b166a9171" =
  [("john" : str); ("smith" : str); ("b166a9171" : str)].
Proof. vm_compute. reflexivity. Qed.

(** ** [parseCandidatePage] *)

(** *** The timeline *)

Lemma Matches_date (t rest : str) (c c' : caps) :
  Matches Re.date t rest c c' <-> is_date_token t /\ c' = c.
Proof.
  unfold Re.date, is_date_token, digits.
  rewrite Matches_Rep_cat.
  setoid_rewrite Matches_lit_cat.
  setoid_rewrite Matches_Rep_cat.
  setoid_rewrite Matches_lit_cat.
  setoid_rewrite Matches_Rep_inv.
  unfold within. split.
  - intros (a & t1 & -> & Ha & Ha1 & Ha2 & t2 & -> & b & t3 & -> & Hb & Hb1 & Hb2
            & t4 & -> & Hc & Hc1 & Hc2 & ->).
    split; [|reflexivity]. exists a, b, t4. repeat split; auto.
  - intros [(a & b & d & -> & Ha & [Ha1 Ha2] & Hb & [Hb1 Hb2] & Hd & [Hd1 Hd2]) ->].
    exists a, (("/" : str) ++ b ++ ("/" : str) ++ d). repeat split; auto.
    exists (b ++ ("/" : str) ++ d). split; [reflexivity|].
    exists b, (("/" : str) ++ d). repeat split; auto.
    exists d. repeat split; auto.
Qed.

Lemma is_meta_backslash : Re.is_meta (ascii_of_nat 92) = true.
Proof. reflexivity. Qed.

Lemma of_escaped_escape (l : str) (tail : regex) :
  Re.of_escaped (Re.escapeRegExp l) tail = chain_i l tail.
Proof.
  induction l as [|a l IH]; [reflexivity|].
  unfold Re.escapeRegExp in *. simpl flat_map.
  destruct (Re.is_meta a) eqn:Hm.
  - simpl. f_equal. exact IH.
  - assert (Ha : Char.eqb a (ascii_of_nat 92) = false).
    { destruct (Char.eqb a (ascii_of_nat 92)) eqn:E; [|reflexivity].
      apply Char_eqb_eq in E. subst a. rewrite is_meta_backslash in Hm. discriminate. }
    simpl app. simpl Re.of_escaped.
    destruct (flat_map _ l) as [|b s''] eqn:El.
    + simpl chain_i. f_equal. rewrite <- IH. reflexivity.
    + rewrite Ha. simpl chain_i. f_equal. exact IH.
Qed.

Lemma Matches_chain_i (l : str) (tail : regex) (t rest : str) (c c' : caps) :
  Matches (chain_i l tail) t rest c c' <->
  exists s' t', t = s' ++ t' /\ eq_i s' l /\ Matches tail t' rest c c'.
Proof.
  revert t. induction l as [|a l IH]; intros t; simpl.
  - split.
    + intros H. exists [], t. repeat split. exact H.
    + intros (s' & t' & -> & Hs & H). apply eq_i_nil_r in Hs as ->. exact H.
  - rewrite Matches_Cat_inv. split.
    + intros (t1 & t2 & c1 & -> & H1 & H2).
      apply Matches_Chr_inv in H1 as (b & -> & Hb & ->).
      apply IH in H2 as (s' & t' & -> & Hs & H).
      exists (b :: s'), t'. repeat split; [|exact H].
      apply eq_i_cons. split; [|exact Hs]. apply Char_eqb_eq, Hb.
    + intros (s' & t' & -> & Hs & H). destruct s' as [|b s'].
      { apply eq_i_length in Hs. discriminate. }
      apply eq_i_cons in Hs as [Hb Hs].
      exists [b], (s' ++ t'), c. repeat split.
      * apply Matches_Chr_inv. exists b. repeat split. apply Char_eqb_eq, Hb.
      * apply IH. eauto.
Qed.

(** A match of the timeline pattern: the label, at most 300 characters, and
    a date token, which is the group. *)
Lemma Matches_timeline (label t rest : str) (c c' : caps) :
  Matches (Re.timeline label) t rest c c' <->
  exists l gap u,
    t = l ++ gap ++ u /\ eq_i l label /\ length gap <= 300 /\
    is_date_token u /\ c' = (1, u) :: c.
Proof.
  unfold Re.timeline. rewrite of_escaped_escape, Matches_chain_i.
  setoid_rewrite Matches_Rep_cat. setoid_rewrite Matches_Grp_inv.
  setoid_rewrite Matches_date. unfold within. split.
  - intros (l & t' & -> & Hl & gap & u & -> & _ & _ & Hgap & c1 & [Hu ->] & ->).
    exists l, gap, u. auto.
  - intros (l & gap & u & -> & Hl & Hgap & Hu & ->).
    exists l, (gap ++ u). repeat split; [exact Hl|].
    exists gap, u. repeat split; try lia; try assumption.
    + apply forallb_forall. reflexivity.
    + exists c. auto.
Qed.

(** The date of a timeline entry is ["N/A"] or a date token that follows the
    label in the page, at most 300 characters after it. *)
Lemma timeline_of_spec (html label : str) :
  e_label (timeline_of html label) = label /\
  (e_date (timeline_of html label) = ("N/A" : str) \/
   exists pre l gap rest,
     html = pre ++ l ++ gap ++ e_date (timeline_of html label) ++ rest /\
     eq_i l label /\ length gap <= 300 /\
     is_date_token (e_date (timeline_of html label))).
Proof.
  unfold timeline_of. simpl. split; [reflexivity|].
  destruct (match_re (Re.timeline label) html) as [m|] eqn:E; [|left; reflexivity].
  right. apply match_re_Some in E as (pre & Hs & _ & M & _).
  apply Matches_timeline in M as (l & gap & u & Ht & Hl & Hgap & Hu & Hc).
  rewrite (group_of_caps _ _ _ _ Hc).
  exists pre, l, gap, (m_rest m). repeat split; try assumption.
  rewrite Hs, Ht, <- !app_assoc. reflexivity.
Qed.

(** *** The loops end *)

Lemma cells_loop_spec (rowHtml : str) :
  forall fuel i cells, i <= length rowHtml -> length rowHtml < fuel + i ->
  cells_loop fuel rowHtml i cells =
  Done (cells ++ map (fun m => trim (strip_tags (group m 1)))
                     (all_matches fuel Re.td rowHtml i)).
Proof.
  induction fuel as [|fuel IH]; intros i cells Hi Hf; [lia|]. simpl.
  destruct (exec Re.td rowHtml i) as [m|] eqn:E.
  - assert (Hmin : 1 <= min_len Re.td) by (vm_compute; lia).
    destruct (exec_progress _ _ _ _ E Hmin) as [Hlt Hle].
    rewrite IH by lia. simpl. rewrite <- app_assoc. reflexivity.
  - simpl. rewrite app_nil_r. reflexivity.
Qed.

(** *** The loops of the parser, as list functions *)

Lemma min_len_tr : 1 <= min_len Re.tr.
Proof. vm_compute. lia. Qed.

Lemma min_len_td : 1 <= min_len Re.td.
Proof. vm_compute. lia. Qed.

Lemma min_len_option_tag : 1 <= min_len Re.option_tag.
Proof. vm_compute. lia. Qed.

Lemma cells_loop_cells_of (rowHtml : str) :
  cells_loop (S (length rowHtml)) rowHtml 0 [] = Done (cells_of rowHtml).
Proof.
  rewrite cells_loop_spec by lia. reflexivity.
Qed.

Lemma rows_loop_spec (tableHtml : str) :
  forall fuel i isFirst subs,
    i <= length tableHtml -> length tableHtml < fuel + i ->
    rows_loop fuel tableHtml i isFirst subs =
    Done (subs ++
          flat_map (fun row => submission_of (cells_of row))
            (let rows := map (fun m => group m 1)
                           (all_matches fuel Re.tr tableHtml i) in
             if isFirst then tl rows else rows)).
Proof.
  induction fuel as [|fuel IH]; intros i isFirst subs Hi Hf; [lia|].
  cbn [rows_loop all_matches].
  destruct (exec Re.tr tableHtml i) as [m|] eqn:E.
  - destruct (exec_progress _ _ _ _ E min_len_tr) as [Hlt Hle].
    destruct isFirst.
    + rewrite IH by lia. reflexivity.
    + rewrite cells_loop_cells_of. rewrite IH by lia. cbn [map flat_map].
      unfold submission_of at 2.
      destruct (5 <=? length (cells_of (group m 1))).
      * rewrite <- app_assoc. reflexivity.
      * reflexivity.
  - destruct isFirst; simpl; rewrite app_nil_r; reflexivity.
Qed.

(** [parseSubmissionsTable] ends, with the rows after the first that have
    five cells or more. *)
Lemma parseSubmissionsTable_spec (html : str) :
  parseSubmissionsTable html =
  Done match table_of html with
       | None => []
       | Some tableHtml =>
           flat_map (fun row => submission_of (cells_of row)) (tl (rows_of tableHtml))
       end.
Proof.
  unfold parseSubmissionsTable, table_of.
  destruct (match_re Re.table html) as [m|]; [|reflexivity].
  rewrite rows_loop_spec by lia. reflexivity.
Qed.

(** *** The fields *)

Ltac map_lookup :=
  repeat first
    [ rewrite lookup_insert_eq
    | rewrite lookup_insert_ne by discriminate
    | rewrite lookup_empty ];
  try reflexivity.

(** [parseCandidatePage] ends, and its result holds these keys. *)
Lemma parseCandidatePage_fields (html finalUrl : str) :
  exists c : candidate,
    parseCandidatePage html finalUrl = Done c /\
    c !! "id"%string = Some (JStr (id_of finalUrl)) /\
    c !! "url"%string = Some (JStr finalUrl) /\
    c !! "timeline"%string =
      Some (JTimeline (map (timeline_of html) timelineLabels)) /\
    c !! "submissions"%string = Some (JSubmissions (submissions_of html)) /\
    c !! "name"%string =
      match match_re Re.h1 html with
      | Some m => Some (JStr (trim (strip_tags (group m 1))))
      | None => None
      end /\
    c !! "sourced_by"%string = text_field (dd_text Re.sourced_by html) /\
    c !! "current_owner"%string = text_field (dd_text Re.current_owner html) /\
    c !! "location"%string =
      match dd_text Re.location html with
      | Some loc => if is_empty loc || str_eqb loc "N/A" then None else Some (JStr loc)
      | None => None
      end /\
    c !! "linkedin_url"%string =
      match match_re Re.linkedin_href html with
      | Some m => Some (JStr (group m 1))
      | None => None
      end.
Proof.
  unfold parseCandidatePage. rewrite parseSubmissionsTable_spec.
  fold (submissions_of html). fold (id_of finalUrl).
  eexists. split; [reflexivity|].
  unfold text_field.
  destruct (match_re Re.h1 html) as [h1|];
  destruct (dd_text Re.sourced_by html) as [sb|]; [destruct (is_empty sb)| |destruct (is_empty sb)|];
  (destruct (dd_text Re.current_owner html) as [ow|]; [destruct (is_empty ow)|]);
  (destruct (dd_text Re.location html) as [loc|]; [destruct (is_empty loc || str_eqb loc "N/A")|]);
  destruct (match_re Re.linkedin_href html) as [li|];
  repeat split; map_lookup.
Qed.

(** *** The id *)

Lemma Matches_candidate_id (t rest : str) (c : caps) :
  Matches Re.candidate_id t rest [] c <->
  exists ds, t = ("/candidates/" : str) ++ ds /\ ds <> [] /\ digits ds /\ c = [(1, ds)].
Proof.
  unfold Re.candidate_id, many1, digits. rewrite Matches_lit_cat.
  setoid_rewrite Matches_Grp_inv. setoid_rewrite Matches_Rep_inv. split.
  - intros (ds & -> & c1 & (H1 & H2 & _ & ->) & ->). exists ds.
    rewrite <- nonempty_length. auto.
  - intros (ds & -> & Hne & Hs & ->). exists ds. split; [reflexivity|].
    exists []. rewrite nonempty_length. repeat split; auto.
Qed.

Lemma Occurs_candidate_id (url : str) :
  Occurs Re.candidate_id url <-> has_candidate_id url.
Proof.
  split.
  - intros (pre & t & rest & c & Hs & M).
    apply Matches_candidate_id in M as (ds & -> & Hne & Hds & _).
    destruct ds as [|d ds]; [congruence|].
    exists pre, d, (ds ++ rest). split.
    + rewrite Hs, <- !app_assoc. reflexivity.
    + unfold digits in Hds. simpl in Hds. apply andb_true_iff in Hds as [H _]. exact H.
  - intros (pre & d & post & Hs & Hd).
    exists pre, (("/candidates/" : str) ++ [d]), post, [(1, [d])]. split.
    + rewrite Hs, <- !app_assoc. reflexivity.
    + apply Matches_candidate_id. exists [d]. repeat split; [discriminate|].
      unfold digits. simpl. rewrite Hd. reflexivity.
Qed.

(** The id is empty exactly when ["/candidates/"] followed by a digit occurs
    nowhere in the URL; otherwise it is a run of digits. *)
Lemma id_of_spec (url : str) :
  (id_of url = [] <-> ~ has_candidate_id url) /\ digits (id_of url).
Proof.
  unfold id_of. destruct (match_re Re.candidate_id url) as [m|] eqn:E.
  - pose proof E as E'. apply match_re_Some in E as (pre & Hs & _ & M & _).
    apply Matches_candidate_id in M as (ds & Ht & Hne & Hds & Hc).
    rewrite (group_of_caps _ _ _ _ Hc). split; [|exact Hds]. split; [contradiction|].
    intros H. exfalso. apply H. apply Occurs_candidate_id.
    exists pre, (m_text m), (m_rest m), (m_caps m). split; [exact Hs|].
    rewrite Hc. apply Matches_candidate_id. eauto.
  - apply match_re_None in E. rewrite Occurs_candidate_id in E.
    split; [|reflexivity]. split; auto.
Qed.

Lemma parseCandidatePage_total (html finalUrl : str) :
  exists c, parseCandidatePage html finalUrl = Done c.
Proof.
  destruct (parseCandidatePage_fields html finalUrl) as (c & H & _). eauto.
Qed.

(** C3.  The record [parseCandidatePage] returns has a timeline of six
    entries, in the order of the six milestones, each with a date that is a
    date token (one or two digits, a slash, one or two digits, a slash, two
    to four digits) or ["N/A"]; on the page [<h1>Jane Doe</h1>] the name is
    ["Jane Doe"], no optional field is there, and the six dates are
    ["N/A"]. *)
Theorem timeline_six_milestones (html finalUrl : str) :
  (exists (c : candidate) (entries : list timeline_entry),
     parseCandidatePage html finalUrl = Done c /\
     c !! "timeline"%string = Some (JTimeline entries) /\
     length entries = 6 /\
     map e_label entries = timelineLabels /\
     Forall (date_or_na html) entries) /\
  (exists c : candidate,
     parseCandidatePage minimal_page finalUrl = Done c /\
     c !! "name"%string = Some (JStr "Jane Doe") /\
     c !! "sourced_by"%string = None /\
     c !! "current_owner"%string = None /\
     c !! "location"%string = None /\
     c !! "linkedin_url"%string = None /\
     c !! "timeline"%string = Some (JTimeline na_timeline)).
Proof.
  split.
  - destruct (parseCandidatePage_fields html finalUrl) as (c & Hc & _ & _ & Ht & _).
    exists c, (map (timeline_of html) timelineLabels).
    split; [exact Hc|]. split; [exact Ht|]. split; [reflexivity|].
    split; [reflexivity|].
    apply List.Forall_forall. intros e He. apply in_map_iff in He as (l & <- & _).
    destruct (timeline_of_spec html l) as [_ [H|(pre & l' & gap & rest & H1 & H2 & H3 & H)]];
      [left; exact H|right].
    split; [exact H|]. exists pre, l', gap, rest. auto.
  - destruct (parseCandidatePage_fields minimal_page finalUrl)
      as (c & Hc & _ & _ & Ht & _ & Hn & Hs & Ho & Hl & Hli).
    exists c. split; [exact Hc|]. repeat split.
    + rewrite Hn. vm_compute. reflexivity.
    + rewrite Hs. vm_compute. reflexivity.
    + rewrite Ho. vm_compute. reflexivity.
    + rewrite Hl. vm_compute. reflexivity.
    + rewrite Hli. vm_compute. reflexivity.
    + rewrite Ht. vm_compute. reflexivity.
Qed.

(** ** [findLinkedInMatchInSearchResults] *)

Lemma match_rows_loop_spec (tableHtml target : str) :
  forall fuel i isFirst,
    i <= length tableHtml -> length tableHtml < fuel + i ->
    match_rows_loop fuel tableHtml (normalizeLinkedinUrl target) i isFirst =
    Done (first_path target
            (let rows := map (fun m => group m 1)
                           (all_matches fuel Re.tr tableHtml i) in
             if isFirst then tl rows else rows)).
Proof.
  induction fuel as [|fuel IH]; intros i isFirst Hi Hf; [lia|]. simpl.
  destruct (exec Re.tr tableHtml i) as [m|] eqn:E.
  - destruct (exec_progress _ _ _ _ E min_len_tr) as [Hlt Hle].
    destruct isFirst.
    + rewrite IH by lia. reflexivity.
    + simpl. unfold row_matches, row_anchor, row_path.
      destruct (match_re Re.linkedin_href (group m 1)) as [li|].
      * destruct (str_eqb _ _).
        -- destruct (match_re Re.candidate_href (group m 1)) as [cm|]; [reflexivity|].
           rewrite IH by lia. reflexivity.
        -- rewrite IH by lia. reflexivity.
      * rewrite IH by lia. reflexivity.
  - destruct isFirst; reflexivity.
Qed.

Lemma findLinkedInMatchInSearchResults_spec (html target : str) :
  findLinkedInMatchInSearchResults html target =
  Done match table_of html with
       | None => None
       | Some tableHtml => first_path target (tl (rows_of tableHtml))
       end.
Proof.
  unfold findLinkedInMatchInSearchResults, table_of.
  destruct (match_re Re.table html) as [m|]; [|reflexivity].
  rewrite match_rows_loop_spec by lia. reflexivity.
Qed.

Lemma first_path_absent (target : str) (rows : list str) :
  Forall (fun r => row_matches target r = false \/ row_path r = None) rows ->
  first_path target rows = None.
Proof.
  induction 1 as [|row rows Hrow _ IH]; simpl; [reflexivity|].
  destruct Hrow as [-> | ->]; [exact IH|]. destruct (row_matches target row); exact IH.
Qed.

Lemma first_path_linked (target : str) (before : list str) (row : str)
    (after : list str) (p : str) :
  Forall (fun r => row_matches target r = false \/ row_path r = None) before ->
  row_matches target row = true -> row_path row = Some p ->
  first_path target (before ++ row :: after) = Some p.
Proof.
  intros Hb Hrow Hp. induction Hb as [|r before Hr _ IH]; simpl.
  - rewrite Hrow, Hp. reflexivity.
  - destruct Hr as [-> | ->]; [exact IH|]. destruct (row_matches target r); exact IH.
Qed.

Lemma row_matches_spec (target row : str) :
  row_matches target row = true <->
  exists a, row_anchor row = Some a /\
            normalizeLinkedinUrl a = normalizeLinkedinUrl target.
Proof.
  unfold row_matches. destruct (row_anchor row) as [a|].
  - rewrite str_eqb_eq. split.
    + intros H. exists a. auto.
    + intros (a' & E & H). inversion E; subst. exact H.
  - split; [discriminate|]. intros (a & E & _). discriminate.
Qed.

(** C6, where the claim and the source part: the first row with the profile
    looked for has no link to a detail page; the specification gives [null]
    there, the source goes on and returns the path of a later row. *)
Lemma search_result_unlinked_counterexample :
  findLinkedInMatchInSearchResults unlinked_first_page jane_normal =
    Done (Some ("/candidates/9" : str)) /\
  Claimed.findMatch unlinked_first_page jane_normal = None /\
  findLinkedInMatchInSearchResults unlinked_first_page jane_normal <>
    Done (Claimed.findMatch unlinked_first_page jane_normal).
Proof.
  split; [vm_compute; reflexivity|]. split; [vm_compute; reflexivity|].
  vm_compute. discriminate.
Qed.

(** Where every row with the profile has its link the two agree. *)
Example claimed_match_example :
  Claimed.findMatch results_page jane_normal = Some ("/candidates/12" : str) /\
  findLinkedInMatchInSearchResults results_page jane_normal =
    Done (Claimed.findMatch results_page jane_normal).
Proof. split; vm_compute; reflexivity. Qed.

(** C6, amended.  [findLinkedInMatchInSearchResults] takes the first table
    and leaves its first row out; it returns the path of the detail page of
    the first row after it that has both a profile anchor that normalises to
    the normalised target and a link to a detail page; a row with the anchor
    and without the link is passed over; it returns [null] when no row has
    both and when there is no table. *)
Theorem search_result_first_match (html target tableHtml : str)
    (before after : list str) (row p : str) :
  (table_of html = None ->
   findLinkedInMatchInSearchResults html target = Done None) /\
  (table_of html = Some tableHtml ->
   Forall (fun r => row_matches target r = false \/ row_path r = None)
          (tl (rows_of tableHtml)) ->
   findLinkedInMatchInSearchResults html target = Done None) /\
  (table_of html = Some tableHtml ->
   tl (rows_of tableHtml) = before ++ row :: after ->
   Forall (fun r => row_matches target r = false \/ row_path r = None) before ->
   row_matches target row = true ->
   row_path row = Some p ->
   findLinkedInMatchInSearchResults html target = Done (Some p)).
Proof.
  rewrite findLinkedInMatchInSearchResults_spec. repeat split.
  - intros ->. reflexivity.
  - intros -> H. rewrite first_path_absent by exact H. reflexivity.
  - intros -> -> Hb Hrow Hp. rewrite (first_path_linked _ _ _ _ _ Hb Hrow Hp). reflexivity.
Qed.

Lemma search_result_first_match_witness :
  findLinkedInMatchInSearchResults unlinked_first_page jane_normal =
  Done (Some ("/candidates/9" : str)).
Proof.
  refine (proj2 (proj2 (search_result_first_match unlinked_first_page jane_normal
    (qq ("<tr><th>Name</th><th>LinkedIn</th></tr>" ++
         "<tr><td>Jane</td>" ++
         "<td><a href=`https://www.linkedin.com/in/jane-doe-12345`>in</a></td></tr>" ++
         "<tr><td><a href=`/candidates/9`>Jane Doe</a></td>" ++
         "<td><a href=`https://linkedin.com/in/jane-doe-12345/`>in</a></td></tr>")%string)
    [qq ("<td>Jane</td>" ++
         "<td><a href=`https://www.linkedin.com/in/jane-doe-12345`>in</a></td>")%string]
    []
    (qq ("<td><a href=`/candidates/9`>Jane Doe</a></td>" ++
         "<td><a href=`https://linkedin.com/in/jane-doe-12345/`>in</a></td>")%string)
    "/candidates/9")) _ _ _ _ _).
  - vm_compute. reflexivity.
  - vm_compute. reflexivity.
  - constructor; [right; vm_compute; reflexivity|constructor].
  - vm_compute. reflexivity.
  - vm_compute. reflexivity.
Defined.

(** ** [findOwnerIdForEmail] *)

Lemma options_loop_spec (selectHtml email : str) :
  forall fuel i,
    i <= length selectHtml -> length selectHtml < fuel + i ->
    options_loop fuel selectHtml email i =
    Done match find (label_is email)
                 (map (fun m => (group m 1, group m 2))
                      (all_matches fuel Re.option_tag selectHtml i)) with
         | Some o => fst o
         | None => []
         end.
Proof.
  induction fuel as [|fuel IH]; intros i Hi Hf; [lia|]. simpl.
  destruct (exec Re.option_tag selectHtml i) as [m|] eqn:E; [|reflexivity].
  destruct (exec_progress _ _ _ _ E min_len_option_tag) as [Hlt Hle].
  simpl. unfold label_is at 1. simpl.
  destruct (str_eqb _ _); [reflexivity|].
  rewrite IH by lia. reflexivity.
Qed.

Lemma findOwnerIdForEmail_spec (html email : str) :
  findOwnerIdForEmail html email =
  Done (if is_empty email then []
        else match select_of html with
             | None => []
             | Some selectHtml =>
                 match find (label_is email) (options_of selectHtml) with
                 | Some o => fst o
                 | None => []
                 end
             end).
Proof.
  unfold findOwnerIdForEmail, select_of.
  destruct (is_empty email); [reflexivity|].
  destruct (match_re Re.owner_select html) as [m|]; [|reflexivity].
  rewrite options_loop_spec by lia. reflexivity.
Qed.

Lemma label_is_spec (email : str) (o : str * str) :
  label_is email o = true <-> toLowerCase (trim (snd o)) = toLowerCase email.
Proof. unfold label_is. apply str_eqb_eq. Qed.

Lemma Matches_option_tag (t rest : str) (c : caps) :
  Matches Re.option_tag t rest [] c ->
  exists v lab, c = [(2, lab); (1, v)] /\ v <> [] /\ digits v /\ without "<" lab.
Proof.
  unfold Re.option_tag, many1, many, digits, without.
  rewrite Matches_lit_i_cat. setoid_rewrite Matches_Rep_cat.
  setoid_rewrite Matches_lit_i_cat. setoid_rewrite Matches_Grp_cat.
  setoid_rewrite Matches_Rep_inv. setoid_rewrite Matches_lit_cat.
  setoid_rewrite Matches_Rep_cat. setoid_rewrite Matches_lit_cat.
  setoid_rewrite Matches_Grp_cat. setoid_rewrite Matches_Rep_inv.
  setoid_rewrite Matches_lit_i.
  intros (s1 & t1 & -> & _ & a & t2 & -> & _ & _ & _ & s2 & t3 & -> & _ & v & t4 & c1
          & -> & (Hv & Hv1 & _ & ->) & t5 & -> & b & t6 & -> & _ & _ & _ & t7 & ->
          & lab & t8 & c2 & -> & (Hlab & _ & _ & ->) & _ & ->).
  exists v, lab. rewrite <- nonempty_length. auto.
Qed.

(** Every option the loop goes through has a value made of digits. *)
Lemma all_matches_option_value (fuel : nat) (s : str) (i : nat) :
  Forall (fun m => group m 1 <> [] /\ digits (group m 1))
         (all_matches fuel Re.option_tag s i).
Proof.
  revert i. induction fuel as [|fuel IH]; intros i; simpl; [constructor|].
  destruct (exec Re.option_tag s i) as [m|] eqn:E; [|constructor].
  constructor; [|apply IH].
  apply exec_Some in E as (pre & _ & _ & _ & M).
  apply Matches_option_tag in M as (v & lab & Hc & Hne & Hv & _).
  unfold group. rewrite Hc. simpl. auto.
Qed.

Lemma options_of_value (selectHtml : str) :
  Forall (fun o => fst o <> [] /\ digits (fst o)) (options_of selectHtml).
Proof.
  unfold options_of, matchAll. apply List.Forall_forall. intros o Ho.
  apply in_map_iff in Ho as (m & <- & Hm).
  pose proof (all_matches_option_value (S (length selectHtml)) selectHtml 0) as H.
  rewrite List.Forall_forall in H. apply H, Hm.
Qed.

(** ** The parser on any page *)

(** C10, where the claim fails: the id is read wherever ["/candidates/"] and
    digits occur in the URL, not at its end only. *)
Lemma id_without_numeric_suffix :
  test_re Re.detail_url_end edit_url = false /\
  exists c : candidate,
    parseCandidatePage [] edit_url = Done c /\
    c !! "id"%string = Some (JStr "12").
Proof.
  split; [vm_compute; reflexivity|].
  destruct (parseCandidatePage_fields [] edit_url) as (c & Hc & Hid & _).
  exists c. split; [exact Hc|]. rewrite Hid. vm_compute. reflexivity.
Qed.

(** C10, amended.  The functions of [html-parser.js] return on every input;
    the record of [parseCandidatePage] always has the keys [id], [url],
    [timeline] and [submissions]; the id is the empty string exactly when
    ["/candidates/"] followed by a digit occurs nowhere in the URL; the
    submissions are the empty list when there is no table and when no row
    after the first has five cells. *)
Theorem parser_total (html finalUrl target email : str) :
  (exists (c : candidate) (id : str) (entries : list timeline_entry)
          (subs : list submission),
     parseCandidatePage html finalUrl = Done c /\
     c !! "id"%string = Some (JStr id) /\
     c !! "url"%string = Some (JStr finalUrl) /\
     c !! "timeline"%string = Some (JTimeline entries) /\
     c !! "submissions"%string = Some (JSubmissions subs) /\
     (id = [] <-> ~ has_candidate_id finalUrl) /\
     (table_of html = None -> subs = []) /\
     (forall tableHtml, table_of html = Some tableHtml ->
        Forall (fun row => length (cells_of row) < 5) (tl (rows_of tableHtml)) ->
        subs = [])) /\
  (exists path, findLinkedInMatchInSearchResults html target = Done path) /\
  (exists ownerId, findOwnerIdForEmail html email = Done ownerId) /\
  (exists token, extractCsrfToken html = token) /\
  (exists names, namesFromLinkedinUrl finalUrl = names) /\
  (exists url, normalizeLinkedinUrl finalUrl = url).
Proof.
  split.
  { destruct (parseCandidatePage_fields html finalUrl)
      as (c & Hc & Hid & Hurl & Ht & Hs & _).
    exists c, (id_of finalUrl), (map (timeline_of html) timelineLabels),
      (submissions_of html).
    repeat split; try assumption.
    - apply (id_of_spec finalUrl).
    - apply (id_of_spec finalUrl).
    - unfold submissions_of. intros ->. reflexivity.
    - unfold submissions_of. intros t -> H.
      induction H as [|row rows Hrow _ IH]; [reflexivity|].
      simpl. unfold submission_of at 1.
      destruct (5 <=? length (cells_of row)) eqn:E; [|exact IH].
      apply Nat.leb_le in E. lia. }
  split; [rewrite findLinkedInMatchInSearchResults_spec; eauto|].
  split; [rewrite findOwnerIdForEmail_spec; eauto|].
  repeat split; eauto.
Qed.

Lemma parser_total_witness :
  exists c : candidate,
    parseCandidatePage minimal_page edit_url = Done c /\
    c !! "submissions"%string = Some (JSubmissions []).
Proof.
  destruct (parser_total minimal_page edit_url [] [])
    as ((c & id & entries & subs & Hc & _ & _ & _ & Hs & _ & Hnone & _) & _).
  exists c. split; [exact Hc|]. rewrite Hs. f_equal. f_equal. apply Hnone.
  vm_compute. reflexivity.
Defined.

(** ** The form that creates a candidate *)

Lemma payload_without_owner (createToken : str) (a : create_args) (sourced : str) :
  forall k v, In (k, v) (payload createToken a sourced []) ->
    k <> ("candidate[candidate_owner_id]" : str) /\
    k <> ("candidate[sourced_by_id]" : str).
Proof.
  intros k v H. simpl in H.
  repeat (destruct H as [H|H]; [inversion H; subst; split; discriminate|]).
  destruct H.
Qed.

Lemma payload_with_owner (createToken : str) (a : create_args) (sourced ownerId : str) :
  ownerId <> [] ->
  In (("candidate[candidate_owner_id]" : str), ownerId)
     (payload createToken a sourced ownerId) /\
  In (("candidate[sourced_by_id]" : str), ownerId)
     (payload createToken a sourced ownerId).
Proof.
  intros H. unfold payload. destruct ownerId as [|c o]; [congruence|].
  simpl. split; auto 10.
Qed.

(** ** The client *)

(** *** The requests a call issues *)

Section Issues.
Context {A : Type} (P : request -> Prop).

Lemma Issues_ret (a : A) : Issues P (ret a).
Proof.
  intros tr o tr' H. inversion H; subst. split; [discriminate|].
  exists []. split; [reflexivity|constructor].
Qed.

Lemma Issues_throw (msg : str) : Issues P (throw (A:=A) msg).
Proof.
  intros tr o tr' H. inversion H; subst. split; [discriminate|].
  exists []. split; [reflexivity|constructor].
Qed.

Lemma Issues_settle (p : attempt A) : Issues P (settle p).
Proof. destruct p; [apply Issues_ret|apply Issues_throw]. Qed.

Lemma Issues_of_run (a : A) : Issues P (of_run (Done a)).
Proof. apply Issues_ret. Qed.

Lemma Issues_bind {B : Type} (m : M B) (k : B -> M A) :
  Issues P m -> (forall b, Issues P (k b)) -> Issues P (bind m k).
Proof.
  intros Hm Hk tr o tr' H. unfold bind in H.
  destruct (m tr) as [[b|msg|] tr1] eqn:E.
  - destruct (Hm _ _ _ E) as (_ & new1 & -> & H1).
    destruct (Hk b _ _ _ H) as (Ho & new2 & -> & H2).
    split; [exact Ho|]. exists (new2 ++ new1). split; [apply app_assoc|].
    apply Forall_app. auto.
  - inversion H; subst. destruct (Hm _ _ _ E) as (_ & new1 & -> & H1).
    split; [discriminate|]. eauto.
  - destruct (Hm _ _ _ E) as (Ho & _). congruence.
Qed.

Lemma Issues_try_catch (m : M A) (h : str -> M A) :
  Issues P m -> (forall msg, Issues P (h msg)) -> Issues P (try_catch m h).
Proof.
  intros Hm Hh tr o tr' H. unfold try_catch in H.
  destruct (m tr) as [[a|msg|] tr1] eqn:E.
  - inversion H; subst. apply (Hm _ _ _ E).
  - destruct (Hm _ _ _ E) as (_ & new1 & -> & H1).
    destruct (Hh msg _ _ _ H) as (Ho & new2 & -> & H2).
    split; [exact Ho|]. exists (new2 ++ new1). split; [apply app_assoc|].
    apply Forall_app. auto.
  - destruct (Hm _ _ _ E) as (Ho & _). congruence.
Qed.

End Issues.

Lemma Issues_fetch (P : request -> Prop) (w : world) (rq : request) :
  P rq -> Issues P (fetch w rq).
Proof.
  intros HP tr o tr' H. unfold fetch in H.
  destruct (net w tr rq); inversion H; subst; (split; [discriminate|]);
    exists [rq]; (split; [reflexivity|]); constructor; auto.
Qed.

Lemma Issues_text (P : request -> Prop) (r : response) : Issues P (text r).
Proof. apply Issues_settle. Qed.

Lemma Issues_weaken {A : Type} (P Q : request -> Prop) (m : M A) :
  (forall rq, P rq -> Q rq) -> Issues P m -> Issues Q m.
Proof.
  intros HPQ Hm tr o tr' H. destruct (Hm _ _ _ H) as (Ho & new & -> & Hn).
  split; [exact Ho|]. exists new. split; [reflexivity|].
  eapply Forall_impl; eassumption.
Qed.

Lemma Issues_parse (P : request -> Prop) (html url : str) :
  Issues P (of_run (parseCandidatePage html url)).
Proof.
  destruct (parseCandidatePage_total html url) as [c ->]. apply Issues_ret.
Qed.

Lemma Issues_find (P : request -> Prop) (html url : str) :
  Issues P (of_run (findLinkedInMatchInSearchResults html url)).
Proof. rewrite findLinkedInMatchInSearchResults_spec. apply Issues_ret. Qed.

Lemma Issues_owner (P : request -> Prop) (html email : str) :
  Issues P (of_run (findOwnerIdForEmail html email)).
Proof. rewrite findOwnerIdForEmail_spec. apply Issues_ret. Qed.

(** A step of a proof that a client function issues certain requests
    only. *)
Ltac issues_step :=
  first
    [ apply Issues_ret | apply Issues_throw | apply Issues_text
    | apply Issues_settle | apply Issues_parse | apply Issues_find
    | apply Issues_owner
    | apply Issues_try_catch | apply Issues_bind
    | apply Issues_fetch
    | match goal with
      | |- Issues _ (if ?b then _ else _) => destruct b
      | |- Issues _ (match ?x with _ => _ end) => destruct x
      | |- Issues _ (let '(_, _) := ?x in _) => destruct x
      | |- forall _, _ => intro
      end ].

Ltac issues := unfold getPage, postForm; repeat issues_step.

Lemma isLoggedIn_issues (w : world) : Issues auth_request (isLoggedIn w).
Proof. unfold isLoggedIn. issues. left. reflexivity. Qed.

Lemma doLogin_issues (w : world) (email password : str) :
  Issues auth_request (doLogin w email password).
Proof.
  unfold doLogin. issues.
  - right. left. reflexivity.
  - right. right. eexists. reflexivity.
Qed.

Lemma ensureLoggedIn_issues (w : world) : Issues auth_request (ensureLoggedIn w).
Proof.
  unfold ensureLoggedIn. apply Issues_bind; [apply isLoggedIn_issues|].
  intros []; [apply Issues_ret|].
  apply Issues_bind; [apply Issues_settle|]. intros [e p].
  destruct (negb (truthy e) || negb (truthy p)); [apply Issues_ret|].
  apply Issues_bind; [apply doLogin_issues|]. intros. apply Issues_ret.
Qed.

(** *** [lookupCandidate] *)

Lemma Returns_try_catch {A : Type} (P : request -> Prop) (m : M A) (h : str -> M A) :
  Issues P m -> (forall msg, Returns (h msg)) -> Returns (try_catch m h).
Proof.
  intros Hm Hh tr. unfold try_catch.
  destruct (m tr) as [[a|msg|] tr1] eqn:E.
  - eauto.
  - apply Hh.
  - destruct (Hm _ _ _ E) as (Ho & _). congruence.
Qed.

Lemma Returns_ret {A : Type} (a : A) : Returns (ret a).
Proof. intros tr. exists a, tr. reflexivity. Qed.

(** The three strategies return: a fault inside one is a strategy without
    a match. *)
Lemma lookupByUrlCheck_returns (w : world) (url : str) :
  Returns (lookupByUrlCheck w url).
Proof.
  unfold lookupByUrlCheck. apply (Returns_try_catch (fun _ => True)).
  - issues; exact I.
  - intros. apply Returns_ret.
Qed.

Lemma search_term_returns (w : world) (url term : str) :
  Returns (search_term w url term).
Proof.
  unfold search_term. apply (Returns_try_catch (fun _ => True)).
  - issues; exact I.
  - intros. apply Returns_ret.
Qed.

Lemma search_terms_returns (w : world) (url : str) (terms : list str) :
  Returns (search_terms w url terms).
Proof.
  induction terms as [|t terms IH]; intros tr; simpl.
  - apply Returns_ret.
  - unfold bind. destruct (search_term_returns w url t tr) as (a & tr1 & ->).
    destruct a as [c|]; [eexists _, _; reflexivity|]. apply IH.
Qed.

Lemma lookupByNameSearch_returns (w : world) (url : str) :
  Returns (lookupByNameSearch w url).
Proof. apply search_terms_returns. Qed.

Lemma lookupByExplicitName_returns (w : world) (url fn ln : str) :
  Returns (lookupByExplicitName w url fn ln).
Proof. apply search_terms_returns. Qed.

Lemma lookupCandidate_outcome (w : world) (url fn ln : str) (tr0 : list request) :
  exists res tr',
    lookupCandidate w url fn ln tr0 = (Ret res, tr') /\
    lookup_outcome w url fn ln tr0 res tr'.
Proof.
  unfold lookupCandidate, lookup_outcome, try_catch, bind, hints_present.
  destruct (ensureLoggedIn w tr0) as [[[]|msg|] tr1] eqn:E.
  - simpl. destruct (lookupByUrlCheck_returns w url tr1) as (a & tr2 & Ea). rewrite Ea.
    destruct a as [c|].
    { eexists _, _. split; [reflexivity|]. exists (Some c), tr2.
      repeat split; first [reflexivity|assumption]. }
    destruct (lookupByNameSearch_returns w url tr2) as (b & tr3 & Eb). rewrite Eb.
    destruct b as [c|].
    { eexists _, _. split; [reflexivity|]. exists None, tr2. split; [reflexivity|].
      exists (Some c), tr3. repeat split; first [reflexivity|assumption]. }
    destruct (negb (is_empty fn) || negb (is_empty ln)) eqn:Eh.
    + destruct (lookupByExplicitName_returns w url fn ln tr3) as (d & tr4 & Ed).
      rewrite Ed. destruct d as [c|].
      * eexists _, _. split; [reflexivity|]. exists None, tr2. split; [reflexivity|].
        exists None, tr3. split; [assumption|]. exists (Some c), tr4.
        repeat split; first [reflexivity|assumption].
      * eexists _, _. split; [reflexivity|]. exists None, tr2. split; [reflexivity|].
        exists None, tr3. split; [assumption|]. exists None, tr4.
        repeat split; first [reflexivity|assumption].
    + eexists _, _. split; [reflexivity|]. exists None, tr2. split; [reflexivity|].
      exists None, tr3. repeat split; first [reflexivity|assumption].
  - simpl. eexists _, _. split; [reflexivity|]. split; reflexivity.
  - eexists _, _. split; [reflexivity|]. split; reflexivity.
  - destruct (ensureLoggedIn_issues w _ _ _ E) as [H _]. congruence.
Qed.

(** C2.  [lookupCandidate] first calls [ensureLoggedIn] and returns the
    error of a missing session when that gives [false]; otherwise it runs the
    check of the URL, then the search by the parts of the slug, then, only
    when a first or a last name is given, the search by these names; the
    first strategy with a match gives [Found] with its candidate; the result
    is [NotFound] exactly when every strategy that was tried ended without a
    match; and the call always returns a result: an exception inside it
    becomes an error result. *)
Theorem lookup_strategies (w : world) (url fn ln : str) (tr0 : list request) :
  exists res tr',
    lookupCandidate w url fn ln tr0 = (Ret res, tr') /\
    lookup_outcome w url fn ln tr0 res tr' /\
    (res = NotFound <-> exhausted w url fn ln tr0).
Proof.
  destruct (lookupCandidate_outcome w url fn ln tr0) as (res & tr' & Hrun & Hout).
  exists res, tr'. split; [exact Hrun|]. split; [exact Hout|].
  unfold lookup_outcome in Hout. unfold exhausted.
  destruct (ensureLoggedIn w tr0) as [[[]|msg|] tr1] eqn:E.
  - destruct Hout as (a & tr2 & Ea & Hout). destruct a as [c|].
    { destruct Hout as [-> _]. split; [discriminate|].
      intros (t1 & t2 & t3 & H1 & H2 & _). inversion H1; subst t1. congruence. }
    destruct Hout as (b & tr3 & Eb & Hout). destruct b as [c|].
    { destruct Hout as [-> _]. split; [discriminate|].
      intros (t1 & t2 & t3 & H1 & H2 & H3 & _). inversion H1; subst t1.
      rewrite Ea in H2. inversion H2; subst t2. congruence. }
    destruct (hints_present fn ln) eqn:Eh.
    + destruct Hout as (d & tr4 & Ed & _ & Hout). destruct d as [c|].
      * subst res. split; [discriminate|].
        intros (t1 & t2 & t3 & H1 & H2 & H3 & H4). inversion H1; subst t1.
        rewrite Ea in H2. inversion H2; subst t2.
        rewrite Eb in H3. inversion H3; subst t3.
        destruct (H4 eq_refl) as [t4 H5]. congruence.
      * subst res. split; [|reflexivity]. intros _.
        exists tr1, tr2, tr3. repeat split; try assumption. intros _. eauto.
    + destruct Hout as [-> _]. split; [|reflexivity]. intros _.
      exists tr1, tr2, tr3. repeat split; try assumption. discriminate.
  - destruct Hout as [-> _]. split; [discriminate|].
    intros (t1 & t2 & t3 & H1 & _). discriminate.
  - destruct Hout as [-> _]. split; [discriminate|].
    intros (t1 & t2 & t3 & H1 & _). discriminate.
  - destruct Hout.
Qed.

(** Two runs of [lookupCandidate]: when the check of the URL resolves to the
    page of candidate 42 the result is [Found]; without a session and without
    stored credentials it is the error of a missing session. *)
Example lookup_found_by_url_check :
  exists c tr,
    lookupCandidate world_known (linkedinUrl jane) [] [] [] = (Ret (Found c), tr) /\
    c !! "id"%string = Some (JStr "42").
Proof. vm_compute. eexists _, _. split; reflexivity. Qed.

Example lookup_without_credentials :
  fst (lookupCandidate world_signed_out (linkedinUrl jane) [] [] []) =
  Ret (LookupError not_authenticated).
Proof. vm_compute. reflexivity. Qed.

(** *** [createCandidate] *)

Section Gives.
Context {A : Type} (Q : A -> Prop).

Lemma Gives_ret (a : A) : Q a -> Gives Q (ret a).
Proof. intros H tr b tr' E. inversion E; subst. exact H. Qed.

Lemma Gives_bind {B : Type} (m : M B) (k : B -> M A) :
  (forall b, Gives Q (k b)) -> Gives Q (bind m k).
Proof.
  intros Hk tr a tr' E. unfold bind in E.
  destruct (m tr) as [[b|msg|] tr1]; try discriminate. eapply Hk, E.
Qed.

Lemma Gives_try_catch (m : M A) (h : str -> M A) :
  Gives Q m -> (forall msg, Gives Q (h msg)) -> Gives Q (try_catch m h).
Proof.
  intros Hm Hh tr a tr' E. unfold try_catch in E.
  destruct (m tr) as [[b|msg|] tr1] eqn:Em; try discriminate.
  - inversion E; subst. eapply Hm, Em.
  - eapply Hh, E.
Qed.

End Gives.

Ltac gives_step :=
  first
    [ apply Gives_ret; try discriminate
    | apply Gives_try_catch | apply Gives_bind
    | match goal with
      | |- Gives _ (if ?b then _ else _) => destruct b
      | |- forall _, _ => intro
      end ].

(** The tail of [createCandidate], shared by the two revisions. *)

Lemma submit_issues (w : world) (error_of : str -> nat -> str)
    (createToken : str) (a : create_args) (formHtml : str) :
  Issues (creation_request w createToken a formHtml)
         (submit w error_of createToken a formHtml).
Proof.
  intros tr o tr' H. unfold submit, bind in H.
  destruct (storage w) as [stored|msg] eqn:Es; cbn [settle ret throw] in H.
  2:{ inversion H; subst. split; [discriminate|]. exists []. split; [reflexivity|constructor]. }
  rewrite findOwnerIdForEmail_spec in H. cbn [of_run ret] in H.
  match type of H with context [postForm w ?u ?f] => set (rq := POST u f) in *;
    change (postForm w u f) with (fetch w rq) in H end.
  assert (Hrq : creation_request w createToken a formHtml rq).
  { exists stored. eexists. split; [exact Es|]. split; [apply findOwnerIdForEmail_spec|].
    reflexivity. }
  assert (Hnew : exists new, rq :: tr = new ++ tr /\
                   Forall (creation_request w createToken a formHtml) new).
  { exists [rq]. split; [reflexivity|]. constructor; [exact Hrq|constructor]. }
  unfold fetch in H. destruct (net w tr rq) as [resp|msg].
  2:{ inversion H; subst. split; [discriminate|exact Hnew]. }
  unfold text in H. destruct (r_text resp) as [createHtml|msg]; cbn [settle ret throw] in H.
  2:{ inversion H; subst. split; [discriminate|exact Hnew]. }
  destruct (r_ok resp && test_re Re.detail_url (r_url resp)).
  - destruct (parseCandidatePage_total createHtml (r_url resp)) as [c Hc].
    rewrite Hc in H. cbn [of_run ret] in H. inversion H; subst.
    split; [discriminate|exact Hnew].
  - inversion H; subst. split; [discriminate|exact Hnew].
Qed.

Lemma submit_gives (w : world) (error_of : str -> nat -> str)
    (createToken : str) (a : create_args) (formHtml : str) :
  Gives (fun res => forall c, res <> CreateOk true c)
        (submit w error_of createToken a formHtml).
Proof. unfold submit. repeat gives_step. Qed.

(** The revision that loads the form directly. *)

Lemma auth_request_not_check (rq : request) : auth_request rq -> is_url_check rq = false.
Proof. intros [->|[->|[form ->]]]; reflexivity. Qed.

Lemma auth_request_not_creation (rq : request) : auth_request rq -> is_creation rq = false.
Proof. intros [->|[->|[form ->]]]; reflexivity. Qed.

Lemma creation_request_not_check (w : world) (tok : str) (a : create_args)
    (html : str) (rq : request) :
  creation_request w tok a html rq -> is_url_check rq = false.
Proof. intros (stored & ownerId & _ & _ & ->). reflexivity. Qed.

(** It never asks for the check of the profile URL, and never reports a
    candidate as already there. *)
Lemma FormFirst_no_check (w : world) (a : create_args) :
  Issues (fun rq => is_url_check rq = false) (FormFirst.createCandidate w a) /\
  Gives (fun res => forall c, res <> CreateOk true c) (FormFirst.createCandidate w a).
Proof.
  split.
  - unfold FormFirst.createCandidate. apply Issues_try_catch; [|intros; apply Issues_ret].
    apply Issues_bind.
    { eapply Issues_weaken; [apply auth_request_not_check|apply ensureLoggedIn_issues]. }
    intros loggedIn. destruct (negb loggedIn); [apply Issues_ret|].
    apply Issues_bind; [apply Issues_fetch; reflexivity|]. intros newPage.
    destruct (negb (r_ok newPage)); [apply Issues_ret|].
    apply Issues_bind; [apply Issues_text|]. intros newHtml.
    destruct (is_empty (extractCsrfToken newHtml)); [apply Issues_ret|].
    eapply Issues_weaken; [apply creation_request_not_check|apply submit_issues].
  - unfold FormFirst.createCandidate. apply Gives_try_catch.
    + apply Gives_bind. intros loggedIn. destruct (negb loggedIn).
      { apply Gives_ret. discriminate. }
      apply Gives_bind. intros newPage. destruct (negb (r_ok newPage)).
      { apply Gives_ret. discriminate. }
      apply Gives_bind. intros newHtml.
      destruct (is_empty (extractCsrfToken newHtml)).
      { apply Gives_ret. discriminate. }
      apply submit_gives.
    + intros. apply Gives_ret. discriminate.
Qed.

(** The revision that checks the profile URL first. *)

(** C1.  When the stage of [createCandidate] that checks the profile URL
    resolves to the page of a candidate (a URL that ends in ["/candidates/"]
    and digits), the result says the candidate was already there and
    carries the record parsed from that page, and the call has sent no
    creation request: the requests it issued are those of the session and
    the two of the check. *)
Theorem create_duplicate_short_circuit (w : world) (a : create_args)
    (tr0 tr1 : list request) (checkPage r : response) (checkHtml html : str) :
  ensureLoggedIn w tr0 = (Ret true, tr1) ->
  net w tr1 check_page = Ok checkPage ->
  r_text checkPage = Ok checkHtml ->
  let post := check_post (extractCsrfToken checkHtml) (linkedinUrl a) in
  net w (check_page :: tr1) post = Ok r ->
  r_text r = Ok html ->
  test_re Re.detail_url_end (r_url r) = true ->
  exists c,
    parseCandidatePage html (r_url r) = Done c /\
    CheckFirst.createCandidate w a tr0 =
      (Ret (CreateOk true c), post :: check_page :: tr1) /\
    exists new, post :: check_page :: tr1 = new ++ tr0 /\
                Forall (fun rq => is_creation rq = false) new.
Proof.
  intros He Hget Htext post Hpost Hhtml Hurl.
  destruct (parseCandidatePage_total html (r_url r)) as [c Hc].
  exists c. split; [exact Hc|]. split.
  - unfold CheckFirst.createCandidate, try_catch, bind. rewrite He.
    cbn [negb]. unfold getPage, fetch. fold check_page. rewrite Hget.
    unfold text. rewrite Htext. cbn [settle ret]. unfold postForm, fetch.
    fold (check_post (extractCsrfToken checkHtml) (linkedinUrl a)). fold post.
    rewrite Hpost, Hhtml. cbn [settle ret]. rewrite Hurl, Hc. reflexivity.
  - destruct (ensureLoggedIn_issues w _ _ _ He) as (_ & new & -> & Hnew).
    exists (post :: check_page :: new). split; [reflexivity|].
    constructor; [reflexivity|]. constructor; [reflexivity|].
    eapply List.Forall_impl; [|exact Hnew]. apply auth_request_not_creation.
Qed.

Lemma create_duplicate_short_circuit_witness :
  exists c,
    CheckFirst.createCandidate world_known jane [] =
      (Ret (CreateOk true c),
       [check_post "t0k" "https://www.linkedin.com/in/jane-doe-12345";
        check_page; GET (PARKER_BASE ++ "/") []]) /\
    c !! "id"%string = Some (JStr "42").
Proof.
  destruct (create_duplicate_short_circuit world_known jane [] [GET (PARKER_BASE ++ "/") []]
              (mkResponse true 200 (PARKER_BASE ++ "/candidates/linkedin_url_check")
                 (Ok token_page))
              (mkResponse true 200 (PARKER_BASE ++ "/candidates/42") (Ok minimal_page))
              token_page minimal_page)
    as (c & Hc & Hrun & _); try (vm_compute; reflexivity).
  exists c. split; [exact Hrun|].
  destruct (parseCandidatePage_fields minimal_page (PARKER_BASE ++ "/candidates/42"))
    as (c' & Hc' & Hid & _).
  change (parseCandidatePage minimal_page (PARKER_BASE ++ "/candidates/42") = Done c) in Hc.
  rewrite Hc in Hc'. inversion Hc'; subst c'. rewrite Hid.
  vm_compute. reflexivity.
Defined.

(** The creation request of a run and the form the run loaded. *)

(** The requests of [submit]: none when the storage fails, the creation
    request otherwise. *)
Lemma submit_trace (w : world) (error_of : str -> nat -> str)
    (createToken : str) (a : create_args) (formHtml : str)
    (tr : list request) (o : outcome create_result) (tr' : list request) :
  submit w error_of createToken a formHtml tr = (o, tr') ->
  tr' = tr \/
  exists stored ownerId,
    storage w = Ok stored /\
    findOwnerIdForEmail formHtml (or_default (fst stored) []) = Done ownerId /\
    tr' = POST (PARKER_BASE ++ "/candidates")
            (payload createToken a (or_default (sourcedDate a) (today w)) ownerId) :: tr.
Proof.
  unfold submit. cbv beta zeta delta [bind settle postForm fetch text of_run ret throw].
  destruct (storage w) as [stored|msg] eqn:Es; [|intros E; inversion E; auto].
  rewrite findOwnerIdForEmail_spec.
  intros E. right. exists stored. eexists. split; [reflexivity|].
  split; [apply findOwnerIdForEmail_spec|].
  destruct (net w tr _) as [r|msg]; [|inversion E; reflexivity].
  destruct (r_text r) as [createHtml|msg]; [|inversion E; reflexivity].
  destruct (r_ok r && test_re Re.detail_url (r_url r)).
  - destruct (parseCandidatePage createHtml (r_url r)); inversion E; reflexivity.
  - inversion E; reflexivity.
Qed.

Lemma owner_fields (formHtml email ownerId : str) (createToken sourced : str)
    (a : create_args) :
  findOwnerIdForEmail formHtml email = Done ownerId ->
  (no_owner_option formHtml email ->
   ownerId = [] /\
   omits_owner (POST (PARKER_BASE ++ "/candidates")
                  (payload createToken a sourced ownerId))) /\
  (ownerId <> [] ->
   carries_owner ownerId (POST (PARKER_BASE ++ "/candidates")
                            (payload createToken a sourced ownerId))).
Proof.
  intros E. split.
  - intros Hno. assert (ownerId = []) as ->.
    { rewrite findOwnerIdForEmail_spec in E. inversion E as [E'].
      destruct Hno as [->|[->|(selectHtml & -> & Hall)]]; [reflexivity| |].
      - destruct (is_empty email); reflexivity.
      - rewrite (find_all_false _ _ Hall). destruct (is_empty email); reflexivity. }
    split; [reflexivity|]. intros k v. apply payload_without_owner.
  - intros Hne. apply payload_with_owner, Hne.
Qed.

Lemma auth_requests_no_creation (new : list request) :
  Forall auth_request new -> Forall (fun rq => is_creation rq = false) new.
Proof.
  apply List.Forall_impl. intros rq H. apply auth_request_not_creation, H.
Qed.

Lemma FormFirst_created_from (w : world) (a : create_args)
    (tr : list request) (o : outcome create_result) (tr' : list request) :
  FormFirst.createCandidate w a tr = (o, tr') ->
  sends_no_creation tr tr' \/
  exists formHtml email ownerId rq,
    created_from w a new_form tr' formHtml email ownerId rq.
Proof.
  unfold FormFirst.createCandidate, try_catch, bind at 1.
  destruct (ensureLoggedIn w tr) as [ol tr1] eqn:El.
  destruct (ensureLoggedIn_issues w tr ol tr1 El) as [_ (new1 & -> & Hnew1)].
  apply auth_requests_no_creation in Hnew1.
  assert (Hnone : sends_no_creation tr (new1 ++ tr)) by (exists new1; auto).
  assert (Hform : sends_no_creation tr (new_form :: new1 ++ tr)).
  { exists (new_form :: new1). split; [reflexivity|]. constructor; [reflexivity|exact Hnew1]. }
  destruct ol as [loggedIn|msg|]; [|intros E; inversion E; subst; auto
                                   |intros E; inversion E; subst; auto].
  destruct loggedIn; cbn [negb]; [|intros E; inversion E; subst; auto].
  cbv beta zeta delta [bind getPage fetch text settle ret throw].
  change (GET (PARKER_BASE ++ "/candidates/new") []) with new_form.
  destruct (net w (new1 ++ tr) new_form) as [newPage|msg] eqn:En;
    [|intros E; inversion E; subst; auto].
  destruct (negb (r_ok newPage)); [intros E; inversion E; subst; auto|].
  destruct (r_text newPage) as [newHtml|msg] eqn:Et;
    [|intros E; inversion E; subst; auto].
  destruct (is_empty (extractCsrfToken newHtml)); [intros E; inversion E; subst; auto|].
  destruct (submit w FormFirst.error_of (extractCsrfToken newHtml) a newHtml
              (new_form :: new1 ++ tr)) as [os trs] eqn:Es.
  intros E. assert (tr' = trs) as -> by (destruct os; inversion E; reflexivity). clear E.
  destruct (submit_trace _ _ _ _ _ _ _ _ Es) as [->|(stored & ownerId & Hst & Ho & ->)];
    [auto|].
  right. exists newHtml, (or_default (fst stored) []), ownerId. eexists.
  exists (new1 ++ tr), newPage, stored. repeat split; try eassumption; reflexivity.
Qed.

Lemma CheckFirst_created_from (w : world) (a : create_args)
    (tr : list request) (o : outcome create_result) (tr' : list request) :
  CheckFirst.createCandidate w a tr = (o, tr') ->
  sends_no_creation tr tr' \/
  exists token formHtml email ownerId rq,
    created_from w a (check_post token (linkedinUrl a)) tr' formHtml email ownerId rq.
Proof.
  unfold CheckFirst.createCandidate, try_catch, bind at 1.
  destruct (ensureLoggedIn w tr) as [ol tr1] eqn:El.
  destruct (ensureLoggedIn_issues w tr ol tr1 El) as [_ (new1 & -> & Hnew1)].
  apply auth_requests_no_creation in Hnew1.
  assert (Hnone : sends_no_creation tr (new1 ++ tr)) by (exists new1; auto).
  assert (Hpage : sends_no_creation tr (check_page :: new1 ++ tr)).
  { exists (check_page :: new1). split; [reflexivity|]. constructor; [reflexivity|exact Hnew1]. }
  assert (Hpost : forall token,
            sends_no_creation tr (check_post token (linkedinUrl a) :: check_page :: new1 ++ tr)).
  { intros token. exists (check_post token (linkedinUrl a) :: check_page :: new1).
    split; [reflexivity|]. repeat constructor. exact Hnew1. }
  destruct ol as [loggedIn|msg|]; [|intros E; inversion E; subst; auto
                                   |intros E; inversion E; subst; auto].
  destruct loggedIn; cbn [negb]; [|intros E; inversion E; subst; auto].
  cbv beta zeta delta [bind getPage postForm fetch text settle ret throw of_run].
  change (GET (PARKER_BASE ++ "/candidates/linkedin_url_check") []) with check_page.
  destruct (net w (new1 ++ tr) check_page) as [checkPage|msg];
    [|intros E; inversion E; subst; auto].
  destruct (r_text checkPage) as [checkHtml|msg]; [|intros E; inversion E; subst; auto].
  change (POST (PARKER_BASE ++ "/candidates/check_linkedin_url")
            [("authenticity_token" : str, extractCsrfToken checkHtml);
             ("linkedin_url" : str, linkedinUrl a)])
    with (check_post (extractCsrfToken checkHtml) (linkedinUrl a)).
  specialize (Hpost (extractCsrfToken checkHtml)).
  destruct (net w (check_page :: new1 ++ tr) _) as [urlCheckResp|msg] eqn:En;
    [|intros E; inversion E; subst; auto].
  destruct (r_text urlCheckResp) as [urlCheckHtml|msg] eqn:Et;
    [|intros E; inversion E; subst; auto].
  destruct (test_re Re.detail_url_end (r_url urlCheckResp)).
  { destruct (parseCandidatePage urlCheckHtml (r_url urlCheckResp));
      intros E; inversion E; subst; auto. }
  destruct (submit w CheckFirst.error_of (extractCsrfToken urlCheckHtml) a urlCheckHtml
              (check_post (extractCsrfToken checkHtml) (linkedinUrl a)
               :: check_page :: new1 ++ tr)) as [os trs] eqn:Es.
  intros E. assert (tr' = trs) as -> by (destruct os; inversion E; reflexivity). clear E.
  destruct (submit_trace _ _ _ _ _ _ _ _ Es) as [->|(stored & ownerId & Hst & Ho & ->)];
    [auto|].
  right. exists (extractCsrfToken checkHtml), urlCheckHtml, (or_default (fst stored) []), ownerId.
  eexists. exists (check_page :: new1 ++ tr), urlCheckResp, stored.
  repeat split; try eassumption; reflexivity.
Qed.

(** C9.  The owner id is the value of the first option of the owner select
    whose label, trimmed and in lower case, equals the e-mail in lower case;
    without such an option, without the select, and with an empty e-mail it
    is the empty string.  A run of [createCandidate], in both revisions,
    either sends no creation request, or sends it last, right after the
    request that loaded the form: the form it posts is the payload built
    with the token of that page and the owner id resolved on that page with
    the stored e-mail; when no option of that page matches, the request has
    neither the owner nor the sourced-by field, and when an id is resolved
    it has both, with that id. *)
Theorem owner_resolution (w : world) (a : create_args)
    (html email selectHtml v lab : str) (before after : list (str * str))
    (tr : list request) (o : outcome create_result) (tr' : list request) :
  findOwnerIdForEmail html [] = Done [] /\
  (select_of html = None -> findOwnerIdForEmail html email = Done []) /\
  (select_of html = Some selectHtml ->
   Forall (fun o => label_is email o = false) (options_of selectHtml) ->
   findOwnerIdForEmail html email = Done []) /\
  (email <> [] -> select_of html = Some selectHtml ->
   options_of selectHtml = before ++ (v, lab) :: after ->
   Forall (fun o => label_is email o = false) before ->
   toLowerCase (trim lab) = toLowerCase email ->
   findOwnerIdForEmail html email = Done v /\ v <> []) /\
  (FormFirst.createCandidate w a tr = (o, tr') ->
   sends_no_creation tr tr' \/
   exists formHtml storedEmail ownerId rq,
     created_from w a new_form tr' formHtml storedEmail ownerId rq /\
     (no_owner_option formHtml storedEmail -> ownerId = [] /\ omits_owner rq) /\
     (ownerId <> [] -> carries_owner ownerId rq)) /\
  (CheckFirst.createCandidate w a tr = (o, tr') ->
   sends_no_creation tr tr' \/
   exists token formHtml storedEmail ownerId rq,
     created_from w a (check_post token (linkedinUrl a)) tr' formHtml storedEmail
       ownerId rq /\
     (no_owner_option formHtml storedEmail -> ownerId = [] /\ omits_owner rq) /\
     (ownerId <> [] -> carries_owner ownerId rq)).
Proof.
  split; [reflexivity|]. rewrite findOwnerIdForEmail_spec. split.
  { intros ->. destruct (is_empty email); reflexivity. }
  split.
  { intros -> H. rewrite (find_all_false _ _ H). destruct (is_empty email); reflexivity. }
  split.
  { intros Hne -> Ho Hb Hlab.
    assert (Hx : label_is email (v, lab) = true) by (apply label_is_spec; exact Hlab).
    rewrite Ho, (find_first_true _ _ _ _ Hb Hx).
    destruct email as [|e email]; [congruence|]. split; [reflexivity|].
    pose proof (options_of_value selectHtml) as Hall. rewrite Ho in Hall.
    apply List.Forall_forall with (x := (v, lab)) in Hall; [apply Hall|].
    apply in_or_app. right. left. reflexivity. }
  split.
  - intros E. destruct (FormFirst_created_from _ _ _ _ _ E)
      as [H|(formHtml & stored & ownerId & rq & H)]; [left; exact H|].
    right. exists formHtml, stored, ownerId, rq. split; [exact H|].
    destruct H as (tr1 & r & st & _ & _ & _ & _ & _ & Ho & ->).
    apply (owner_fields _ _ _ _ _ _ Ho).
  - intros E. destruct (CheckFirst_created_from _ _ _ _ _ E)
      as [H|(token & formHtml & stored & ownerId & rq & H)]; [left; exact H|].
    right. exists token, formHtml, stored, ownerId, rq. split; [exact H|].
    destruct H as (tr1 & r & st & _ & _ & _ & _ & _ & Ho & ->).
    apply (owner_fields _ _ _ _ _ _ Ho).
Qed.

Lemma owner_resolution_witness :
  (findOwnerIdForEmail form_page "me@example.com" = Done ("7" : str) /\
   ("7" : str) <> []) /\
  exists rq,
    snd (FormFirst.createCandidate world_new jane []) = [rq; new_form; probe] /\
    carries_owner "7" rq.
Proof.
  destruct (owner_resolution world_new jane form_page "me@example.com"
    (qq ("<option value=``>Pick</option>" ++
         "<option value=`3`>joe@example.com</option>" ++
         "<option value=`7`> Me@Example.com </option>")%string)
    "7" " Me@Example.com "
    [(("3" : str), ("joe@example.com" : str))] [] []
    (fst (FormFirst.createCandidate world_new jane []))
    (snd (FormFirst.createCandidate world_new jane [])))
    as (_ & _ & _ & H4 & H5 & _).
  split.
  { apply H4.
    - discriminate.
    - vm_compute. reflexivity.
    - vm_compute. reflexivity.
    - constructor; [vm_compute; reflexivity|constructor].
    - vm_compute. reflexivity. }
  assert (E : snd (FormFirst.createCandidate world_new jane []) =
              [POST (PARKER_BASE ++ "/candidates")
                 (payload "t0k" jane "2026-01-15" "7"); new_form; probe])
    by (vm_compute; reflexivity).
  exists (POST (PARKER_BASE ++ "/candidates") (payload "t0k" jane "2026-01-15" "7")).
  split; [exact E|].
  destruct H5 as [(new & Hn & Hf)|(formHtml & stored & ownerId & rq & Hc & _ & Hyes)].
  - apply surjective_pairing.
  - exfalso. rewrite E, app_nil_r in Hn. subst new.
    inversion Hf as [|? ? Hrq _]. vm_compute in Hrq. discriminate Hrq.
  - destruct Hc as (tr1 & r & st & Htr & _ & _ & _ & _ & _ & Hrq).
    assert (Hq : POST (PARKER_BASE ++ "/candidates") (payload "t0k" jane "2026-01-15" "7") = rq).
    { rewrite E in Htr. exact (f_equal (hd probe) Htr). }
    rewrite Hq. destruct ownerId as [|x ownerId].
    + exfalso. rewrite Hrq in Hq. vm_compute in Hq. discriminate Hq.
    + assert (Hid : x :: ownerId = ("7" : str)).
      { rewrite Hrq in Hq. unfold payload in Hq. cbn [is_empty app] in Hq.
        injection Hq. intros. subst. reflexivity. }
      rewrite <- Hid. apply Hyes. discriminate.
Defined.

(** * Further properties of the parser, the client and the pages *)

(** ** [extractCsrfToken] *)

Lemma shape_token_nonempty (html : str) (r : regex) (shape : str -> str -> Prop) :
  (forall t rest c, Matches r t rest [] c <-> exists tok, shape tok t /\ c = [(1, tok)]) ->
  (forall tok t, shape tok t -> tok <> []) ->
  match match_re r html with
  | Some m => decodeHtmlEntities (group m 1) <> [] /\ exists tok, Holds shape html tok
  | None => forall tok, ~ Holds shape html tok
  end.
Proof.
  intros Hr Hne. pose proof (match_re_shape r shape html Hr) as H.
  destruct (match_re r html) as [m|]; [|exact H].
  split; [|eauto]. apply decode_nonempty.
  destruct H as (pre & t & post & _ & Hs). exact (Hne _ _ Hs).
Qed.

Lemma meta_shape_nonempty (tok t : str) : meta_shape tok t -> tok <> [].
Proof. intros (w1 & w2 & _ & _ & _ & H & _). exact H. Qed.

Lemma input_name_value_shape_nonempty (tok t : str) :
  input_name_value_shape tok t -> tok <> [].
Proof. intros (a & b & _ & _ & _ & H & _). exact H. Qed.

Lemma input_value_name_shape_nonempty (tok t : str) :
  input_value_name_shape tok t -> tok <> [].
Proof. intros (a & b & _ & _ & _ & H & _). exact H. Qed.

(** X3.  [extractCsrfToken] gives the empty text exactly when none of the
    three shapes occurs in the page: a token that is found is never empty,
    also after its entities are decoded. *)
Theorem extract_token_empty (html : str) :
  extractCsrfToken html = [] <->
  (forall tok, ~ Holds meta_shape html tok) /\
  (forall tok, ~ Holds input_name_value_shape html tok) /\
  (forall tok, ~ Holds input_value_name_shape html tok).
Proof.
  pose proof (shape_token_nonempty html _ _ Matches_meta_token meta_shape_nonempty) as H1.
  pose proof (shape_token_nonempty html _ _ Matches_input_name_value
                input_name_value_shape_nonempty) as H2.
  pose proof (shape_token_nonempty html _ _ Matches_input_value_name
                input_value_name_shape_nonempty) as H3.
  unfold extractCsrfToken.
  destruct (match_re Re.meta_token html) as [m1|].
  { destruct H1 as [Hne [tok Htok]]. split; [contradiction|].
    intros (H & _). destruct (H _ Htok). }
  destruct (match_re Re.input_name_value html) as [m2|].
  { destruct H2 as [Hne [tok Htok]]. split; [contradiction|].
    intros (_ & H & _). destruct (H _ Htok). }
  destruct (match_re Re.input_value_name html) as [m3|].
  { destruct H3 as [Hne [tok Htok]]. split; [contradiction|].
    intros (_ & _ & H). destruct (H _ Htok). }
  split; auto.
Qed.

(** ** Tags *)

Lemma Matches_tag (t rest : str) (c c' : caps) :
  Matches Re.tag t rest c c' <->
  exists b, t = ("<" : str) ++ b ++ (">" : str) /\ without ">" b /\ c' = c.
Proof.
  unfold Re.tag, many. rewrite Matches_lit_cat. setoid_rewrite Matches_Rep_cat.
  setoid_rewrite Matches_lit. split.
  - intros (t' & -> & u & t'' & -> & Hu & _ & _ & -> & ->). exists u. auto.
  - intros (b & -> & Hb & ->). exists (b ++ (">" : str)). split; [reflexivity|].
    exists b, (">" : str). repeat split; auto. lia.
Qed.

Lemma min_len_tag : 1 <= min_len Re.tag.
Proof. simpl. lia. Qed.

(** Up to the first [">"]. *)
Lemma split_at_first (p : ascii -> bool) (s : str) :
  forallb p s = true \/
  exists b a rest, s = b ++ a :: rest /\ forallb p b = true /\ p a = false.
Proof.
  induction s as [|x s IH]; [left; reflexivity|].
  destruct (p x) eqn:E.
  - destruct IH as [H|(b & a & rest & -> & Hb & Ha)].
    + left. simpl. rewrite E. exact H.
    + right. exists (x :: b), a, rest. simpl. rewrite E. auto.
  - right. exists [], x, s. auto.
Qed.

Lemma not_in_one (x a : ascii) : not_in [x] a = false <-> a = x.
Proof.
  unfold not_in. simpl. rewrite orb_false_r, negb_false_iff. apply Char_eqb_eq.
Qed.

Lemma tag_in_Occurs (s : str) : tag_in s <-> Occurs Re.tag s.
Proof.
  split.
  - intros (a & b & c & ->).
    destruct (split_at_first (not_in ">") b) as [Hb|(b1 & x & b2 & -> & Hb1 & Hx)].
    + exists a, (("<" : str) ++ b ++ (">" : str)), c, []. split.
      * rewrite <- !app_assoc. reflexivity.
      * apply Matches_tag. exists b. auto.
    + apply not_in_one in Hx. subst x.
      exists a, (("<" : str) ++ b1 ++ (">" : str)), (b2 ++ (">" : str) ++ c), []. split.
      * rewrite <- !app_assoc. reflexivity.
      * apply Matches_tag. exists b1. auto.
  - intros (pre & t & rest & c & -> & M). apply Matches_tag in M as (b & -> & _ & _).
    exists pre, b, rest. rewrite <- !app_assoc. reflexivity.
Qed.

Lemma tag_in_cons (a : ascii) (s : str) :
  tag_in (a :: s) -> tag_in s \/ (a = "<"%char /\ without ">" s -> False) /\ a = "<"%char.
Proof.
  intros (x & b & c & H). destruct x as [|x0 x].
  - simpl in H. inversion H; subst. right. split; [|reflexivity].
    intros [_ Hw]. apply without_app in Hw as [_ Hw].
    unfold without in Hw. simpl in Hw. discriminate.
  - simpl in H. inversion H; subst. left. exists x, b, c. reflexivity.
Qed.

Lemma tag_in_app_l (rep s : str) : without "<" rep -> tag_in (rep ++ s) -> tag_in s.
Proof.
  induction rep as [|a rep IH]; intros Hrep H; [exact H|].
  unfold without in Hrep. simpl in Hrep. apply andb_true_iff in Hrep as [Ha Hrep].
  simpl in H. apply tag_in_cons in H as [H|[_ ->]]; [auto|].
  vm_compute in Ha. discriminate.
Qed.

Lemma tag_in_part (a s b : str) : tag_in s -> tag_in (a ++ s ++ b).
Proof.
  intros (x & y & z & ->). exists (a ++ x), y, (z ++ b).
  rewrite <- !app_assoc. reflexivity.
Qed.

(** Where the tag pattern has no match and a ["<"] stands, nothing after it
    closes a tag. *)
Lemma ms_tag_none (s' : str) : ms Re.tag ("<"%char :: s') [] = [] -> without ">" s'.
Proof.
  intros E. destruct (split_at_first (not_in ">") s') as [H|(b & x & rest & -> & Hb & Hx)];
    [exact H|].
  apply not_in_one in Hx. subst x. exfalso.
  assert (M : Matches Re.tag (("<" : str) ++ b ++ (">" : str)) rest [] []).
  { apply Matches_tag. exists b. auto. }
  apply ms_complete in M. rewrite <- !app_assoc in M. simpl in M, E.
  rewrite E in M. destruct M.
Qed.

Lemma without_no_tag (s : str) : without ">" s -> ~ Occurs Re.tag s.
Proof.
  intros Hs (pre & t & rest & c & -> & M). apply Matches_tag in M as (b & -> & _).
  apply without_app in Hs as [_ Hs]. apply without_app in Hs as [Hs _].
  apply without_app in Hs as [_ Hs]. apply without_app in Hs as [_ Hs].
  vm_compute in Hs. discriminate.
Qed.

(** Replacing every tag by a text without ["<"] leaves no tag. *)
Lemma replace_tags_no_tag (rep s : str) :
  without "<" rep -> ~ tag_in (replace_all Re.tag rep s).
Proof.
  intros Hrep. revert s.
  apply (replace_all_ind Re.tag rep (fun _ out => ~ tag_in out) min_len_tag).
  - intros (a & b & c & H). destruct a; discriminate.
  - intros a s' E IH H. apply tag_in_cons in H as [H|[Hc ->]]; [auto|].
    apply Hc. split; [reflexivity|]. pose proof (ms_tag_none _ E) as Hw.
    rewrite replace_all_absent; [exact Hw|exact min_len_tag|].
    apply without_no_tag, Hw.
  - intros t rest c _ _ _ IH H. apply IH. exact (tag_in_app_l _ _ Hrep H).
Qed.

(** ** Trimming *)

Lemma trimStart_head (s : str) :
  match trimStart s with a :: _ => Char.is_space a = false | [] => True end.
Proof.
  induction s as [|a s IH]; simpl; [exact I|].
  destruct (Char.is_space a) eqn:E; [exact IH|exact E].
Qed.

Lemma trimStart_fixed (s : str) :
  match s with a :: _ => Char.is_space a = false | [] => True end -> trimStart s = s.
Proof. destruct s as [|a s]; simpl; [reflexivity|]. intros ->. reflexivity. Qed.

Lemma trimStart_idem (s : str) : trimStart (trimStart s) = trimStart s.
Proof. apply trimStart_fixed, trimStart_head. Qed.

Lemma trimEnd_idem (s : str) : trimEnd (trimEnd s) = trimEnd s.
Proof. unfold trimEnd. rewrite rev_involutive, trimStart_idem. reflexivity. Qed.

Lemma trim_idem (s : str) : trim (trim s) = trim s.
Proof.
  unfold trim. set (y := trimStart s).
  assert (Hz : trimStart (trimEnd y) = trimEnd y).
  { apply trimStart_fixed. destruct (trimEnd_prefix y) as [ws Hws].
    pose proof (trimStart_head s) as Hh. fold y in Hh.
    destruct (trimEnd y) as [|a z]; [exact I|].
    rewrite Hws in Hh. exact Hh. }
  rewrite Hz. apply trimEnd_idem.
Qed.

Lemma trimmed_trim (s : str) : trimmed (trim s).
Proof. apply trim_idem. Qed.

Lemma tag_in_trim (s : str) : tag_in (trim s) -> tag_in s.
Proof.
  intros H. destruct (trim_parts s) as (w1 & w2 & Hs). rewrite Hs.
  apply tag_in_part, H.
Qed.

Lemma clean_stripped (s : str) : clean (trim (strip_tags s)).
Proof.
  split; [apply trimmed_trim|]. intros H. apply tag_in_trim in H.
  revert H. apply replace_tags_no_tag. reflexivity.
Qed.

Lemma dd_text_clean (r : regex) (html v : str) : dd_text r html = Some v -> clean v.
Proof.
  unfold dd_text. destruct (match_re r html); [|discriminate].
  intros [= <-]. apply clean_stripped.
Qed.

Lemma text_field_clean (r : regex) (html v : str) :
  text_field (dd_text r html) = Some (JStr v) -> clean v /\ v <> [].
Proof.
  unfold text_field. destruct (dd_text r html) as [s|] eqn:E; [|discriminate].
  destruct s as [|a s]; [discriminate|]. intros [= <-].
  split; [exact (dd_text_clean _ _ _ E)|discriminate].
Qed.

(** ** The profile link *)

Lemma eq_i_without (cs l k : str) :
  eq_i l k ->
  forallb (fun y => forallb (fun x => negb (Char.eqb (Char.fold y) (Char.fold x))) cs) k = true ->
  without cs l.
Proof.
  revert k. induction l as [|x l IH]; intros k Hk Hcs; [reflexivity|].
  destruct k as [|y k]; [apply eq_i_nil_r in Hk; discriminate|].
  apply eq_i_cons in Hk as [Hxy Hk]. simpl in Hcs. apply andb_true_iff in Hcs as [Hy Hcs].
  unfold without. simpl. fold (without cs l). rewrite (IH k Hk Hcs), andb_true_r.
  unfold not_in. apply negb_true_iff. apply not_true_iff_false. intros Hex.
  apply existsb_exists in Hex as (z & Hz & Hxz). apply Char_eqb_eq in Hxz. subst z.
  rewrite forallb_forall in Hy. specialize (Hy x Hz). rewrite <- Hxy in Hy.
  rewrite Char_eqb_refl in Hy. discriminate.
Qed.

Lemma Matches_linkedin_href (t rest : str) (c : caps) :
  Matches Re.linkedin_href t rest [] c ->
  exists a l b, c = [(1, a ++ l ++ b)] /\ eq_i l "linkedin.com/in/" /\ b <> [] /\
                without [dq] (a ++ l ++ b).
Proof.
  unfold Re.linkedin_href, many, many1. rewrite Matches_lit_i_cat.
  intros (h & t' & -> & _ & M). apply Matches_Grp_cat in M as (u & t'' & c1 & -> & Mg & Mq).
  apply Matches_lit in Mq as [-> ->].
  apply Matches_Rep_cat in Mg as (a & u' & -> & Ha & _ & _ & Mg).
  apply Matches_lit_i_cat in Mg as (l & b & -> & Hl & Mg).
  apply Matches_Rep_inv in Mg as (Hb & Hlen & _ & ->).
  exists a, l, b. repeat split; auto.
  - destruct b; [simpl in Hlen; lia|discriminate].
  - apply without_app. split; [exact Ha|]. apply without_app. split; [|exact Hb].
    apply (eq_i_without _ _ _ Hl). reflexivity.
Qed.

(** ** The text fields of a candidate page *)

(** X6.  In the record of [parseCandidatePage] the name, when there is one,
    is trimmed and holds no tag; [sourced_by], [current_owner] and
    [location], when present, are trimmed, hold no tag and are not empty;
    [location] is never ["N/A"]; and [linkedin_url], when present, holds no
    double quote and has ["linkedin.com/in/"], in any case, with at least
    one character after it. *)
Theorem candidate_text_fields (html finalUrl : str) :
  exists c : candidate,
    parseCandidatePage html finalUrl = Done c /\
    (forall v, c !! "name"%string = Some (JStr v) -> clean v) /\
    (forall k v, In k ["sourced_by"; "current_owner"; "location"]%string ->
                 c !! k = Some (JStr v) -> clean v /\ v <> []) /\
    c !! "location"%string <> Some (JStr "N/A") /\
    (forall v, c !! "linkedin_url"%string = Some (JStr v) ->
       without [dq] v /\
       exists a l b, v = a ++ l ++ b /\ eq_i l "linkedin.com/in/" /\ b <> []).
Proof.
  destruct (parseCandidatePage_fields html finalUrl)
    as (c & Hc & _ & _ & _ & _ & Hname & Hsb & How & Hloc & Hli).
  exists c. split; [exact Hc|]. split; [|split; [|split]].
  - intros v. rewrite Hname. destruct (match_re Re.h1 html); [|discriminate].
    intros [= <-]. apply clean_stripped.
  - intros k v [<-|[<-|[<-|[]]]] H.
    + rewrite Hsb in H. exact (text_field_clean _ _ _ H).
    + rewrite How in H. exact (text_field_clean _ _ _ H).
    + rewrite Hloc in H. destruct (dd_text Re.location html) as [loc|] eqn:E; [|discriminate].
      destruct (is_empty loc || str_eqb loc "N/A") eqn:E2; [discriminate|].
      injection H as <-. split; [exact (dd_text_clean _ _ _ E)|].
      intros ->. discriminate.
  - rewrite Hloc. destruct (dd_text Re.location html) as [loc|]; [|discriminate].
    destruct (is_empty loc || str_eqb loc "N/A") eqn:E; [discriminate|].
    intros [= ->]. vm_compute in E. discriminate.
  - intros v H. rewrite Hli in H.
    destruct (match_re Re.linkedin_href html) as [m|] eqn:E; [|discriminate].
    injection H as <-. apply match_re_Some in E as (_ & _ & _ & M & _).
    apply Matches_linkedin_href in M as (a & l & b & Hcaps & Hl & Hb & Hw).
    rewrite (group_of_caps _ _ _ _ Hcaps). split; [exact Hw|].
    exists a, l, b. auto.
Qed.

(** ** The submissions *)

Lemma cells_of_clean (rowHtml : str) : Forall clean (cells_of rowHtml).
Proof.
  unfold cells_of. apply List.Forall_forall. intros x Hx.
  apply in_map_iff in Hx as (m & <- & _). apply clean_stripped.
Qed.

Lemma submission_of_clean (cells : list str) :
  Forall clean cells -> Forall clean_submission (submission_of cells).
Proof.
  intros H. unfold submission_of. destruct (5 <=? length cells) eqn:E; [|constructor].
  apply Nat.leb_le in E. constructor; [|constructor].
  rewrite List.Forall_forall in H.
  unfold clean_submission, cell; cbn [s_role s_company s_stage s_dates s_owner].
  repeat split; apply H, nth_In; lia.
Qed.

Lemma submission_of_length (cells : list str) : length (submission_of cells) <= 1.
Proof. unfold submission_of. destruct (5 <=? length cells); simpl; lia. Qed.

Lemma flat_map_length_le {A B : Type} (f : A -> list B) (l : list A) :
  (forall x, length (f x) <= 1) -> length (flat_map f l) <= length l.
Proof.
  intros H. induction l as [|x l IH]; simpl; [lia|].
  rewrite length_app. specialize (H x). lia.
Qed.

(** X8.  [parseSubmissionsTable] ends for every page.  Its result is, for
    the rows of the first table after the first row, in their order, one
    submission for each row of five cells or more, made of its first five
    cells; every field is trimmed and holds no tag; without a table the
    result is empty, and there are fewer submissions than rows. *)
Theorem submissions_of_rows (html : str) :
  exists subs,
    parseSubmissionsTable html = Done subs /\
    subs = submissions_of html /\
    Forall clean_submission subs /\
    (table_of html = None -> subs = []) /\
    (forall tableHtml, table_of html = Some tableHtml ->
       length subs <= length (rows_of tableHtml) - 1).
Proof.
  exists (submissions_of html). split; [apply parseSubmissionsTable_spec|].
  split; [reflexivity|]. unfold submissions_of.
  destruct (table_of html) as [tableHtml|]; repeat split; try discriminate; try constructor.
  - apply Forall_flat_map. apply List.Forall_forall. intros row _.
    apply submission_of_clean, cells_of_clean.
  - intros t [= <-].
    pose proof (flat_map_length_le (fun row => submission_of (cells_of row))
                  (tl (rows_of tableHtml)) (fun row => submission_of_length _)) as H.
    destruct (rows_of tableHtml); simpl in *; lia.
Qed.

(** ** [namesFromLinkedinUrl]: the shape of the parts *)

Lemma split_on_parts (sep : ascii) (p : ascii -> bool) (s : str) :
  forallb p s = true ->
  Forall (fun t => forallb (fun a => p a && negb (Char.eqb a sep)) t = true)
         (split_on sep s).
Proof.
  induction s as [|a s IH]; intros H; [repeat constructor|].
  simpl in H. apply andb_true_iff in H as [Ha H]. specialize (IH H).
  cbn [split_on]. destruct (Char.eqb a sep) eqn:E.
  - constructor; [reflexivity|exact IH].
  - destruct (split_on sep s) as [|t ts]; [repeat constructor; simpl; rewrite Ha, E; reflexivity|].
    inversion IH as [|? ? Ht Hts]; subst. constructor; [|exact Hts].
    simpl. rewrite Ha, E, Ht. reflexivity.
Qed.

Lemma forallb_firstn {A : Type} (p : A -> bool) (n : nat) (l : list A) :
  forallb p l = true -> forallb p (firstn n l) = true.
Proof.
  intros H. rewrite <- (firstn_skipn n l), forallb_app in H.
  apply andb_true_iff in H as [H _]. exact H.
Qed.

Lemma replace_id_suffix_prefix (p : ascii -> bool) (slug : str) :
  forallb p slug = true -> forallb p (replace_re Re.id_suffix [] slug) = true.
Proof.
  intros H. unfold replace_re. destruct (match_re Re.id_suffix slug) as [m|] eqn:E; [|exact H].
  apply match_re_Some in E as (pre & Hs & _ & M & _).
  apply Matches_id_suffix in M as (l & d1 & d2 & _ & _ & _ & _ & _ & _ & Hrest & _).
  rewrite Hrest, app_nil_r. apply forallb_firstn, H.
Qed.

Lemma forallb_pointwise {A : Type} (p q : A -> bool) (l : list A) :
  (forall a, p a = q a) -> forallb p l = forallb q l.
Proof. intros H. induction l as [|a l IH]; simpl; [reflexivity|]. rewrite H, IH. reflexivity. Qed.

Lemma tokensFromSlug_parts (slug : str) :
  without "/?" slug ->
  Forall (fun t => 2 <= length t /\ without "-/?" t) (tokensFromSlug slug).
Proof.
  intros H. unfold tokensFromSlug. apply List.Forall_forall. intros t Ht.
  apply list_elem_of_In, list_elem_of_filter in Ht as [Hlen Ht].
  apply list_elem_of_In in Ht. apply Is_true_true, Nat.ltb_lt in Hlen. split; [lia|].
  pose proof (split_on_parts "-" _ _ (replace_id_suffix_prefix _ _ H)) as Hall.
  rewrite List.Forall_forall in Hall. specialize (Hall t Ht).
  unfold without. erewrite forallb_pointwise; [exact Hall|].
  intros a. unfold not_in. simpl. rewrite !orb_false_r.
  destruct (Char.eqb a "-"), (Char.eqb a "/"), (Char.eqb a "?"); reflexivity.
Qed.

Lemma names_parts (url : str) :
  Forall (fun t => 2 <= length t /\ without "-/?" t) (namesFromLinkedinUrl url).
Proof.
  unfold namesFromLinkedinUrl. destruct (match_re Re.in_slug url) as [m|] eqn:E; [|constructor].
  apply match_re_Some in E as (_ & _ & _ & M & _).
  apply Matches_in_slug in M as (slug & _ & _ & Hslug & Hc).
  rewrite (group_of_caps _ _ _ _ Hc). apply tokensFromSlug_parts, Hslug.
Qed.

(** X5.  Every name part [namesFromLinkedinUrl] gives has two characters
    or more and holds no hyphen, no slash and no question mark. *)
Theorem name_parts_shape (url : str) :
  Forall (fun t => 2 <= length t /\ without "-/?" t) (namesFromLinkedinUrl url).
Proof. exact (names_parts url). Qed.

(** ** A literal and the run that follows it *)

Lemma Matches_lit_run (k : str) (p : ascii -> bool) (t rest : str) (c : caps) :
  Matches (Cat (lit k) (Grp 1 (many1 p))) t rest [] c <->
  exists run, t = k ++ run /\ run <> [] /\ forallb p run = true /\ c = [(1, run)].
Proof.
  rewrite Matches_lit_cat. unfold many1. setoid_rewrite Matches_Grp_inv.
  setoid_rewrite Matches_Rep_inv. split.
  - intros (t' & -> & c1 & (Hp & Hlen & _ & ->) & ->). exists t'.
    repeat split; auto. destruct t'; [simpl in Hlen; lia|discriminate].
  - intros (run & -> & Hne & Hp & ->). exists run. split; [reflexivity|].
    exists []. repeat split; auto. destruct run; [congruence|simpl; lia].
Qed.

(** The leftmost match of a literal followed by a run: when the literal does
    not occur earlier, the group is the whole run. *)
Lemma match_lit_run (k : str) (p : ascii -> bool) (pre run post : str) :
  k <> [] ->
  includes k (pre ++ removelast k) = false ->
  run <> [] -> forallb p run = true ->
  match post with a :: _ => p a = false | [] => True end ->
  exists m, match_re (Cat (lit k) (Grp 1 (many1 p))) (pre ++ k ++ run ++ post) = Some m /\
            group m 1 = run.
Proof.
  intros Hk Hpre Hne Hrun Hpost.
  assert (M0 : Matches (Cat (lit k) (Grp 1 (many1 p))) (k ++ run) post [] [(1, run)]).
  { apply Matches_lit_run. exists run. auto. }
  assert (Hocc : Occurs (Cat (lit k) (Grp 1 (many1 p))) (pre ++ k ++ run ++ post)).
  { exists pre, (k ++ run), post, [(1, run)]. split; [|exact M0].
    rewrite <- !app_assoc. reflexivity. }
  destruct (match_re_Occurs _ _ Hocc) as [m E]. exists m. split; [exact E|].
  apply match_re_Some in E as (pre' & Hs & _ & M & [others Hhd] & Hleft).
  apply Matches_lit_run in M as (run' & Ht & Hne' & Hrun' & Hc).
  assert (Hpos : pre' = pre /\ run' ++ m_rest m = run ++ post).
  { rewrite Ht, <- !app_assoc in Hs.
    destruct (app_eq_cases _ _ _ _ Hs) as [(x & -> & Hx)|(x & Hx & -> & Hy)].
    - destruct x as [|x0 x].
      + rewrite app_nil_r. split; [reflexivity|].
        simpl in Hx. apply app_inv_head in Hx. symmetry. exact Hx.
      + exfalso. specialize (Hleft pre (x0 :: x) eq_refl ltac:(discriminate)).
        apply ms_complete in M0. rewrite Ht in Hleft.
        rewrite <- !app_assoc in Hleft, M0. rewrite <- Hx in Hleft.
        rewrite Hleft in M0. destruct M0.
    - exfalso.
      assert (Hsw : starts_with k (x ++ removelast k) = true).
      { apply (starts_with_short _ _ ([List.last k "a"%char] ++ run ++ post)).
        - rewrite <- app_assoc, (app_assoc (removelast k)).
          rewrite <- (app_removelast_last _ Hk), <- Hy.
          apply starts_with_app. eexists. reflexivity.
        - rewrite length_app.
          pose proof (f_equal (@length ascii) (app_removelast_last "a"%char Hk)) as Hl.
          rewrite length_app in Hl. simpl in Hl.
          destruct x; [congruence|]. simpl. lia. }
      apply starts_with_app in Hsw as [r Hr].
      assert (Hin : includes k ((pre' ++ x) ++ removelast k) = true).
      { apply includes_spec. exists pre', r. rewrite <- app_assoc, Hr. reflexivity. }
      congruence. }
  destruct Hpos as [-> Hrest].
  rewrite Ht, <- app_assoc in Hhd. rewrite ms_lit_cat in Hhd.
  assert (Hsw : starts_with k (k ++ run' ++ m_rest m) = true).
  { apply starts_with_app. eexists. reflexivity. }
  rewrite Hsw, skipn_app_exact, Hrest in Hhd.
  assert (Hlen : run_length p (run ++ post) = length run).
  { apply run_length_exact; assumption. }
  destruct (ms_Grp_greedy 1 1 p (run ++ post) []) as [others' Hg].
  { rewrite Hlen. apply nonempty_length, Hne. }
  unfold many1 in Hhd. rewrite Hg in Hhd. inversion Hhd as [[Hr Hcaps]].
  rewrite (group_of_caps m 1 _ _ (eq_sym Hcaps)).
  rewrite Hlen, firstn_app, Nat.sub_diag, firstn_all. simpl. apply app_nil_r.
Qed.

(** X7.  The id of the record is the whole run of digits that follows the
    first ["/candidates/"] of the resolved URL, when a digit follows it. *)
Theorem candidate_id_first (html pre ds post : str) :
  includes "/candidates/" (pre ++ "/candidates") = false ->
  ds <> [] -> digits ds ->
  match post with a :: _ => Char.is_digit a = false | [] => True end ->
  exists c : candidate,
    parseCandidatePage html (pre ++ "/candidates/" ++ ds ++ post) = Done c /\
    c !! "id"%string = Some (JStr ds).
Proof.
  intros Hpre Hne Hds Hpost.
  destruct (parseCandidatePage_fields html (pre ++ "/candidates/" ++ ds ++ post))
    as (c & Hc & Hid & _).
  exists c. split; [exact Hc|]. rewrite Hid. do 2 f_equal. unfold id_of.
  destruct (match_lit_run "/candidates/" Char.is_digit pre ds post) as (m & E & Hg);
    try assumption; try discriminate.
  unfold Re.candidate_id. rewrite E. exact Hg.
Qed.

Lemma candidate_id_first_witness :
  exists c : candidate,
    parseCandidatePage minimal_page edit_url = Done c /\
    c !! "id"%string = Some (JStr "12").
Proof.
  apply (candidate_id_first minimal_page "https://parker.candidatelabs.com" "12" "/edit");
    try reflexivity. discriminate.
Defined.

(** ** [findLinkedInMatchInSearchResults]: what a returned path is *)

Lemma Matches_candidate_href (t rest : str) (c : caps) :
  Matches Re.candidate_href t rest [] c -> exists p, c = [(1, p)] /\ detail_path p.
Proof.
  unfold Re.candidate_href, many1. rewrite Matches_lit_cat.
  intros (t' & -> & M). apply Matches_Grp_cat in M as (u & t'' & c1 & -> & Mg & Mq).
  apply Matches_lit in Mq as [-> ->].
  apply Matches_lit_cat in Mg as (ds & -> & Mg).
  apply Matches_Rep_inv in Mg as (Hds & Hlen & _ & ->).
  exists (("/candidates/" : str) ++ ds). split; [reflexivity|].
  exists ds. repeat split; auto. destruct ds; [simpl in Hlen; lia|discriminate].
Qed.

Lemma row_path_shape (row p : str) : row_path row = Some p -> detail_path p.
Proof.
  unfold row_path. destruct (match_re Re.candidate_href row) as [m|] eqn:E; [|discriminate].
  intros [= <-]. apply match_re_Some in E as (_ & _ & _ & M & _).
  apply Matches_candidate_href in M as (p & Hc & Hp).
  rewrite (group_of_caps _ _ _ _ Hc). exact Hp.
Qed.

Lemma first_path_Some (target : str) (rows : list str) (p : str) :
  first_path target rows = Some p ->
  exists before row after,
    rows = before ++ row :: after /\
    row_matches target row = true /\ row_path row = Some p /\
    Forall (fun r => row_matches target r = false \/ row_path r = None) before.
Proof.
  induction rows as [|row rows IH]; [discriminate|]. cbn [first_path].
  destruct (row_matches target row) eqn:Em.
  - destruct (row_path row) as [q|] eqn:Ep.
    + intros [= <-]. exists [], row, rows. auto.
    + intros H. destruct (IH H) as (b & r & a & -> & Hm & Hp & Hb).
      exists (row :: b), r, a. repeat split; auto.
  - intros H. destruct (IH H) as (b & r & a & -> & Hm & Hp & Hb).
    exists (row :: b), r, a. repeat split; auto.
Qed.

Lemma search_result_path (html target p : str) :
  findLinkedInMatchInSearchResults html target = Done (Some p) -> detail_path p.
Proof.
  rewrite findLinkedInMatchInSearchResults_spec.
  destruct (table_of html) as [tableHtml|]; [|discriminate].
  intros [= H]. destruct (first_path_Some _ _ _ H) as (b & r & a & _ & _ & Hp & _).
  exact (row_path_shape _ _ Hp).
Qed.

(** X9.  A path [findLinkedInMatchInSearchResults] returns is
    ["/candidates/"] and digits; it is the link of a row, after the first
    row of the first table, whose profile anchor normalises to the
    normalised target, and every row before it fails to match or has no
    such link. *)
Theorem search_result_sound (html target p : str) :
  findLinkedInMatchInSearchResults html target = Done (Some p) ->
  detail_path p /\
  exists tableHtml before row after,
    table_of html = Some tableHtml /\
    tl (rows_of tableHtml) = before ++ row :: after /\
    row_matches target row = true /\ row_path row = Some p /\
    Forall (fun r => row_matches target r = false \/ row_path r = None) before.
Proof.
  rewrite findLinkedInMatchInSearchResults_spec.
  destruct (table_of html) as [tableHtml|]; [|discriminate].
  intros [= H]. destruct (first_path_Some _ _ _ H) as (b & r & a & Hrows & Hm & Hp & Hb).
  split; [exact (row_path_shape _ _ Hp)|]. exists tableHtml, b, r, a. auto.
Qed.

Lemma search_result_sound_witness :
  detail_path "/candidates/12" /\
  exists tableHtml before row after,
    table_of results_page = Some tableHtml /\
    tl (rows_of tableHtml) = before ++ row :: after /\
    row_matches jane_normal row = true /\ row_path row = Some ("/candidates/12" : str) /\
    Forall (fun r => row_matches jane_normal r = false \/ row_path r = None) before.
Proof.
  apply (search_result_sound results_page jane_normal "/candidates/12").
  vm_compute. reflexivity.
Defined.

(** ** [normalizeLinkedinUrl]: what it does not tell apart *)

Lemma trimStart_all_space (w : str) : forallb Char.is_space w = true -> trimStart w = [].
Proof.
  induction w as [|a w IH]; [reflexivity|]. simpl. intros H.
  apply andb_true_iff in H as [-> H]. exact (IH H).
Qed.

Lemma trimStart_app_space (w s : str) :
  forallb Char.is_space w = true -> trimStart (w ++ s) = trimStart s.
Proof.
  induction w as [|a w IH]; [reflexivity|]. simpl. intros H.
  apply andb_true_iff in H as [-> H]. exact (IH H).
Qed.

Lemma trimStart_app_keep (s t : str) :
  forallb Char.is_space s = false -> trimStart (s ++ t) = trimStart s ++ t.
Proof.
  induction s as [|a s IH]; [discriminate|]. simpl.
  destruct (Char.is_space a); [exact IH|reflexivity].
Qed.

Lemma trimEnd_app_space (s w : str) :
  forallb Char.is_space w = true -> trimEnd (s ++ w) = trimEnd s.
Proof.
  intros H. unfold trimEnd. rewrite rev_app_distr, trimStart_app_space; [reflexivity|].
  rewrite forallb_forall in *. intros x Hx. apply H, in_rev, Hx.
Qed.

Lemma trim_app_space (s w : str) :
  forallb Char.is_space w = true -> trim (s ++ w) = trim s.
Proof.
  intros H. unfold trim. destruct (forallb Char.is_space s) eqn:E.
  - rewrite !trimStart_all_space; [reflexivity|exact E|].
    rewrite forallb_app, E, H. reflexivity.
  - rewrite trimStart_app_keep by exact E. apply trimEnd_app_space, H.
Qed.

Lemma trim_around (w1 s w2 : str) :
  forallb Char.is_space w1 = true -> forallb Char.is_space w2 = true ->
  trim (w1 ++ s ++ w2) = trim s.
Proof.
  intros H1 H2. rewrite app_assoc, trim_app_space by exact H2.
  unfold trim. rewrite trimStart_app_space by exact H1. reflexivity.
Qed.

Lemma toLowerCase_space (w : str) :
  forallb Char.is_space (toLowerCase w) = forallb Char.is_space w.
Proof.
  induction w as [|a w IH]; [reflexivity|]. simpl. rewrite is_space_lower, IH. reflexivity.
Qed.

Lemma ends_with_space_lower (s : str) :
  ends_with_space (toLowerCase s) = ends_with_space s.
Proof.
  unfold ends_with_space, toLowerCase. rewrite <- map_rev.
  destruct (rev s); [reflexivity|]. simpl. apply is_space_lower.
Qed.

Lemma trimEnd_fixed (s : str) : ends_with_space s = false -> trimEnd s = s.
Proof.
  unfold ends_with_space, trimEnd. intros H.
  rewrite trimStart_fixed, rev_involutive; [reflexivity|].
  destruct (rev s); [exact I|exact H].
Qed.

Lemma ends_with_space_app (s : str) (a : ascii) :
  ends_with_space (s ++ [a]) = Char.is_space a.
Proof. unfold ends_with_space. rewrite rev_app_distr. reflexivity. Qed.

Lemma ends_with_space_suffix (w s : str) :
  s <> [] -> ends_with_space (w ++ s) = ends_with_space s.
Proof.
  intros Hs. unfold ends_with_space. rewrite rev_app_distr.
  destruct (rev s) eqn:E; [|reflexivity].
  apply (f_equal (@rev ascii)) in E. rewrite rev_involutive in E. contradiction.
Qed.

(** Trimming a text that does not end with white space, with a slash put
    after it. *)
Lemma trim_app_slash (s : str) :
  ends_with_space s = false -> trim (s ++ "/") = trim s ++ ("/" : str).
Proof.
  intros H. change ("/" : str) with ["/"%char].
  unfold trim. destruct (forallb Char.is_space s) eqn:E.
  - destruct s as [|a s]; [reflexivity|]. exfalso.
    rewrite forallb_forall in E.
    destruct (exists_last (l:=a :: s) ltac:(discriminate)) as (s0 & z & Hz).
    rewrite Hz, ends_with_space_app in H.
    rewrite (E z) in H; [discriminate|]. rewrite Hz. apply in_or_app. right. left. reflexivity.
  - rewrite trimStart_app_keep by exact E.
    rewrite trimEnd_fixed by (rewrite ends_with_space_app; reflexivity).
    rewrite trimEnd_fixed; [reflexivity|].
    destruct (trimStart_suffix s) as [ws Hws].
    destruct (trimStart s) as [|b t] eqn:Et.
    + reflexivity.
    + rewrite Hws, ends_with_space_suffix in H by discriminate. exact H.
Qed.

Lemma replace_str_app_char (pat rep s : str) (c : ascii) :
  pat <> [] -> (forall p, pat <> p ++ [c]) ->
  replace_str pat rep (s ++ [c]) = replace_str pat rep s ++ [c].
Proof.
  intros Hne Hlast.
  assert (Hsw : forall y, starts_with pat (y ++ [c]) = starts_with pat y).
  { intros y. destruct (starts_with pat (y ++ [c])) eqn:E.
    - apply starts_with_app in E as [r Hr].
      destruct (exists_last (l:=pat ++ r)) as (r0 & z & Hz).
      { destruct pat; [congruence|discriminate]. }
      destruct r as [|x r] using rev_ind.
      + rewrite app_nil_r in Hr. symmetry in Hr. destruct (Hlast _ Hr).
      + clear IHr. rewrite app_assoc in Hr. apply app_inj_tail in Hr as [-> _].
        symmetry. apply starts_with_app. eexists. reflexivity.
    - destruct (starts_with pat y) eqn:E'; [|reflexivity].
      rewrite (starts_with_prefix _ _ [c] E') in E. discriminate. }
  induction s as [|a s IH].
  - specialize (Hsw []). cbn [app] in *. cbn [replace_str]. rewrite Hsw.
    destruct pat as [|p0 pat]; [congruence|]. reflexivity.
  - cbn [replace_str app]. change (a :: s ++ [c]) with ((a :: s) ++ [c]).
    rewrite Hsw. destruct (starts_with pat (a :: s)) eqn:E.
    + rewrite <- app_assoc. f_equal. apply starts_with_app in E as [r Hr].
      rewrite Hr, <- app_assoc, !skipn_app_exact. reflexivity.
    + simpl. rewrite IH. reflexivity.
Qed.

Lemma strip_slashes_app_slash (s : str) : strip_slashes (s ++ "/") = strip_slashes s.
Proof.
  induction s as [|a s IH]; [reflexivity|].
  cbn [app strip_slashes]. change (a :: s ++ "/") with ((a :: s) ++ ("/" : str)).
  rewrite forallb_app. change (forallb (Char.exactly "/") ("/" : str)) with true.
  rewrite andb_true_r. destruct (forallb (Char.exactly "/") (a :: s)); [reflexivity|].
  rewrite IH. reflexivity.
Qed.

Lemma normalize_app_slash (u : str) :
  ends_with_space u = false -> normalizeLinkedinUrl (u ++ "/") = normalizeLinkedinUrl u.
Proof.
  intros H. rewrite !normalize_unfold. unfold toLowerCase. rewrite map_app.
  change (map Char.lower ("/" : str)) with ("/" : str). fold (toLowerCase u).
  rewrite trim_app_slash by (rewrite ends_with_space_lower; exact H).
  change ("/" : str) with ["/"%char].
  rewrite !replace_str_app_char;
    try discriminate;
    try (intros p Hp; apply (f_equal (@rev ascii)) in Hp; rewrite rev_app_distr in Hp;
         discriminate).
  apply (strip_slashes_app_slash _).
Qed.

Lemma normalize_app_slashes (u sl : str) :
  forallb (Char.exactly "/") sl = true -> ends_with_space u = false ->
  normalizeLinkedinUrl (u ++ sl) = normalizeLinkedinUrl u.
Proof.
  revert u. induction sl as [|a sl IH]; intros u Hsl Hu; [rewrite app_nil_r; reflexivity|].
  simpl in Hsl. apply andb_true_iff in Hsl as [Ha Hsl].
  apply Char_eqb_eq in Ha. subst a.
  change (u ++ "/"%char :: sl) with (u ++ ("/" : str) ++ sl). rewrite app_assoc.
  rewrite IH; [apply normalize_app_slash, Hu|exact Hsl|].
  exact (ends_with_space_app u "/").
Qed.

Lemma normalize_around (w1 u w2 : str) :
  forallb Char.is_space w1 = true -> forallb Char.is_space w2 = true ->
  normalizeLinkedinUrl (w1 ++ u ++ w2) = normalizeLinkedinUrl u.
Proof.
  intros H1 H2. rewrite !normalize_unfold. unfold toLowerCase. rewrite !map_app.
  fold (toLowerCase w1) (toLowerCase u) (toLowerCase w2).
  rewrite trim_around by (rewrite toLowerCase_space; assumption). reflexivity.
Qed.

Lemma normalize_case (u v : str) :
  toLowerCase u = toLowerCase v -> normalizeLinkedinUrl u = normalizeLinkedinUrl v.
Proof. intros H. rewrite !normalize_unfold, H. reflexivity. Qed.

(** X4.  [normalizeLinkedinUrl] does not tell apart URLs that differ in the
    case of their letters, in white space around them, or, for a URL that
    does not end with white space, in slashes at its end. *)
Theorem normalize_insensitive (u v w1 w2 sl : str) :
  (toLowerCase u = toLowerCase v -> normalizeLinkedinUrl u = normalizeLinkedinUrl v) /\
  (forallb Char.is_space w1 = true -> forallb Char.is_space w2 = true ->
   normalizeLinkedinUrl (w1 ++ u ++ w2) = normalizeLinkedinUrl u) /\
  (forallb (Char.exactly "/") sl = true -> ends_with_space u = false ->
   normalizeLinkedinUrl (u ++ sl) = normalizeLinkedinUrl u).
Proof.
  split; [apply normalize_case|]. split; [apply normalize_around|].
  apply normalize_app_slashes.
Qed.

Lemma normalize_insensitive_witness :
  normalizeLinkedinUrl jane_http = normalizeLinkedinUrl jane_shouted /\
  normalizeLinkedinUrl ((" " : str) ++ jane_http ++ newline) = normalizeLinkedinUrl jane_http /\
  normalizeLinkedinUrl (jane_http ++ "//") = normalizeLinkedinUrl jane_http.
Proof.
  destruct (normalize_insensitive jane_http jane_shouted " " newline "//")
    as (H1 & H2 & H3).
  split; [apply H1; reflexivity|]. split; [apply H2; reflexivity|apply H3; reflexivity].
Defined.

(** ** [findOwnerIdForEmail]: what a returned id is *)

Lemma find_Some_In {A : Type} (f : A -> bool) (l : list A) (x : A) :
  find f l = Some x -> In x l /\ f x = true.
Proof. apply find_some. Qed.

Lemma owner_id_digits (html email : str) :
  exists id,
    findOwnerIdForEmail html email = Done id /\ digits id /\
    (id <> [] ->
     email <> [] /\
     exists selectHtml lab,
       select_of html = Some selectHtml /\
       In (id, lab) (options_of selectHtml) /\
       toLowerCase (trim lab) = toLowerCase email).
Proof.
  rewrite findOwnerIdForEmail_spec.
  assert (Hno : exists id : str, Done ([] : str) = Done id /\ digits id /\
            (id <> [] -> email <> [] /\
             exists selectHtml lab, select_of html = Some selectHtml /\
               In (id, lab) (options_of selectHtml) /\
               toLowerCase (trim lab) = toLowerCase email)).
  { exists []. split; [reflexivity|]. split; [reflexivity|congruence]. }
  destruct email as [|e0 email]; [exact Hno|]. cbn [is_empty].
  destruct (select_of html) as [selectHtml|]; [|exact Hno].
  destruct (find (label_is (e0 :: email)) (options_of selectHtml)) as [[v lab]|] eqn:E;
    [|exact Hno].
  apply find_Some_In in E as [Hin Hlab]. apply label_is_spec in Hlab.
  pose proof (options_of_value selectHtml) as Hall. rewrite List.Forall_forall in Hall.
  destruct (Hall _ Hin) as [_ Hd]. exists v. split; [reflexivity|].
  split; [exact Hd|]. intros _.
  split; [discriminate|]. exists selectHtml, lab. auto.
Qed.

Lemma owner_id_case (html e1 e2 : str) :
  toLowerCase e1 = toLowerCase e2 ->
  findOwnerIdForEmail html e1 = findOwnerIdForEmail html e2.
Proof.
  intros H. rewrite !findOwnerIdForEmail_spec.
  assert (He : is_empty e1 = is_empty e2).
  { destruct e1, e2; try reflexivity; discriminate. }
  rewrite He. destruct (is_empty e2); [reflexivity|].
  destruct (select_of html) as [selectHtml|]; [|reflexivity].
  assert (Hf : forall o, label_is e1 o = label_is e2 o).
  { intros o. unfold label_is. rewrite H. reflexivity. }
  f_equal. induction (options_of selectHtml) as [|o l IH]; [reflexivity|].
  simpl. rewrite Hf. destruct (label_is e2 o); [reflexivity|exact IH].
Qed.

(** X10.  [findOwnerIdForEmail] ends for every page; the id it gives is made
    of digits; an id that is not empty is the value of an option of the
    owner select whose label, trimmed and in lower case, is the e-mail in
    lower case; and two e-mails that differ in case only get the same
    id. *)
Theorem owner_id_sound (html email other : str) :
  (exists id,
     findOwnerIdForEmail html email = Done id /\ digits id /\
     (id <> [] ->
      email <> [] /\
      exists selectHtml lab,
        select_of html = Some selectHtml /\
        In (id, lab) (options_of selectHtml) /\
        toLowerCase (trim lab) = toLowerCase email)) /\
  (toLowerCase email = toLowerCase other ->
   findOwnerIdForEmail html email = findOwnerIdForEmail html other).
Proof. split; [apply owner_id_digits|apply owner_id_case]. Qed.

Lemma owner_id_sound_witness :
  findOwnerIdForEmail form_page "me@example.com" =
  findOwnerIdForEmail form_page "ME@Example.COM".
Proof.
  apply (proj2 (owner_id_sound form_page "me@example.com" "ME@Example.COM")).
  reflexivity.
Defined.

(** ** The error text of a rejected creation *)

Lemma min_len_spaces : 1 <= min_len Re.spaces.
Proof. simpl. lia. Qed.

Lemma ms_spaces_none (a : ascii) (s : str) :
  ms Re.spaces (a :: s) [] = [] -> Char.is_space a = false.
Proof.
  intros E. destruct (Char.is_space a) eqn:Ea; [|reflexivity]. exfalso.
  assert (M : Matches Re.spaces [a] s [] []).
  { apply Matches_Rep_inv. simpl. rewrite Ea. repeat split; auto. }
  apply ms_complete in M. simpl app in M. rewrite E in M. destruct M.
Qed.

Lemma skipn_run_length (p : ascii -> bool) (s : str) :
  match skipn (run_length p s) s with a :: _ => p a = false | [] => True end.
Proof.
  induction s as [|a s IH]; [exact I|]. simpl.
  destruct (p a) eqn:E; [exact IH|exact E].
Qed.

Lemma ms_spaces_first (s rest : str) (c : caps) (l : list (str * caps)) :
  ms Re.spaces s [] = (rest, c) :: l -> head_not_space rest.
Proof.
  unfold Re.spaces, many1. cbn [ms]. unfold rep_counts, rep_top.
  intros E.
  assert (Hin : In (rest, c) (ms (Rep false 1 None Char.is_space) s [])).
  { cbn [ms]. unfold rep_counts, rep_top. rewrite E. left. reflexivity. }
  apply ms_sound in Hin as (t & Ht & M). apply Matches_Rep_inv in M as (Hp & Hlen & _).
  assert (Hrun : 1 <= run_length Char.is_space s).
  { rewrite Ht. pose proof (run_length_app Char.is_space t rest Hp). lia. }
  replace (S (run_length Char.is_space s) - 1) with (S (run_length Char.is_space s - 1)) in E
    by lia.
  rewrite seq_S, rev_app_distr in E. simpl in E. inversion E as [[Hr Hc]].
  replace (S (run_length Char.is_space s - 1)) with (run_length Char.is_space s) by lia.
  apply (skipn_run_length Char.is_space s).
Qed.

Lemma single_spaced_cons_keep (a : ascii) (s : str) :
  Char.is_space a = false -> single_spaced (a :: s) = single_spaced s.
Proof. intros H. cbn [single_spaced]. rewrite H. reflexivity. Qed.

Lemma single_spaced_space (s : str) :
  head_not_space s -> single_spaced s = true -> single_spaced (" "%char :: s) = true.
Proof.
  intros Hh Hs. cbn [single_spaced]. rewrite Hs, andb_true_r.
  change (Char.is_space " ") with true. cbn iota.
  change (Char.eqb " " " ") with true. cbn [andb].
  destruct s as [|b s]; [reflexivity|]. simpl in Hh. rewrite Hh. reflexivity.
Qed.

(** Replacing each run of white space by one space. *)
Lemma spaces_collapse (s : str) :
  single_spaced (replace_all Re.spaces " " s) = true /\
  (head_not_space s -> head_not_space (replace_all Re.spaces " " s)).
Proof.
  revert s.
  apply (replace_all_ind Re.spaces " "
           (fun s out => single_spaced out = true /\
                         (head_not_space s -> head_not_space out)) min_len_spaces).
  - split; [reflexivity|auto].
  - intros a s' E [IH1 IH2]. apply ms_spaces_none in E. split.
    + rewrite single_spaced_cons_keep by exact E. exact IH1.
    + intros _. exact E.
  - intros t rest c Hne M [l Hl] [IH1 IH2]. split.
    + apply (single_spaced_space (replace_all Re.spaces " " rest)); [|exact IH1].
      apply IH2. exact (ms_spaces_first _ _ _ _ Hl).
    + intros Hh. exfalso. apply Matches_Rep_inv in M as (Hp & _ & _).
      destruct t as [|a t]; [congruence|]. simpl in Hp, Hh.
      apply andb_true_iff in Hp as [Hp _]. congruence.
Qed.

Lemma single_spaced_tail (a : ascii) (s : str) :
  single_spaced (a :: s) = true -> single_spaced s = true.
Proof. cbn [single_spaced]. intros H. apply andb_true_iff in H as [_ H]. exact H. Qed.

Lemma single_spaced_suffix (x y : str) : single_spaced (x ++ y) = true -> single_spaced y = true.
Proof.
  induction x as [|a x IH]; [auto|]. intros H. apply IH.
  exact (single_spaced_tail _ _ H).
Qed.

Lemma single_spaced_prefix (x y : str) : single_spaced (x ++ y) = true -> single_spaced x = true.
Proof.
  induction x as [|a x IH]; [reflexivity|]. cbn [app single_spaced]. intros H.
  apply andb_true_iff in H as [Ha H]. rewrite (IH H), andb_true_r.
  destruct (Char.is_space a); [|reflexivity].
  apply andb_true_iff in Ha as [Ha1 Ha2]. rewrite Ha1. cbn [andb].
  destruct x as [|b x]; [reflexivity|]. exact Ha2.
Qed.

Lemma single_spaced_trim (s : str) : single_spaced s = true -> single_spaced (trim s) = true.
Proof.
  intros H. destruct (trim_parts s) as (w1 & w2 & Hs). rewrite Hs in H.
  apply single_spaced_suffix in H. exact (single_spaced_prefix _ _ H).
Qed.

(** Collapsing white space brings no tag. *)
Lemma spaces_no_tag (s : str) :
  (tag_in (replace_all Re.spaces " " s) -> tag_in s) /\
  (without ">" s -> without ">" (replace_all Re.spaces " " s)).
Proof.
  revert s.
  apply (replace_all_ind Re.spaces " "
           (fun s out => (tag_in out -> tag_in s) /\
                         (without ">" s -> without ">" out)) min_len_spaces).
  - split; auto.
  - intros a s' _ [IH1 IH2]. split.
    + intros H. apply tag_in_cons in H as [H|[Hc ->]].
      * apply (tag_in_part [a] s' []) in IH1; [|exact H].
        rewrite app_nil_r in IH1. exact IH1.
      * destruct (split_at_first (not_in ">") s') as [Hw|(b & x & rest & -> & _ & Hx)].
        { destruct Hc. split; [reflexivity|exact (IH2 Hw)]. }
        apply not_in_one in Hx. subst x. exists [], b, rest. reflexivity.
    + intros H. unfold without in *. simpl in *.
      apply andb_true_iff in H as [Ha H]. rewrite Ha. exact (IH2 H).
  - intros t rest c _ _ _ [IH1 IH2]. split.
    + intros H. apply tag_in_app_l in H; [|reflexivity].
      apply (tag_in_part t rest []) in IH1; [|exact H].
      rewrite app_nil_r in IH1. exact IH1.
    + intros H. apply without_app in H as [_ H]. apply without_app.
      split; [reflexivity|exact (IH2 H)].
Qed.

(** The text of a status: ["HTTP "] and the digits of the number. *)
Lemma string_of_uint_digits (d : Decimal.uint) :
  forallb Char.is_digit
    (list_ascii_of_string (DecimalString.NilEmpty.string_of_uint d)) = true.
Proof. induction d; simpl; auto. Qed.

Lemma http_status_shape (status : nat) :
  exists ds, http_status status = ("HTTP " : str) ++ ds /\ ds <> [] /\ digits ds.
Proof.
  unfold http_status. eexists. split; [reflexivity|].
  unfold DecimalString.NilZero.string_of_uint.
  destruct (Nat.to_uint status) as [|d|d|d|d|d|d|d|d|d|d];
    (split; [discriminate|]); try reflexivity;
    match goal with
    | |- digits (list_ascii_of_string (DecimalString.NilEmpty.string_of_uint ?u)) =>
        exact (string_of_uint_digits u)
    end.
Qed.

Lemma digit_not_space (a : ascii) : Char.is_digit a = true -> Char.is_space a = false.
Proof. each_char a. Qed.

Lemma digit_not_mark (a : ascii) : Char.is_digit a = true -> not_in "<" a = true.
Proof. each_char a. Qed.

Lemma digits_single_spaced (ds : str) : digits ds -> single_spaced ds = true.
Proof.
  unfold digits. induction ds as [|a ds IH]; [reflexivity|]. cbn [forallb single_spaced].
  intros H. apply andb_true_iff in H as [Ha H]. rewrite (digit_not_space _ Ha). exact (IH H).
Qed.

Lemma digits_without_mark (ds : str) : digits ds -> without "<" ds.
Proof.
  unfold digits, without. induction ds as [|a ds IH]; [reflexivity|]. cbn [forallb].
  intros H. apply andb_true_iff in H as [Ha H]. rewrite (digit_not_mark _ Ha). exact (IH H).
Qed.

Lemma without_mark_no_tag (s : str) : without "<" s -> ~ tag_in s.
Proof.
  intros H (a & b & c & ->). apply without_app in H as [_ H].
  apply without_app in H as [H _]. vm_compute in H. discriminate.
Qed.

Lemma http_status_tidy (status : nat) :
  tidy (http_status status) /\ without "<" (http_status status).
Proof.
  destruct (http_status_shape status) as (ds & -> & Hne & Hds).
  assert (Hw : without "<" (("HTTP " : str) ++ ds)).
  { apply without_app. split; [reflexivity|exact (digits_without_mark _ Hds)]. }
  split; [|exact Hw]. split; [discriminate|]. split; [|split].
  - unfold trimmed, trim. rewrite trimStart_fixed by reflexivity.
    apply trimEnd_fixed. rewrite ends_with_space_suffix by exact Hne.
    destruct (exists_last Hne) as (d0 & z & ->). rewrite ends_with_space_app.
    apply digit_not_space. unfold digits in Hds. rewrite forallb_app in Hds.
    apply andb_true_iff in Hds as [_ Hz]. simpl in Hz. rewrite andb_true_r in Hz. exact Hz.
  - exact (without_mark_no_tag _ Hw).
  - change (single_spaced (("HTTP" : str) ++ " "%char :: ds) = true).
    cbn [app single_spaced list_ascii_of_string].
    rewrite (digits_single_spaced _ Hds).
    destruct ds as [|d ds]; [congruence|]. unfold digits in Hds. simpl in Hds.
    apply andb_true_iff in Hds as [Hd _]. rewrite (digit_not_space _ Hd). reflexivity.
Qed.

(** X22.  The error text the revision that loads the form directly reads
    off the answer to a creation is never empty; it is trimmed, holds no
    tag, and every white space in it is a single space. *)
Theorem form_first_error_tidy (createHtml : str) (status : nat) :
  tidy (FormFirst.error_of createHtml status).
Proof.
  unfold FormFirst.error_of.
  destruct (match_re Re.error_block createHtml) as [m|];
    [|exact (proj1 (http_status_tidy status))].
  set (g := group m 1).
  destruct (trim (replace_all Re.spaces " " (replace_all Re.tag " " g))) as [|e0 e] eqn:E;
    cbn [is_empty]; [exact (proj1 (http_status_tidy status))|].
  rewrite <- E. split; [rewrite E; discriminate|]. split; [apply trimmed_trim|]. split.
  - intros H. apply tag_in_trim, spaces_no_tag in H. revert H.
    apply replace_tags_no_tag. reflexivity.
  - apply single_spaced_trim, spaces_collapse.
Qed.

Lemma Matches_error_text (t rest : str) (c : caps) :
  Matches Re.error_text t rest [] c -> exists u, c = [(1, u)] /\ without "<" u.
Proof.
  unfold Re.error_text. intros M. apply Matches_Cat_inv in M as (t1 & t2 & c1 & -> & M1 & M2).
  assert (Hc1 : c1 = []).
  { clear M2. unfold Re.error_class, many in M1.
    apply Matches_lit_i_cat in M1 as (s' & t' & -> & _ & M1).
    apply Matches_Rep_cat in M1 as (u & t'' & -> & _ & _ & _ & M1).
    apply Matches_Cat_inv in M1 as (x & y & c2 & -> & Ma & M1).
    assert (c2 = []).
    { apply Matches_Alt_inv in Ma as [Ma|Ma]; apply Matches_lit_i in Ma as [_ ->]; reflexivity. }
    subst c2.
    apply Matches_Rep_cat in M1 as (u2 & t3 & -> & _ & _ & _ & M1).
    apply Matches_lit_cat in M1 as (t4 & -> & M1).
    apply Matches_Rep_cat in M1 as (u3 & t5 & -> & _ & _ & _ & M1).
    apply Matches_lit in M1 as [_ ->]. reflexivity. }
  subst c1. apply Matches_Grp_inv in M2 as (c2 & M2 & ->).
  unfold many1 in M2. apply Matches_Rep_inv in M2 as (Hp & _ & _ & ->).
  exists t2. split; [reflexivity|exact Hp].
Qed.

Lemma without_trim (cs s : str) : without cs s -> without cs (trim s).
Proof.
  intros H. destruct (trim_parts s) as (w1 & w2 & Hs). rewrite Hs in H.
  apply without_app in H as [_ H]. apply without_app in H as [H _]. exact H.
Qed.

(** X23.  The error text the revision that checks the URL first reads off
    the answer to a creation is trimmed and holds no ["<"]. *)
Theorem check_first_error_plain (createHtml : str) (status : nat) :
  trimmed (CheckFirst.error_of createHtml status) /\
  without "<" (CheckFirst.error_of createHtml status).
Proof.
  unfold CheckFirst.error_of.
  destruct (match_re Re.error_text createHtml) as [m|] eqn:E.
  - split; [apply trimmed_trim|]. apply without_trim.
    apply match_re_Some in E as (_ & _ & _ & M & _).
    apply Matches_error_text in M as (u & Hc & Hu).
    rewrite (group_of_caps _ _ _ _ Hc). exact Hu.
  - destruct (http_status_tidy status) as [(_ & Ht & _) Hw]. split; assumption.
Qed.

(** ** Counting the requests of a run *)

Section Counting.
Context (wt : request -> nat).

Lemma Costs_ret {A : Type} (a : A) (n : nat) : Costs wt n (ret a).
Proof.
  intros tr o tr' H. inversion H; subst. exists []. split; [reflexivity|]. unfold weight. simpl. lia.
Qed.

Lemma Costs_throw {A : Type} (msg : str) (n : nat) : Costs wt n (throw (A:=A) msg).
Proof.
  intros tr o tr' H. inversion H; subst. exists []. split; [reflexivity|]. unfold weight. simpl. lia.
Qed.

Lemma Costs_settle {A : Type} (p : attempt A) (n : nat) : Costs wt n (settle p).
Proof. destruct p; [apply Costs_ret|apply Costs_throw]. Qed.

Lemma Costs_of_run {A : Type} (r : run A) (n : nat) : Costs wt n (of_run r).
Proof.
  destruct r; [apply Costs_ret|].
  intros tr o tr' H. inversion H; subst. exists []. split; [reflexivity|]. unfold weight. simpl. lia.
Qed.

Lemma Costs_text (r : response) (n : nat) : Costs wt n (text r).
Proof. apply Costs_settle. Qed.

Lemma Costs_fetch (w : world) (rq : request) (n : nat) :
  wt rq <= n -> Costs wt n (fetch w rq).
Proof.
  intros Hn tr o tr' H. unfold fetch in H.
  exists [rq]. split; [destruct (net w tr rq); inversion H; reflexivity|].
  unfold weight. simpl. lia.
Qed.

Lemma Costs_bind {A B : Type} (n1 n2 : nat) (m : M B) (k : B -> M A) :
  Costs wt n1 m -> (forall b, Costs wt n2 (k b)) -> Costs wt (n1 + n2) (bind m k).
Proof.
  intros Hm Hk tr o tr' H. unfold bind in H.
  destruct (m tr) as [o1 tr1] eqn:E. destruct (Hm _ _ _ E) as (new1 & -> & H1).
  destruct o1 as [b|msg|].
  - destruct (Hk b _ _ _ H) as (new2 & -> & H2).
    exists (new2 ++ new1). split; [apply app_assoc|].
    unfold weight in *. rewrite map_app, list_sum_app. lia.
  - inversion H; subst. exists new1. split; [reflexivity|lia].
  - inversion H; subst. exists new1. split; [reflexivity|lia].
Qed.

Lemma Costs_try_catch {A : Type} (n1 n2 : nat) (m : M A) (h : str -> M A) :
  Costs wt n1 m -> (forall msg, Costs wt n2 (h msg)) ->
  Costs wt (n1 + n2) (try_catch m h).
Proof.
  intros Hm Hh tr o tr' H. unfold try_catch in H.
  destruct (m tr) as [o1 tr1] eqn:E. destruct (Hm _ _ _ E) as (new1 & -> & H1).
  destruct o1 as [b|msg|].
  - inversion H; subst. exists new1. split; [reflexivity|lia].
  - destruct (Hh msg _ _ _ H) as (new2 & -> & H2).
    exists (new2 ++ new1). split; [apply app_assoc|].
    unfold weight in *. rewrite map_app, list_sum_app. lia.
  - inversion H; subst. exists new1. split; [reflexivity|lia].
Qed.

Lemma Costs_weaken {A : Type} (n n' : nat) (m : M A) :
  n <= n' -> Costs wt n m -> Costs wt n' m.
Proof.
  intros Hn Hm tr o tr' H. destruct (Hm _ _ _ H) as (new & -> & Hw).
  exists new. split; [reflexivity|lia].
Qed.

End Counting.

(** Requests that all weigh nothing. *)
Lemma Issues_Costs {A : Type} (wt : request -> nat) (P : request -> Prop) (m : M A) :
  (forall rq, P rq -> wt rq = 0) -> Issues P m -> Costs wt 0 m.
Proof.
  intros HP Hm tr o tr' H. destruct (Hm _ _ _ H) as (_ & new & -> & Hall).
  exists new. split; [reflexivity|]. unfold weight. clear H.
  induction Hall as [|rq l Hrq _ IH]; simpl; [lia|]. rewrite (HP _ Hrq). exact IH.
Qed.

(** ** The session *)

Lemma isLoggedIn_run (w : world) (tr : list request) :
  exists b, isLoggedIn w tr = (Ret b, probe :: tr).
Proof.
  unfold isLoggedIn, try_catch, bind, getPage, fetch. fold probe.
  destruct (net w tr probe) as [r|msg]; [|eauto].
  destruct (negb (r_ok r)); [eauto|].
  destruct (includes "sign_in" (r_url r)); [eauto|].
  unfold text. destruct (r_text r); cbn [settle ret throw]; eauto.
Qed.

(** X11.  [isLoggedIn] always returns, after one request, the probe of the
    root page; it returns [true] exactly when the probe came back, [ok],
    from a URL without ["sign_in"], with a text that holds ["sign_out"]. *)
Theorem session_probe (w : world) (tr : list request) :
  exists b,
    isLoggedIn w tr = (Ret b, probe :: tr) /\
    (b = true <->
     exists r html,
       net w tr probe = Ok r /\ r_ok r = true /\
       includes "sign_in" (r_url r) = false /\
       r_text r = Ok html /\ includes "sign_out" html = true).
Proof.
  unfold isLoggedIn, try_catch, bind, getPage, fetch. fold probe.
  destruct (net w tr probe) as [r|msg] eqn:En.
  2:{ exists false. split; [reflexivity|]. split; [discriminate|].
      intros (r & html & H & _). discriminate. }
  destruct (r_ok r) eqn:Eok; cbn [negb].
  2:{ exists false. split; [reflexivity|]. split; [discriminate|].
      intros (r' & html & [= <-] & H & _). congruence. }
  destruct (includes "sign_in" (r_url r)) eqn:Eurl.
  { exists false. split; [reflexivity|]. split; [discriminate|].
    intros (r' & html & [= <-] & _ & H & _). congruence. }
  unfold text. destruct (r_text r) as [html|msg] eqn:Et; cbn [settle ret throw].
  2:{ exists false. split; [reflexivity|]. split; [discriminate|].
      intros (r' & html & [= <-] & _ & _ & H & _). congruence. }
  exists (includes "sign_out" html). split; [reflexivity|]. split.
  - intros H. exists r, html. auto.
  - intros (r' & html' & [= <-] & _ & _ & H & H'). congruence.
Qed.

Lemma doLogin_run (w : world) (email password : str) (tr : list request) :
  exists res,
    (doLogin w email password tr = (Ret res, sign_in_page :: tr) /\
     forall msg, res <> LoginOk msg) \/
    (exists token,
       token <> [] /\
       doLogin w email password tr =
         (Ret res, sign_in_post token email password :: sign_in_page :: tr) /\
       (res = LoginOk "Logged in to Parker." \/ exists e, res = LoginFailed e /\ e <> [])).
Proof.
  unfold doLogin, try_catch, bind, getPage, postForm, fetch. fold sign_in_page.
  destruct (net w tr sign_in_page) as [signInPage|msg].
  2:{ eexists. left. split; [reflexivity|discriminate]. }
  unfold text. destruct (r_text signInPage) as [signInHtml|msg]; cbn [settle ret throw].
  2:{ eexists. left. split; [reflexivity|discriminate]. }
  destruct (extractCsrfToken signInHtml) as [|t0 token]; cbn [is_empty].
  { eexists. left. split; [reflexivity|discriminate]. }
  fold (sign_in_post (t0 :: token) email password).
  destruct (net w (sign_in_page :: tr) (sign_in_post (t0 :: token) email password))
    as [r|msg].
  - destruct (r_ok r && negb (includes "sign_in" (r_url r))).
    + eexists. right. exists (t0 :: token). split; [discriminate|]. split; [reflexivity|].
      left. reflexivity.
    + eexists. right. exists (t0 :: token). split; [discriminate|]. split; [reflexivity|].
      right. eexists. split; [reflexivity|discriminate].
  - eexists. right. exists (t0 :: token). split; [discriminate|]. split; [reflexivity|].
    right. eexists. split; [reflexivity|]. destruct msg; discriminate.
Qed.




(** ** The requests of a lookup *)

Lemma Issues_bind_run {A B : Type} (P : request -> Prop) (r : run B) (k : B -> M A) :
  (exists b, r = Done b) ->
  (forall b, r = Done b -> Issues P (k b)) ->
  Issues P (bind (of_run r) k).
Proof.
  intros [b ->] Hk tr o tr' H. unfold bind in H. cbn [of_run ret] in H.
  exact (Hk b eq_refl _ _ _ H).
Qed.

Lemma findLinkedInMatchInSearchResults_total (html target : str) :
  exists path, findLinkedInMatchInSearchResults html target = Done path.
Proof. rewrite findLinkedInMatchInSearchResults_spec. eauto. Qed.

Lemma search_term_requests (w : world) (url term : str) :
  Issues (fun rq => rq = search_request term \/
                    exists p, detail_path p /\ rq = detail_request p)
         (search_term w url term).
Proof.
  unfold search_term. fold (search_request term).
  apply Issues_try_catch; [|intros; apply Issues_ret].
  apply Issues_bind; [apply Issues_fetch; left; reflexivity|]. intros r.
  destruct (negb (r_ok r)); [apply Issues_ret|].
  apply Issues_bind; [apply Issues_text|]. intros html.
  apply Issues_bind_run; [apply findLinkedInMatchInSearchResults_total|].
  intros [path|] Hpath; [|apply Issues_ret].
  destruct (is_empty path); [apply Issues_ret|].
  apply search_result_path in Hpath.
  apply Issues_bind.
  { apply Issues_fetch. right. exists path. split; [exact Hpath|reflexivity]. }
  intros detail. destruct (r_ok detail); [|apply Issues_ret].
  issues.
Qed.

Lemma search_terms_requests (w : world) (url : str) (terms : list str) :
  Issues (fun rq => (exists term, In term terms /\ rq = search_request term) \/
                    exists p, detail_path p /\ rq = detail_request p)
         (search_terms w url terms).
Proof.
  induction terms as [|term terms IH]; [apply Issues_ret|].
  cbn [search_terms]. apply Issues_bind.
  - eapply Issues_weaken; [|apply search_term_requests].
    intros rq [->|H]; [left; exists term; split; [left; reflexivity|reflexivity]|right; exact H].
  - intros [c|]; [apply Issues_ret|].
    eapply Issues_weaken; [|exact IH].
    intros rq [(t & Ht & ->)|H]; [left; exists t; split; [right; exact Ht|reflexivity]|right; exact H].
Qed.

Lemma lookupByUrlCheck_requests (w : world) (url : str) :
  Issues (fun rq => rq = check_page \/ exists tok, rq = check_post tok url)
         (lookupByUrlCheck w url).
Proof.
  unfold lookupByUrlCheck. issues.
  - left. reflexivity.
  - right. eexists. reflexivity.
Qed.

Lemma lookupCandidate_requests (w : world) (url fn ln : str) :
  Issues (lookup_request url fn ln) (lookupCandidate w url fn ln).
Proof.
  unfold lookupCandidate.
  apply Issues_try_catch; [|intros; apply Issues_ret].
  apply Issues_bind.
  { eapply Issues_weaken; [|apply ensureLoggedIn_issues]. intros rq H. left. exact H. }
  intros loggedIn. destruct (negb loggedIn); [apply Issues_ret|].
  apply Issues_bind.
  { eapply Issues_weaken; [|apply lookupByUrlCheck_requests].
    intros rq [->|H]; [right; left; reflexivity|right; right; left; exact H]. }
  intros [c|]; [apply Issues_ret|].
  apply Issues_bind.
  { eapply Issues_weaken; [|apply search_terms_requests].
    intros rq [(t & Ht & ->)|H].
    - right. right. right. left. exists t. split; [left; exact Ht|reflexivity].
    - right. right. right. right. exact H. }
  intros [c|]; [apply Issues_ret|].
  destruct (negb (is_empty fn) || negb (is_empty ln)); [|apply Issues_ret].
  apply Issues_bind.
  { eapply Issues_weaken; [|apply search_terms_requests].
    intros rq [(t & Ht & ->)|H].
    - right. right. right. left. exists t. split; [right; exact Ht|reflexivity].
    - right. right. right. right. exact H. }
  intros [c|]; apply Issues_ret.
Qed.

Lemma auth_request_to_parker (rq : request) : auth_request rq -> to_parker rq.
Proof. intros [->|[->|[form ->]]]; reflexivity. Qed.

Lemma detail_request_to_parker (p : str) : detail_path p -> to_parker (detail_request p).
Proof.
  intros (ds & -> & _). unfold to_parker, detail_request, request_url.
  apply starts_with_app. exists (("candidates/" : str) ++ ds).
  rewrite <- !app_assoc. reflexivity.
Qed.

Lemma lookup_request_to_parker (url fn ln : str) (rq : request) :
  lookup_request url fn ln rq -> to_parker rq.
Proof.
  intros [H|[->|[[tok ->]|[(t & _ & ->)|(p & Hp & ->)]]]];
    [apply auth_request_to_parker, H|reflexivity|reflexivity|reflexivity|
     apply detail_request_to_parker, Hp].
Qed.

Lemma lookup_request_not_creation (url fn ln : str) (rq : request) :
  lookup_request url fn ln rq -> is_creation rq = false.
Proof.
  intros [H|[->|[[tok ->]|[(t & _ & ->)|(p & Hp & ->)]]]];
    [apply auth_request_not_creation, H|reflexivity..].
Qed.

Lemma given_names_spec (fn ln term : str) :
  In term (given_names fn ln) -> term <> [] /\ (term = trim fn \/ term = trim ln).
Proof.
  unfold given_names. intros H. apply in_map_iff in H as (n & <- & Hn).
  apply list_elem_of_In, list_elem_of_filter in Hn as [Hp Hn].
  apply Is_true_true, andb_true_iff in Hp as [_ Hp]. apply negb_true_iff in Hp.
  split; [destruct (trim n); [discriminate|discriminate]|].
  apply list_elem_of_In in Hn. destruct Hn as [<-|[<-|[]]]; auto.
Qed.

(** X14.  Every request [lookupCandidate] issues goes to the Parker host,
    and none of them is the request that creates a candidate. *)
Theorem lookup_stays_on_parker (w : world) (url fn ln : str) :
  Issues (fun rq => to_parker rq /\ is_creation rq = false)
         (lookupCandidate w url fn ln).
Proof.
  eapply Issues_weaken; [|apply lookupCandidate_requests]. intros rq H. split.
  - exact (lookup_request_to_parker _ _ _ _ H).
  - exact (lookup_request_not_creation _ _ _ _ H).
Qed.

(** X15.  Every search [lookupCandidate] sends to the list of candidates
    carries a term that is not empty: a name part of the slug of the URL,
    or the first or the last name it was given, trimmed. *)
Theorem lookup_search_terms (w : world) (url fn ln : str) :
  Issues (fun rq =>
            request_url rq = PARKER_BASE ++ "/candidates" ->
            exists term,
              rq = search_request term /\ term <> [] /\
              (In term (namesFromLinkedinUrl url) \/ term = trim fn \/ term = trim ln))
         (lookupCandidate w url fn ln).
Proof.
  eapply Issues_weaken; [|apply lookupCandidate_requests].
  intros rq [H|[->|[[tok ->]|[(t & Ht & ->)|(p & Hp & ->)]]]] Hu.
  - destruct H as [->|[->|[form ->]]]; vm_compute in Hu; discriminate.
  - vm_compute in Hu. discriminate.
  - vm_compute in Hu. discriminate.
  - exists t. split; [reflexivity|]. destruct Ht as [Ht|Ht].
    + split; [|left; exact Ht].
      pose proof (names_parts url) as Hall. rewrite List.Forall_forall in Hall.
      destruct (Hall _ Ht) as [Hlen _]. destruct t; [simpl in Hlen; lia|discriminate].
    + destruct (given_names_spec _ _ _ Ht) as [Hne Hor]. split; [exact Hne|right; exact Hor].
  - destruct Hp as (ds & -> & Hne & _). unfold detail_request, request_url in Hu.
    apply app_inv_head in Hu. destruct ds; [congruence|discriminate].
Qed.

(** ** How many requests a lookup takes *)

(** A step of a proof that a part of a run issues no request. *)
Ltac costs_nothing :=
  intros; apply (Costs_weaken _ 0); [lia|];
  repeat first
    [ apply Costs_ret | apply Costs_throw | apply Costs_text | apply Costs_settle
    | apply Costs_of_run
    | apply (Costs_bind _ 0 0) | apply (Costs_try_catch _ 0 0)
    | match goal with
      | |- Costs _ _ (if ?b then _ else _) => destruct b
      | |- Costs _ _ (match ?x with _ => _ end) => destruct x
      | |- forall _, _ => intro
      end ].

Lemma isLoggedIn_costs (w : world) : Costs any_request 1 (isLoggedIn w).
Proof.
  unfold isLoggedIn, getPage. apply (Costs_try_catch _ 1 0); [|costs_nothing].
  apply (Costs_bind _ 1 0); [apply Costs_fetch; reflexivity|]. costs_nothing.
Qed.

Lemma doLogin_costs (w : world) (email password : str) :
  Costs any_request 2 (doLogin w email password).
Proof.
  unfold doLogin, getPage, postForm. apply (Costs_try_catch _ 2 0); [|costs_nothing].
  apply (Costs_bind _ 1 1); [apply Costs_fetch; reflexivity|]. intros signInPage.
  apply (Costs_bind _ 0 1); [costs_nothing|]. intros signInHtml.
  destruct (is_empty (extractCsrfToken signInHtml)); [costs_nothing|].
  apply (Costs_bind _ 1 0); [apply Costs_fetch; reflexivity|]. costs_nothing.
Qed.

Lemma ensureLoggedIn_costs (w : world) : Costs any_request 3 (ensureLoggedIn w).
Proof.
  unfold ensureLoggedIn. apply (Costs_bind _ 1 2); [apply isLoggedIn_costs|].
  intros []; [costs_nothing|].
  apply (Costs_bind _ 0 2); [costs_nothing|]. intros [e p].
  destruct (negb (truthy e) || negb (truthy p)); [costs_nothing|].
  apply (Costs_bind _ 2 0); [apply doLogin_costs|]. costs_nothing.
Qed.

Lemma lookupByUrlCheck_costs (w : world) (url : str) :
  Costs any_request 2 (lookupByUrlCheck w url).
Proof.
  unfold lookupByUrlCheck, getPage, postForm.
  apply (Costs_try_catch _ 2 0); [|costs_nothing].
  apply (Costs_bind _ 1 1); [apply Costs_fetch; reflexivity|]. intros checkPage.
  destruct (negb (r_ok checkPage)); [costs_nothing|].
  apply (Costs_bind _ 0 1); [costs_nothing|]. intros checkHtml.
  apply (Costs_bind _ 1 0); [apply Costs_fetch; reflexivity|]. costs_nothing.
Qed.

Lemma search_term_costs (w : world) (url term : str) :
  Costs any_request 2 (search_term w url term).
Proof.
  unfold search_term, getPage.
  apply (Costs_try_catch _ 2 0); [|costs_nothing].
  apply (Costs_bind _ 1 1); [apply Costs_fetch; reflexivity|]. intros r.
  destruct (negb (r_ok r)); [costs_nothing|].
  apply (Costs_bind _ 0 1); [costs_nothing|]. intros html.
  apply (Costs_bind _ 0 1); [costs_nothing|]. intros [path|]; [|costs_nothing].
  destruct (is_empty path); [costs_nothing|].
  apply (Costs_bind _ 1 0); [apply Costs_fetch; reflexivity|]. costs_nothing.
Qed.

Lemma search_terms_costs (w : world) (url : str) (terms : list str) :
  Costs any_request (2 * length terms) (search_terms w url terms).
Proof.
  induction terms as [|term terms IH]; [costs_nothing|].
  cbn [search_terms]. apply (Costs_weaken _ (2 + 2 * length terms)); [simpl; lia|].
  apply Costs_bind; [apply search_term_costs|].
  intros [c|]; [costs_nothing|exact IH].
Qed.

Lemma given_names_length (fn ln : str) : length (given_names fn ln) <= 2.
Proof.
  unfold given_names. rewrite length_map.
  etransitivity; [apply length_filter|]. reflexivity.
Qed.

Lemma lookupCandidate_costs (w : world) (url fn ln : str) :
  Costs any_request (5 + 2 * length (namesFromLinkedinUrl url) + 2 * length (given_names fn ln))
        (lookupCandidate w url fn ln).
Proof.
  unfold lookupCandidate.
  set (n := length (namesFromLinkedinUrl url)). set (g := length (given_names fn ln)).
  apply (Costs_weaken _ ((3 + (2 + (2 * n + 2 * g))) + 0)); [lia|].
  apply Costs_try_catch; [|costs_nothing].
  apply Costs_bind; [apply ensureLoggedIn_costs|].
  intros loggedIn. destruct (negb loggedIn); [costs_nothing|].
  apply Costs_bind; [apply lookupByUrlCheck_costs|].
  intros [c|]; [costs_nothing|].
  apply Costs_bind; [apply search_terms_costs|].
  intros [c|]; [costs_nothing|].
  destruct (negb (is_empty fn) || negb (is_empty ln)); [|costs_nothing].
  apply (Costs_weaken _ (2 * g + 0)); [lia|].
  apply Costs_bind; [apply search_terms_costs|]. costs_nothing.
Qed.

(** X16.  [lookupCandidate] issues nine requests at most, and two more for
    each name part of the slug: three for the session, two for the check of
    the URL, two for each term it searches, and it is given two names at
    most. *)
Theorem lookup_request_bound (w : world) (url fn ln : str) :
  Costs any_request (9 + 2 * length (namesFromLinkedinUrl url)) (lookupCandidate w url fn ln).
Proof.
  eapply Costs_weaken; [|apply lookupCandidate_costs].
  pose proof (given_names_length fn ln). lia.
Qed.

(** ** The requests of a creation *)

Lemma FormFirst_requests (w : world) (a : create_args) :
  Issues (form_first_request w a) (FormFirst.createCandidate w a).
Proof.
  unfold FormFirst.createCandidate.
  apply Issues_try_catch; [|intros; apply Issues_ret].
  apply Issues_bind.
  { eapply Issues_weaken; [|apply ensureLoggedIn_issues]. intros rq H. left. exact H. }
  intros loggedIn. destruct (negb loggedIn); [apply Issues_ret|].
  apply Issues_bind; [apply Issues_fetch; right; left; reflexivity|]. intros newPage.
  destruct (negb (r_ok newPage)); [apply Issues_ret|].
  apply Issues_bind; [apply Issues_text|]. intros newHtml.
  destruct (extractCsrfToken newHtml) as [|t0 tok] eqn:E; [apply Issues_ret|].
  cbn [is_empty]. eapply Issues_weaken; [|apply submit_issues].
  intros rq H. right. right. exists (t0 :: tok), newHtml. split; [discriminate|exact H].
Qed.

Lemma CheckFirst_requests (w : world) (a : create_args) :
  Issues (check_first_request w a) (CheckFirst.createCandidate w a).
Proof.
  unfold CheckFirst.createCandidate.
  apply Issues_try_catch; [|intros; apply Issues_ret].
  apply Issues_bind.
  { eapply Issues_weaken; [|apply ensureLoggedIn_issues]. intros rq H. left. exact H. }
  intros loggedIn. destruct (negb loggedIn); [apply Issues_ret|].
  apply Issues_bind; [apply Issues_fetch; right; left; reflexivity|]. intros checkPage.
  apply Issues_bind; [apply Issues_text|]. intros checkHtml.
  apply Issues_bind.
  { apply Issues_fetch. right. right. left. eexists. reflexivity. }
  intros urlCheckResp.
  apply Issues_bind; [apply Issues_text|]. intros urlCheckHtml.
  destruct (test_re Re.detail_url_end (r_url urlCheckResp)); [issues|].
  eapply Issues_weaken; [|apply submit_issues].
  intros rq H. right. right. right. eauto.
Qed.

Lemma creation_request_to_parker (w : world) (tok : str) (a : create_args)
    (html : str) (rq : request) :
  creation_request w tok a html rq -> to_parker rq /\ is_creation rq = true.
Proof. intros (stored & ownerId & _ & _ & ->). split; reflexivity. Qed.

Lemma form_first_request_to_parker (w : world) (a : create_args) (rq : request) :
  form_first_request w a rq -> to_parker rq.
Proof.
  intros [H|[->|(tok & html & _ & H)]];
    [apply auth_request_to_parker, H|reflexivity|
     exact (proj1 (creation_request_to_parker _ _ _ _ _ H))].
Qed.

Lemma check_first_request_to_parker (w : world) (a : create_args) (rq : request) :
  check_first_request w a rq -> to_parker rq.
Proof.
  intros [H|[->|[[tok ->]|(tok & html & H)]]];
    [apply auth_request_to_parker, H|reflexivity|reflexivity|
     exact (proj1 (creation_request_to_parker _ _ _ _ _ H))].
Qed.

Lemma submit_costs (wt : request -> nat) (w : world) (error_of : str -> nat -> str)
    (createToken : str) (a : create_args) (formHtml : str) :
  (forall rq, wt rq <= 1) ->
  Costs wt 1 (submit w error_of createToken a formHtml).
Proof.
  intros Hwt. unfold submit, postForm.
  apply (Costs_bind _ 0 1); [costs_nothing|]. intros stored.
  apply (Costs_bind _ 0 1); [costs_nothing|]. intros ownerId.
  apply (Costs_bind _ 1 0); [apply Costs_fetch, Hwt|]. costs_nothing.
Qed.

Lemma creation_only_le (rq : request) : creation_only rq <= 1.
Proof. unfold creation_only. destruct (is_creation rq); lia. Qed.

Lemma auth_costs_no_creation (w : world) : Costs creation_only 0 (ensureLoggedIn w).
Proof.
  apply (Issues_Costs _ auth_request); [|apply ensureLoggedIn_issues].
  intros rq H. unfold creation_only. rewrite (auth_request_not_creation _ H). reflexivity.
Qed.

Lemma FormFirst_one_creation (w : world) (a : create_args) :
  Costs creation_only 1 (FormFirst.createCandidate w a).
Proof.
  unfold FormFirst.createCandidate, getPage.
  apply (Costs_try_catch _ 1 0); [|costs_nothing].
  apply (Costs_bind _ 0 1); [apply auth_costs_no_creation|].
  intros loggedIn. destruct (negb loggedIn); [costs_nothing|].
  apply (Costs_bind _ 0 1); [apply Costs_fetch; reflexivity|]. intros newPage.
  destruct (negb (r_ok newPage)); [costs_nothing|].
  apply (Costs_bind _ 0 1); [costs_nothing|]. intros newHtml.
  destruct (is_empty (extractCsrfToken newHtml)); [costs_nothing|].
  apply submit_costs, creation_only_le.
Qed.

Lemma CheckFirst_one_creation (w : world) (a : create_args) :
  Costs creation_only 1 (CheckFirst.createCandidate w a).
Proof.
  unfold CheckFirst.createCandidate, getPage, postForm.
  apply (Costs_try_catch _ 1 0); [|costs_nothing].
  apply (Costs_bind _ 0 1); [apply auth_costs_no_creation|].
  intros loggedIn. destruct (negb loggedIn); [costs_nothing|].
  apply (Costs_bind _ 0 1); [apply Costs_fetch; reflexivity|]. intros checkPage.
  apply (Costs_bind _ 0 1); [costs_nothing|]. intros checkHtml.
  apply (Costs_bind _ 0 1); [apply Costs_fetch; reflexivity|]. intros urlCheckResp.
  apply (Costs_bind _ 0 1); [costs_nothing|]. intros urlCheckHtml.
  destruct (test_re Re.detail_url_end (r_url urlCheckResp)); [costs_nothing|].
  apply submit_costs, creation_only_le.
Qed.

Lemma FormFirst_costs (w : world) (a : create_args) :
  Costs any_request 5 (FormFirst.createCandidate w a).
Proof.
  unfold FormFirst.createCandidate, getPage.
  apply (Costs_try_catch _ 5 0); [|costs_nothing].
  apply (Costs_bind _ 3 2); [apply ensureLoggedIn_costs|].
  intros loggedIn. destruct (negb loggedIn); [costs_nothing|].
  apply (Costs_bind _ 1 1); [apply Costs_fetch; reflexivity|]. intros newPage.
  destruct (negb (r_ok newPage)); [costs_nothing|].
  apply (Costs_bind _ 0 1); [costs_nothing|]. intros newHtml.
  destruct (is_empty (extractCsrfToken newHtml)); [costs_nothing|].
  apply submit_costs. reflexivity.
Qed.

Lemma CheckFirst_costs (w : world) (a : create_args) :
  Costs any_request 6 (CheckFirst.createCandidate w a).
Proof.
  unfold CheckFirst.createCandidate, getPage, postForm.
  apply (Costs_try_catch _ 6 0); [|costs_nothing].
  apply (Costs_bind _ 3 3); [apply ensureLoggedIn_costs|].
  intros loggedIn. destruct (negb loggedIn); [costs_nothing|].
  apply (Costs_bind _ 1 2); [apply Costs_fetch; reflexivity|]. intros checkPage.
  apply (Costs_bind _ 0 2); [costs_nothing|]. intros checkHtml.
  apply (Costs_bind _ 1 1); [apply Costs_fetch; reflexivity|]. intros urlCheckResp.
  apply (Costs_bind _ 0 1); [costs_nothing|]. intros urlCheckHtml.
  destruct (test_re Re.detail_url_end (r_url urlCheckResp)); [costs_nothing|].
  apply submit_costs. reflexivity.
Qed.

Lemma Issues_Returns {A : Type} (P : request -> Prop) (m : M A) (h : str -> M A) :
  Issues P (try_catch m h) -> (forall msg, Returns (h msg)) -> Returns (try_catch m h).
Proof.
  intros Hm Hh tr. destruct (try_catch m h tr) as [o tr'] eqn:E.
  destruct (Hm _ _ _ E) as [Hne _]. unfold try_catch in E.
  destruct (m tr) as [[a|msg|] tr1].
  - inversion E; subst. eauto.
  - destruct (Hh msg tr1) as (a & tr2 & Ha). rewrite Ha in E. inversion E; subst. eauto.
  - inversion E; subst. congruence.
Qed.

Lemma FormFirst_returns (w : world) (a : create_args) :
  Returns (FormFirst.createCandidate w a).
Proof.
  eapply Issues_Returns; [apply FormFirst_requests|]. intros. apply Returns_ret.
Qed.

Lemma CheckFirst_returns (w : world) (a : create_args) :
  Returns (CheckFirst.createCandidate w a).
Proof.
  eapply Issues_Returns; [apply CheckFirst_requests|]. intros. apply Returns_ret.
Qed.

Lemma call_create_returns (create : world -> create_args -> M create_result)
    (w : world) (data : option create_args) :
  (forall a, Returns (create w a)) ->
  Returns (call_create create w data) <-> data <> None.
Proof.
  intros Hc. destruct data as [a|]; cbn [call_create].
  - split; [discriminate|]. intros _. apply Hc.
  - split; [|congruence]. intros H. destruct (H []) as (r & tr' & E). discriminate E.
Qed.

Lemma call_create_issues (create : world -> create_args -> M create_result)
    (P : request -> Prop) (w : world) (data : option create_args) :
  (forall a, Issues P (create w a)) -> Issues P (call_create create w data).
Proof.
  intros Hc. destruct data as [a|]; cbn [call_create]; [apply Hc|apply Issues_throw].
Qed.

(** X18.  A call of [createCandidate], in both revisions, returns a result
    exactly when it is given an object: what is thrown inside the [try]
    becomes a failed result, and a call without an object rejects, since the
    parameter list destructures the argument outside the [try].  Every
    request a call issues goes to the Parker host. *)
Theorem create_answers_on_parker (w : world) (data : option create_args) :
  (Returns (call_create FormFirst.createCandidate w data) <-> data <> None) /\
  (Returns (call_create CheckFirst.createCandidate w data) <-> data <> None) /\
  Issues to_parker (call_create FormFirst.createCandidate w data) /\
  Issues to_parker (call_create CheckFirst.createCandidate w data).
Proof.
  split; [apply call_create_returns; intros; apply FormFirst_returns|].
  split; [apply call_create_returns; intros; apply CheckFirst_returns|]. split.
  - apply call_create_issues. intros a.
    eapply Issues_weaken; [|apply FormFirst_requests]. apply form_first_request_to_parker.
  - apply call_create_issues. intros a.
    eapply Issues_weaken; [|apply CheckFirst_requests]. apply check_first_request_to_parker.
Qed.

(** X19.  A call of [createCandidate] sends the request that creates a
    candidate once at most; in all it issues five requests at most in the
    revision that loads the form directly, six in the other. *)
Theorem create_once (w : world) (a : create_args) :
  Costs creation_only 1 (FormFirst.createCandidate w a) /\
  Costs creation_only 1 (CheckFirst.createCandidate w a) /\
  Costs any_request 5 (FormFirst.createCandidate w a) /\
  Costs any_request 6 (CheckFirst.createCandidate w a).
Proof.
  split; [apply FormFirst_one_creation|]. split; [apply CheckFirst_one_creation|].
  split; [apply FormFirst_costs|apply CheckFirst_costs].
Qed.

(** X20.  In the revision that loads the form directly, the request that
    creates a candidate always carries a token that is not empty, as the
    first field of its form. *)
Theorem form_first_token (w : world) (a : create_args) :
  Issues (fun rq =>
            is_creation rq = true ->
            exists token fields,
              token <> [] /\
              rq = POST (PARKER_BASE ++ "/candidates")
                     (("authenticity_token" : str, token) :: fields))
         (FormFirst.createCandidate w a).
Proof.
  eapply Issues_weaken; [|apply FormFirst_requests].
  intros rq [H|[->|(tok & html & Hne & stored & ownerId & _ & _ & ->)]] Hc.
  - rewrite (auth_request_not_creation _ H) in Hc. discriminate.
  - discriminate.
  - exists tok. eexists. split; [exact Hne|reflexivity].
Qed.

(** ** The records the client returns *)

Lemma Gives_bind_run {A B : Type} (Q : A -> Prop) (r : run B) (k : B -> M A) :
  (forall b, r = Done b -> Gives Q (k b)) -> Gives Q (bind (of_run r) k).
Proof.
  intros Hk tr a tr' H. unfold bind in H. destruct r as [b|]; cbn [of_run ret] in H.
  - exact (Hk b eq_refl _ _ _ H).
  - discriminate.
Qed.

Lemma Gives_weaken {A : Type} (Q Q' : A -> Prop) (m : M A) :
  (forall a, Q a -> Q' a) -> Gives Q m -> Gives Q' m.
Proof. intros HQ Hm tr a tr' H. exact (HQ _ (Hm _ _ _ H)). Qed.

Lemma Gives_bind_both {A B : Type} (Q : A -> Prop) (R : B -> Prop)
    (m : M B) (k : B -> M A) :
  Gives R m -> (forall b, R b -> Gives Q (k b)) -> Gives Q (bind m k).
Proof.
  intros Hm Hk tr a tr' H. unfold bind in H.
  destruct (m tr) as [[b|msg|] tr1] eqn:E; try discriminate.
  exact (Hk b (Hm _ _ _ E) _ _ _ H).
Qed.

Lemma test_detail_url (u : str) : test_re Re.detail_url u = true -> has_candidate_id u.
Proof.
  unfold test_re. destruct (match_re Re.detail_url u) as [m|] eqn:E; [|discriminate].
  intros _. apply match_re_Some in E as (pre & Hs & _ & M & _).
  unfold Re.detail_url, many1 in M. apply Matches_lit_cat in M as (ds & Ht & M).
  apply Matches_Rep_inv in M as (Hds & Hlen & _).
  destruct ds as [|d ds]; [simpl in Hlen; lia|].
  exists pre, d, (ds ++ m_rest m). split.
  - rewrite Hs, Ht, <- !app_assoc. reflexivity.
  - simpl in Hds. apply andb_true_iff in Hds as [H _]. exact H.
Qed.

Lemma test_detail_url_end (u : str) :
  test_re Re.detail_url_end u = true -> has_candidate_id u.
Proof.
  unfold test_re. destruct (match_re Re.detail_url_end u) as [m|] eqn:E; [|discriminate].
  intros _. apply match_re_Some in E as (pre & Hs & _ & M & _).
  unfold Re.detail_url_end, many1 in M. apply Matches_lit_cat in M as (t' & Ht & M).
  apply Matches_Rep_cat in M as (ds & t'' & -> & Hds & Hlen & _ & _).
  destruct ds as [|d ds]; [simpl in Hlen; lia|].
  exists pre, d, (ds ++ t'' ++ m_rest m). split.
  - rewrite Hs, Ht, <- !app_assoc. reflexivity.
  - simpl in Hds. apply andb_true_iff in Hds as [H _]. exact H.
Qed.

Lemma parsed_has_id (html u : str) (c : candidate) :
  has_candidate_id u -> parseCandidatePage html u = Done c -> has_id c.
Proof.
  intros Hu Hc. destruct (parseCandidatePage_fields html u) as (c' & Hc' & Hid & _).
  rewrite Hc in Hc'. injection Hc' as <-. exists (id_of u). split; [exact Hid|].
  destruct (id_of_spec u) as [Hiff Hd]. split; [|exact Hd].
  intros H. apply Hiff in H. contradiction.
Qed.

Lemma submit_gives_id (w : world) (error_of : str -> nat -> str)
    (createToken : str) (a : create_args) (formHtml : str) :
  Gives (fun res => forall ex c, res = CreateOk ex c -> ex = false /\ has_id c)
        (submit w error_of createToken a formHtml).
Proof.
  unfold submit. apply Gives_bind. intros stored. apply Gives_bind. intros ownerId.
  apply Gives_bind. intros createResp. apply Gives_bind. intros createHtml.
  destruct (r_ok createResp && test_re Re.detail_url (r_url createResp)) eqn:E.
  - apply andb_true_iff in E as [_ E]. apply Gives_bind_run. intros c Hc.
    apply Gives_ret. intros ex c' [= <- <-]. split; [reflexivity|].
    exact (parsed_has_id _ _ _ (test_detail_url _ E) Hc).
  - apply Gives_ret. discriminate.
Qed.

Lemma FormFirst_gives_id (w : world) (a : create_args) :
  Gives (fun res => forall ex c, res = CreateOk ex c -> ex = false /\ has_id c)
        (FormFirst.createCandidate w a).
Proof.
  unfold FormFirst.createCandidate.
  apply Gives_try_catch; [|intros; apply Gives_ret; discriminate].
  apply Gives_bind. intros loggedIn. destruct (negb loggedIn); [apply Gives_ret; discriminate|].
  apply Gives_bind. intros newPage.
  destruct (negb (r_ok newPage)); [apply Gives_ret; discriminate|].
  apply Gives_bind. intros newHtml.
  destruct (is_empty (extractCsrfToken newHtml)); [apply Gives_ret; discriminate|].
  apply submit_gives_id.
Qed.

Lemma CheckFirst_gives_id (w : world) (a : create_args) :
  Gives (fun res => forall ex c, res = CreateOk ex c -> has_id c)
        (CheckFirst.createCandidate w a).
Proof.
  unfold CheckFirst.createCandidate.
  apply Gives_try_catch; [|intros; apply Gives_ret; discriminate].
  apply Gives_bind. intros loggedIn. destruct (negb loggedIn); [apply Gives_ret; discriminate|].
  apply Gives_bind. intros checkPage. apply Gives_bind. intros checkHtml.
  apply Gives_bind. intros urlCheckResp. apply Gives_bind. intros urlCheckHtml.
  destruct (test_re Re.detail_url_end (r_url urlCheckResp)) eqn:E.
  - apply Gives_bind_run. intros c Hc. apply Gives_ret. intros ex c' [= <- <-].
    exact (parsed_has_id _ _ _ (test_detail_url_end _ E) Hc).
  - eapply Gives_weaken; [|apply submit_gives_id]. intros res H ex c Hres.
    exact (proj2 (H ex c Hres)).
Qed.

Lemma lookupByUrlCheck_gives (w : world) (url : str) :
  Gives (fun r => forall c, r = Some c -> parsed c /\ has_id c) (lookupByUrlCheck w url).
Proof.
  unfold lookupByUrlCheck.
  apply Gives_try_catch; [|intros; apply Gives_ret; discriminate].
  apply Gives_bind. intros checkPage.
  destruct (negb (r_ok checkPage)); [apply Gives_ret; discriminate|].
  apply Gives_bind. intros checkHtml. apply Gives_bind. intros r.
  apply Gives_bind. intros html.
  destruct (r_ok r && test_re Re.detail_url_end (r_url r)) eqn:E;
    [|apply Gives_ret; discriminate].
  apply andb_true_iff in E as [_ E]. apply Gives_bind_run. intros c Hc.
  apply Gives_ret. intros c' [= <-]. split; [exists html, (r_url r); exact Hc|].
  exact (parsed_has_id _ _ _ (test_detail_url_end _ E) Hc).
Qed.

Lemma search_term_gives (w : world) (url term : str) :
  Gives (fun r => forall c, r = Some c -> parsed c) (search_term w url term).
Proof.
  unfold search_term.
  apply Gives_try_catch; [|intros; apply Gives_ret; discriminate].
  apply Gives_bind. intros r. destruct (negb (r_ok r)); [apply Gives_ret; discriminate|].
  apply Gives_bind. intros html. apply Gives_bind. intros [path|];
    [|apply Gives_ret; discriminate].
  destruct (is_empty path); [apply Gives_ret; discriminate|].
  apply Gives_bind. intros detail. destruct (r_ok detail); [|apply Gives_ret; discriminate].
  apply Gives_bind. intros detailHtml. apply Gives_bind_run. intros c Hc.
  apply Gives_ret. intros c' [= <-]. exists detailHtml, (r_url detail). exact Hc.
Qed.

Lemma search_terms_gives (w : world) (url : str) (terms : list str) :
  Gives (fun r => forall c, r = Some c -> parsed c) (search_terms w url terms).
Proof.
  induction terms as [|term terms IH]; [apply Gives_ret; discriminate|].
  cbn [search_terms]. eapply Gives_bind_both; [apply search_term_gives|].
  intros [c|] Hc; [|exact IH]. apply Gives_ret. exact Hc.
Qed.

Lemma parsed_linkedin_url (c : candidate) :
  parsed c ->
  c !! "linkedin_url"%string = None \/
  exists v, c !! "linkedin_url"%string = Some (JStr v) /\ v <> [].
Proof.
  intros (html & u & Hc).
  destruct (parseCandidatePage_fields html u) as (c' & Hc' & _ & _ & _ & _ & _ & _ & _ & _ & Hl).
  rewrite Hc in Hc'. injection Hc' as <-.
  destruct (match_re Re.linkedin_href html) as [m|] eqn:E; [|left; exact Hl].
  right. exists (group m 1). split; [exact Hl|].
  apply match_re_Some in E as (_ & _ & _ & M & _).
  apply Matches_linkedin_href in M as (a & l & b & Hcaps & _ & Hb & _).
  rewrite (group_of_caps _ _ _ _ Hcaps).
  intros H. apply app_eq_nil in H as [_ H]. apply app_eq_nil in H as [_ H]. contradiction.
Qed.

Lemma default_linkedin_url_spec (c : candidate) (url : str) :
  parsed c ->
  (forall k, k <> "linkedin_url"%string -> default_linkedin_url c url !! k = c !! k) /\
  default_linkedin_url c url !! "linkedin_url"%string =
    Some (JStr match c !! "linkedin_url"%string with
               | Some (JStr v) => v
               | _ => url
               end).
Proof.
  intros Hc. unfold default_linkedin_url. split.
  - intros k Hk. apply lookup_insert_ne. congruence.
  - rewrite lookup_insert_eq.
    destruct (parsed_linkedin_url c Hc) as [->|(v & -> & Hv)]; [reflexivity|].
    destruct v; [congruence|reflexivity].
Qed.

Lemma lookupCandidate_gives (w : world) (url fn ln : str) :
  Gives (fun res => forall c', res = Found c' ->
           exists c, parsed c /\ c' = default_linkedin_url c url)
        (lookupCandidate w url fn ln).
Proof.
  unfold lookupCandidate.
  apply Gives_try_catch; [|intros; apply Gives_ret; discriminate].
  apply Gives_bind. intros loggedIn. destruct (negb loggedIn); [apply Gives_ret; discriminate|].
  eapply Gives_bind_both; [apply lookupByUrlCheck_gives|].
  intros [c|] Hc.
  { apply Gives_ret. intros c' [= <-]. exists c. split; [apply (Hc c eq_refl)|reflexivity]. }
  eapply Gives_bind_both; [apply search_terms_gives|]. clear Hc.
  intros [c|] Hc.
  { apply Gives_ret. intros c' [= <-]. exists c. split; [apply (Hc c eq_refl)|reflexivity]. }
  destruct (negb (is_empty fn) || negb (is_empty ln)); [|apply Gives_ret; discriminate].
  eapply Gives_bind_both; [apply search_terms_gives|]. clear Hc.
  intros [c|] Hc; [|apply Gives_ret; discriminate].
  apply Gives_ret. intros c' [= <-]. exists c. split; [apply (Hc c eq_refl)|reflexivity].
Qed.

(** X21.  A record [createCandidate] returns holds an id that is a number:
    the candidate that was created, or the one that was there already, can
    be told by it.  The revision that loads the form directly never reports
    a candidate as already there. *)
Theorem created_record_has_id (w : world) (a : create_args) :
  Gives (fun res => forall ex c, res = CreateOk ex c -> ex = false /\ has_id c)
        (FormFirst.createCandidate w a) /\
  Gives (fun res => forall ex c, res = CreateOk ex c -> has_id c)
        (CheckFirst.createCandidate w a).
Proof. split; [apply FormFirst_gives_id|apply CheckFirst_gives_id]. Qed.

(** X17.  The record of a found candidate is one read off a page, with
    [linkedin_url] set: to the profile link of the page when the page has
    one, to the URL that was looked up otherwise. *)
Theorem found_record (w : world) (url fn ln : str) :
  Gives (fun res => forall c', res = Found c' ->
           exists c, parsed c /\
             (forall k, k <> "linkedin_url"%string -> c' !! k = c !! k) /\
             c' !! "linkedin_url"%string =
               Some (JStr match c !! "linkedin_url"%string with
                          | Some (JStr v) => v
                          | _ => url
                          end))
        (lookupCandidate w url fn ln).
Proof.
  eapply Gives_weaken; [|apply lookupCandidate_gives].
  intros res H c' Hres. destruct (H c' Hres) as (c & Hc & ->).
  exists c. split; [exact Hc|]. exact (default_linkedin_url_spec c url Hc).
Qed.

(** ** The message router *)

Lemma Returns_bind {A B : Type} (m : M A) (k : A -> M B) :
  Returns m -> (forall a, Returns (k a)) -> Returns (bind m k).
Proof.
  intros Hm Hk tr. unfold bind. destruct (Hm tr) as (a & tr1 & ->). apply Hk.
Qed.

Lemma isLoggedIn_returns (w : world) : Returns (isLoggedIn w).
Proof. intros tr. destruct (isLoggedIn_run w tr) as (b & E). eauto. Qed.

Lemma doLogin_returns (w : world) (email password : str) :
  Returns (doLogin w email password).
Proof.
  intros tr. destruct (doLogin_run w email password tr) as [res [[E _]|H]]; [eauto|].
  destruct H as (token & _ & E & _). eauto.
Qed.

Lemma lookupCandidate_returns (w : world) (url fn ln : str) :
  Returns (lookupCandidate w url fn ln).
Proof. intros tr. destruct (lookupCandidate_outcome w url fn ln tr) as (r & tr' & E & _). eauto. Qed.

Lemma handler_returns (create : world -> create_args -> M create_result)
    (w : world) (msg : message) :
  (forall a, Returns (create w a)) ->
  has_data msg = true ->
  (reads_settings msg = true -> exists held, storage w = Ok held) ->
  Returns (handler create w msg).
Proof.
  intros Hc Hp Hs.
  destruct msg as [url fn ln|[data|]| | |e p| | |t]; try discriminate Hp;
    cbn [handler]; try apply Returns_ret.
  - apply Returns_bind; [apply lookupCandidate_returns|]. intros. apply Returns_ret.
  - apply Returns_bind; [apply Hc|]. intros. apply Returns_ret.
  - destruct (Hs eq_refl) as [[e p] Hh]. rewrite Hh.
    apply Returns_bind; [apply Returns_ret|]. intros [e' p'].
    destruct (negb (truthy e') || negb (truthy p')); [apply Returns_ret|].
    apply Returns_bind; [apply doLogin_returns|]. intros. apply Returns_ret.
  - apply Returns_bind; [apply isLoggedIn_returns|]. intros. apply Returns_ret.
  - destruct (Hs eq_refl) as [held Hh]. unfold storage_set. rewrite Hh.
    apply Returns_bind; [apply Returns_ret|]. intros. apply Returns_ret.
  - destruct (Hs eq_refl) as [held Hh]. rewrite Hh.
    apply Returns_bind; [apply Returns_ret|]. intros. apply Returns_ret.
Qed.

Lemma handler_requests (create : world -> create_args -> M create_result)
    (w : world) (msg : message) :
  (forall a, Issues to_parker (create w a)) ->
  Issues to_parker (handler create w msg).
Proof.
  intros Hc. destruct msg as [url fn ln|data| | |e p| | |t]; cbn [handler].
  - apply Issues_bind; [|intros; apply Issues_ret].
    eapply Issues_weaken; [|apply lookupCandidate_requests]. apply lookup_request_to_parker.
  - apply Issues_bind; [apply call_create_issues, Hc|intros; apply Issues_ret].
  - apply Issues_bind; [apply Issues_settle|]. intros [e p].
    destruct (negb (truthy e) || negb (truthy p)); [apply Issues_ret|].
    apply Issues_bind; [|intros; apply Issues_ret].
    eapply Issues_weaken; [|apply doLogin_issues]. apply auth_request_to_parker.
  - apply Issues_bind; [|intros; apply Issues_ret].
    eapply Issues_weaken; [|apply isLoggedIn_issues]. apply auth_request_to_parker.
  - apply Issues_bind; [apply Issues_settle|intros; apply Issues_ret].
  - apply Issues_bind; [apply Issues_settle|intros; apply Issues_ret].
  - apply Issues_ret.
  - apply Issues_ret.
Qed.

Lemma handler_creations (create : world -> create_args -> M create_result)
    (w : world) (msg : message) :
  (forall a, Costs creation_only 1 (create w a)) ->
  Costs creation_only (if is_create msg then 1 else 0) (handler create w msg).
Proof.
  intros Hc. destruct msg as [url fn ln|[data|]| | |e p| | |t];
    cbn [handler is_create call_create]; try (costs_nothing; fail).
  - apply (Costs_bind _ 0 0); [|costs_nothing].
    apply (Issues_Costs _ (lookup_request url fn ln));
      [|apply lookupCandidate_requests].
    intros rq H. unfold creation_only. rewrite (lookup_request_not_creation _ _ _ _ H).
    reflexivity.
  - apply (Costs_bind _ 1 0); [apply Hc|costs_nothing].
  - apply (Costs_bind _ 0 0); [costs_nothing|]. intros [e p].
    destruct (negb (truthy e) || negb (truthy p)); [costs_nothing|].
    apply (Costs_bind _ 0 0); [|costs_nothing].
    apply (Issues_Costs _ auth_request); [|apply doLogin_issues].
    intros rq H. unfold creation_only. rewrite (auth_request_not_creation _ H). reflexivity.
  - apply (Costs_bind _ 0 0); [|costs_nothing].
    apply (Issues_Costs _ auth_request); [|apply isLoggedIn_issues].
    intros rq H. unfold creation_only. rewrite (auth_request_not_creation _ H). reflexivity.
Qed.

Lemma handler_without_data (create : world -> create_args -> M create_result)
    (w : world) (msg : message) (tr : list request) :
  has_data msg = false -> handler create w msg tr = (Throw cannot_destructure, tr).
Proof.
  destruct msg as [url fn ln|[data|]| | |e p| | |t]; try discriminate; intros _.
  reflexivity.
Qed.

Lemma handler_without_storage (create : world -> create_args -> M create_result)
    (w : world) (msg : message) (e : str) (tr : list request) :
  reads_settings msg = true -> storage w = Err e ->
  handler create w msg tr = (Throw e, tr).
Proof.
  intros Hr Hs.
  destruct msg as [url fn ln|data| | |e1 p1| | |t]; try discriminate;
    cbn [handler]; unfold storage_set; rewrite Hs; reflexivity.
Qed.

(** X24.  The handler of a message returns an answer when the storage
    answers, for every message but a [CREATE_CANDIDATE] without [data]; for
    the messages whose handler does not call the storage itself (lookup,
    creation, the check of the session, the notice of a loaded page and
    every unknown type) it does so even when the storage fails.  A
    [CREATE_CANDIDATE] without [data] gets no answer, and neither does a
    message whose handler calls the storage when the storage fails: the
    handler throws and nothing is requested. *)
Theorem router_answers (w : world) (msg : message) :
  (has_data msg = true ->
   reads_settings msg = false \/ (exists held, storage w = Ok held) ->
   Returns (handler FormFirst.createCandidate w msg) /\
   Returns (handler CheckFirst.createCandidate w msg)) /\
  (has_data msg = false ->
   forall create tr, handler create w msg tr = (Throw cannot_destructure, tr)) /\
  (reads_settings msg = true ->
   forall e, storage w = Err e ->
   forall create tr, handler create w msg tr = (Throw e, tr)).
Proof.
  split; [|split].
  - intros Hp H.
    assert (Hs : reads_settings msg = true -> exists held, storage w = Ok held).
    { intros Hr. destruct H as [H|H]; [congruence|exact H]. }
    split; apply handler_returns; try exact Hs; try exact Hp; intros a;
      [apply FormFirst_returns|apply CheckFirst_returns].
  - intros Hp create tr. apply handler_without_data, Hp.
  - intros Hr e Hs create tr. apply handler_without_storage; assumption.
Qed.

Lemma router_answers_witness :
  (Returns (handler FormFirst.createCandidate world_known GET_SETTINGS) /\
   Returns (handler CheckFirst.createCandidate world_known GET_SETTINGS)) /\
  handler FormFirst.createCandidate world_known (CREATE_CANDIDATE None) [] =
    (Throw cannot_destructure, []) /\
  handler CheckFirst.createCandidate world_locked GET_SETTINGS [] =
    (Throw "storage is locked", []).
Proof.
  destruct (router_answers world_known GET_SETTINGS) as (H1 & _ & _).
  destruct (router_answers world_known (CREATE_CANDIDATE None)) as (_ & H2 & _).
  destruct (router_answers world_locked GET_SETTINGS) as (_ & _ & H3).
  split; [|split].
  - apply H1; [reflexivity|]. right. eexists. reflexivity.
  - apply H2. reflexivity.
  - apply H3; reflexivity.
Defined.

(** X25.  Whatever the message, every request its handler issues goes to
    the Parker host, and the request that creates a candidate is sent for
    [CREATE_CANDIDATE] only, once at most. *)
Theorem router_requests (w : world) (msg : message) :
  Issues to_parker (handler FormFirst.createCandidate w msg) /\
  Issues to_parker (handler CheckFirst.createCandidate w msg) /\
  Costs creation_only (if is_create msg then 1 else 0)
        (handler FormFirst.createCandidate w msg) /\
  Costs creation_only (if is_create msg then 1 else 0)
        (handler CheckFirst.createCandidate w msg).
Proof.
  split; [|split; [|split]].
  - apply handler_requests. intros a.
    eapply Issues_weaken; [|apply FormFirst_requests]. apply form_first_request_to_parker.
  - apply handler_requests. intros a.
    eapply Issues_weaken; [|apply CheckFirst_requests]. apply check_first_request_to_parker.
  - apply handler_creations. intros a. apply FormFirst_one_creation.
  - apply handler_creations. intros a. apply CheckFirst_one_creation.
Qed.

(** ** The onboarding page *)



(** ** The content script *)

(** *** Splitting *)

Lemma split_from_skip (r : regex) :
  forall k s piece, k <= length s ->
  split_from r s piece k = split_from r (skipn k s) piece 0.
Proof.
  induction k as [|k IH]; intros s piece Hk; [reflexivity|].
  destruct s as [|a s']; [simpl in Hk; lia|].
  simpl in Hk. cbn [split_from skipn]. apply IH. lia.
Qed.

Lemma split_from_cons (r : regex) (a : ascii) (s' piece : str) :
  1 <= min_len r ->
  split_from r (a :: s') piece 0 =
  match ms r (a :: s') [] with
  | (rest, _) :: _ => piece :: split_from r rest [] 0
  | [] => split_from r s' (piece ++ [a]) 0
  end.
Proof.
  intros Hmin. cbn [split_from].
  destruct (ms r (a :: s') []) as [|[rest c] l] eqn:E; [reflexivity|].
  destruct (ms_head _ _ _ _ _ E) as (t & Ht & M). apply Matches_min_len in M.
  destruct t as [|b t]; [simpl in M; lia|].
  simpl in Ht. inversion Ht; subst b s'. clear Ht.
  replace (length (a :: t ++ rest) - length rest) with (S (length t))
    by (simpl; rewrite length_app; lia).
  f_equal. rewrite split_from_skip by (rewrite length_app; lia).
  rewrite skipn_app_exact. reflexivity.
Qed.

Lemma split_from_nonempty (r : regex) :
  forall s piece skip, split_from r s piece skip <> [].
Proof.
  induction s as [|a s IH]; intros piece skip.
  - destruct skip; discriminate.
  - destruct skip as [|k]; cbn [split_from]; [|apply IH].
    destruct (ms r (a :: s) []) as [|[rest c] l]; [apply IH|].
    destruct (length (a :: s) - length rest); [|discriminate].
    destruct (is_empty piece); [apply IH|discriminate].
Qed.

Lemma join_cons (sep p : str) (parts : list str) :
  parts <> [] -> join sep (p :: parts) = p ++ sep ++ join sep parts.
Proof. destruct parts; [congruence|reflexivity]. Qed.

(** Joining the pieces with a text is replacing every separator by it. *)
Lemma join_split_from (r : regex) (sep : str) :
  1 <= min_len r ->
  forall s piece, join sep (split_from r s piece 0) = piece ++ replace_all r sep s.
Proof.
  intros Hmin s. remember (length s) as n eqn:Hn. revert s Hn.
  induction n as [n IH] using lt_wf_ind. intros s Hn piece.
  destruct s as [|a s'].
  - rewrite replace_all_nil by exact Hmin. simpl. rewrite app_nil_r. reflexivity.
  - rewrite split_from_cons, replace_all_cons by exact Hmin.
    destruct (ms r (a :: s') []) as [|[rest c] l] eqn:E.
    + rewrite (IH (length s')) by (simpl in Hn; lia || reflexivity).
      rewrite <- app_assoc. reflexivity.
    + destruct (ms_head _ _ _ _ _ E) as (t & Ht & M). apply Matches_min_len in M.
      rewrite join_cons by apply split_from_nonempty.
      rewrite (IH (length rest)); [reflexivity| |reflexivity].
      rewrite Hn, Ht, length_app. lia.
Qed.

Lemma join_split (r : regex) (sep s : str) :
  1 <= min_len r -> join sep (split_re r s) = replace_all r sep s.
Proof.
  intros Hmin. destruct s as [|a s'].
  - unfold split_re. rewrite ms_nil_min_len, replace_all_nil by exact Hmin. reflexivity.
  - unfold split_re. apply (join_split_from r sep Hmin (a :: s') []).
Qed.

Lemma trim_edges (s : str) :
  head_not_space (trim s) /\ ends_with_space (trim s) = false.
Proof.
  unfold trim. set (y := trimStart s). split.
  - destruct (trimEnd_prefix y) as [ws Hws]. pose proof (trimStart_head s) as Hh.
    fold y in Hh. destruct (trimEnd y) as [|a z]; [exact I|]. rewrite Hws in Hh. exact Hh.
  - unfold ends_with_space, trimEnd. rewrite rev_involutive.
    pose proof (trimStart_head (rev y)) as Hh.
    destruct (trimStart (rev y)); [reflexivity|exact Hh].
Qed.

Lemma trimmed_edges (s : str) :
  head_not_space s -> ends_with_space s = false -> trimmed s.
Proof.
  intros H1 H2. unfold trimmed, trim. rewrite trimStart_fixed by exact H1.
  apply trimEnd_fixed, H2.
Qed.

Lemma all_space_ends (t : str) :
  t <> [] -> forallb Char.is_space t = true -> ends_with_space t = true.
Proof.
  intros Hne H. destruct (exists_last Hne) as (t0 & z & ->).
  rewrite ends_with_space_app. rewrite forallb_app in H.
  apply andb_true_iff in H as [_ H]. simpl in H. rewrite andb_true_r in H. exact H.
Qed.

Lemma ends_with_space_tail (a : ascii) (s : str) :
  ends_with_space (a :: s) = false -> ends_with_space s = false.
Proof.
  destruct s as [|b s]; [reflexivity|]. intros H.
  rewrite <- (ends_with_space_suffix [a] (b :: s)) by discriminate. exact H.
Qed.

(** The pieces of a text that neither starts nor ends with white space,
    split at its white space: none is empty, none holds white space. *)
Lemma split_spaces_parts (s : str) :
  forall piece,
    no_space piece ->
    piece <> [] \/ (s <> [] /\ head_not_space s) ->
    ends_with_space s = false ->
    Forall (fun p => p <> [] /\ no_space p) (split_from Re.spaces s piece 0).
Proof.
  remember (length s) as n eqn:Hn. revert s Hn.
  induction n as [n IH] using lt_wf_ind. intros s Hn piece Hp Hh He.
  destruct s as [|a s'].
  - constructor; [|constructor]. split; [|exact Hp]. destruct Hh as [H|[H _]]; congruence.
  - rewrite split_from_cons by exact min_len_spaces.
    destruct (ms Re.spaces (a :: s') []) as [|[rest c] l] eqn:E.
    + apply ms_spaces_none in E.
      apply (IH (length s')); [simpl in Hn; lia|reflexivity| | |].
      * apply no_space_app. split; [exact Hp|]. unfold no_space. simpl. rewrite E. reflexivity.
      * left. destruct piece; discriminate.
      * exact (ends_with_space_tail _ _ He).
    + pose proof (ms_spaces_first _ _ _ _ E) as Hrest.
      destruct (ms_head _ _ _ _ _ E) as (t & Ht & M).
      unfold Re.spaces, many1 in M. apply Matches_Rep_inv in M as (Hsp & Hlen & _).
      assert (Hne : t <> []) by (destruct t; [simpl in Hlen; lia|discriminate]).
      assert (Ha : Char.is_space a = true).
      { destruct t as [|b t]; [congruence|]. simpl in Ht. inversion Ht; subst.
        simpl in Hsp. apply andb_true_iff in Hsp as [H _]. exact H. }
      assert (Hr : rest <> []).
      { intros ->. rewrite app_nil_r in Ht. rewrite Ht in He.
        rewrite (all_space_ends _ Hne Hsp) in He. discriminate. }
      assert (Her : ends_with_space rest = false).
      { rewrite Ht, ends_with_space_suffix in He by exact Hr. exact He. }
      constructor.
      * split; [|exact Hp]. destruct Hh as [H|[_ H]]; [exact H|].
        simpl in H. congruence.
      * apply (IH (length rest)); [|reflexivity|reflexivity| |exact Her].
        -- rewrite Hn, Ht, length_app. destruct t; [congruence|simpl; lia].
        -- right. split; assumption.
Qed.

Lemma join_edges (parts : list str) :
  Forall (fun p => p <> [] /\ no_space p) parts -> parts <> [] ->
  join " " parts <> [] /\ head_not_space (join " " parts) /\
  ends_with_space (join " " parts) = false.
Proof.
  induction 1 as [|p parts [Hne Hp] Hall IH]; [congruence|]. intros _.
  assert (Hhead : head_not_space p).
  { destruct p as [|a p]; [exact I|]. unfold no_space in Hp. simpl in Hp.
    apply orb_false_iff in Hp as [H _]. exact H. }
  assert (Hend : ends_with_space p = false).
  { destruct (exists_last Hne) as (p0 & z & ->). rewrite ends_with_space_app.
    apply no_space_app in Hp as [_ Hz]. unfold no_space in Hz. simpl in Hz.
    apply orb_false_iff in Hz as [H _]. exact H. }
  destruct parts as [|q parts]; [cbn [join]; auto|].
  rewrite join_cons by discriminate.
  destruct (IH ltac:(discriminate)) as (Hj & _ & Hje). repeat split.
  - destruct p; [congruence|discriminate].
  - destruct p; [congruence|exact Hhead].
  - rewrite app_assoc, ends_with_space_suffix by exact Hj. exact Hje.
Qed.

(** The name read off a heading. *)
Lemma name_of_heading (innerText : str) :
  trim innerText <> [] ->
  let full := trim innerText in
  let parts := split_re Re.spaces full in
  let firstName := or_else (nth 0 parts []) [] in
  let lastName := or_else (join " " (tl parts)) [] in
  firstName <> [] /\ no_space firstName /\
  trimmed lastName /\ single_spaced lastName = true /\
  firstName ++ (if is_empty lastName then [] else (" " : str) ++ lastName) =
    replace_all Re.spaces " " full.
Proof.
  intros Hne full parts firstName lastName.
  destruct (trim_edges innerText) as [Hh He]. fold full in Hh, He, Hne.
  assert (Hparts : Forall (fun p => p <> [] /\ no_space p) parts).
  { unfold parts, split_re. destruct full as [|a f] eqn:Ef; [congruence|].
    apply split_spaces_parts; [reflexivity| |exact He]. right. split; [discriminate|exact Hh]. }
  assert (Hjoin : join " " parts = replace_all Re.spaces " " full).
  { apply join_split, min_len_spaces. }
  assert (Hnon : parts <> []).
  { unfold parts, split_re. destruct full; [congruence|]. apply split_from_nonempty. }
  destruct parts as [|f rest] eqn:Ep; [congruence|].
  inversion Hparts as [|? ? [Hf Hfs] Hrest]; subst.
  assert (E1 : firstName = f).
  { unfold firstName. cbn [nth]. destruct f; [congruence|reflexivity]. }
  assert (E2 : lastName = join " " rest).
  { unfold lastName. cbn [tl]. unfold or_else. destruct (join " " rest); reflexivity. }
  rewrite E1, E2. split; [exact Hf|]. split; [exact Hfs|].
  destruct rest as [|q rest].
  - cbn [join is_empty]. repeat split; try reflexivity.
    rewrite app_nil_r. exact Hjoin.
  - destruct (join_edges (q :: rest) Hrest ltac:(discriminate)) as (Hj & Hjh & Hje).
    rewrite join_cons in Hjoin by discriminate.
    split; [exact (trimmed_edges _ Hjh Hje)|]. split.
    + pose proof (proj1 (spaces_collapse full)) as Hs. rewrite <- Hjoin in Hs.
      apply single_spaced_suffix in Hs. exact (single_spaced_suffix _ _ Hs).
    + destruct (join " " (q :: rest)); [congruence|]. exact Hjoin.
Qed.

Lemma find_heading_Some (querySelector : str -> option str) (sels : list str)
    (innerText : str) :
  find_heading querySelector sels = Some innerText ->
  trim innerText <> [] /\ length (trim innerText) < 60 /\
  includes newline (trim innerText) = false /\
  exists sel, In sel sels /\ querySelector sel = Some innerText.
Proof.
  induction sels as [|sel sels IH]; [discriminate|]. cbn [find_heading].
  assert (Hnext : find_heading querySelector sels = Some innerText ->
            trim innerText <> [] /\ length (trim innerText) < 60 /\
            includes newline (trim innerText) = false /\
            exists sel0, In sel0 (sel :: sels) /\ querySelector sel0 = Some innerText).
  { intros H. destruct (IH H) as (H1 & H2 & H3 & s0 & Hin & Hq).
    repeat split; auto. exists s0. split; [right; exact Hin|exact Hq]. }
  destruct (querySelector sel) as [t|] eqn:Eq; [|exact Hnext].
  destruct (is_empty (trim t)) eqn:Ee; cbn [negb]; [exact Hnext|].
  destruct ((length (trim t) <? 60) && negb (includes newline (trim t))) eqn:Ec;
    [|exact Hnext].
  intros [= <-]. apply andb_true_iff in Ec as [Hl Hn].
  apply Nat.ltb_lt in Hl. apply negb_true_iff in Hn.
  repeat split; auto.
  - intros H. rewrite H in Ee. discriminate.
  - exists sel. split; [left; reflexivity|exact Eq].
Qed.

(** X27.  Without a heading that qualifies [extractProfileName] gives two
    empty names.  With one, the first name is not empty and holds no white
    space; the last name is trimmed and single-spaced; the first name, a
    space and the last name (the first name alone when the last is empty)
    are the trimmed text of the heading with every run of white space
    made one space; and the two names have fewer than 60 characters
    together. *)
Theorem profile_name_parts (querySelector : str -> option str) :
  let name := extractProfileName querySelector in
  (find_heading querySelector selectors = None -> name = ([], [])) /\
  (forall innerText, find_heading querySelector selectors = Some innerText ->
     fst name <> [] /\ no_space (fst name) /\
     trimmed (snd name) /\ single_spaced (snd name) = true /\
     fst name ++ (if is_empty (snd name) then [] else (" " : str) ++ snd name) =
       replace_all Re.spaces " " (trim innerText) /\
     length (fst name) + length (snd name) < 60).
Proof.
  unfold extractProfileName.
  destruct (find_heading querySelector selectors) as [t|] eqn:E; cbv zeta.
  2:{ split; [reflexivity|discriminate]. }
  split; [discriminate|]. intros innerText [= <-].
  destruct (find_heading_Some _ _ _ E) as (Hne & Hlen & _).
  destruct (name_of_heading t Hne) as (H1 & H2 & H3 & H4 & H5). cbv zeta in *.
  cbn [fst snd]. repeat split; try assumption.
  pose proof (replace_all_length Re.spaces " " (trim t) min_len_spaces (le_n 1)) as Hl.
  rewrite <- H5, length_app in Hl.
  match goal with |- _ + length ?l < _ => destruct l end;
    cbn [is_empty] in Hl; rewrite ?length_app in Hl; simpl in Hl |- *; lia.
Qed.

(** *** The address of the profile *)

Lemma lower_slash (a : ascii) : Char.eqb (Char.lower a) "/" = Char.eqb a "/".
Proof. each_char a. Qed.

Lemma ends_with_slash_lower (s : str) :
  ends_with_slash (toLowerCase s) = ends_with_slash s.
Proof.
  unfold ends_with_slash, toLowerCase. rewrite <- map_rev.
  destruct (rev s); [reflexivity|]. simpl. apply lower_slash.
Qed.

Lemma strip_slashes_app_slashes (s sl : str) :
  forallb (Char.exactly "/") sl = true -> strip_slashes (s ++ sl) = strip_slashes s.
Proof.
  revert s. induction sl as [|a sl IH]; intros s H; [rewrite app_nil_r; reflexivity|].
  simpl in H. apply andb_true_iff in H as [Ha H]. apply Char_eqb_eq in Ha. subst a.
  change (s ++ "/"%char :: sl) with (s ++ ("/" : str) ++ sl).
  rewrite app_assoc, IH by exact H. apply strip_slashes_app_slash.
Qed.

Lemma getCleanLinkedInUrl_unfold (pathname : str) :
  getCleanLinkedInUrl pathname = ("https://www.linkedin.com" : str) ++ strip_slashes pathname.
Proof. unfold getCleanLinkedInUrl. rewrite replace_trailing_slashes. reflexivity. Qed.

Lemma normalize_clean_url (pathname : str) :
  no_space pathname -> includes "http" (toLowerCase pathname) = false ->
  normalizeLinkedinUrl (getCleanLinkedInUrl pathname) =
  linkedin_https ++ toLowerCase (strip_slashes pathname).
Proof.
  intros Hs Hh. rewrite getCleanLinkedInUrl_unfold, normalize_unfold.
  set (q := toLowerCase (strip_slashes pathname)).
  assert (Hq : no_space q).
  { apply no_space_toLowerCase, strip_slashes_no_space, Hs. }
  assert (Hqh : includes "http" q = false).
  { destruct (strip_slashes_parts pathname) as (sl & Hp & _).
    rewrite Hp in Hh. unfold toLowerCase in Hh. rewrite map_app in Hh.
    apply includes_false_app in Hh as [H _]. exact H. }
  assert (Hlow : toLowerCase (("https://www.linkedin.com" : str) ++ strip_slashes pathname) =
                 ("https://www.linkedin.com" : str) ++ q).
  { unfold toLowerCase. rewrite map_app. reflexivity. }
  rewrite Hlow.
  rewrite trim_no_space by (apply no_space_app; split; [reflexivity|exact Hq]).
  assert (H1 : replace_str "https://www.linkedin.com" linkedin_https
                 (("https://www.linkedin.com" : str) ++ q) = linkedin_https ++ q).
  { reflexivity. }
  rewrite H1.
  rewrite !replace_after_https by (simpl; auto).
  rewrite (replace_str_absent "http" "http://www.linkedin.com") by (reflexivity || exact Hqh).
  rewrite (replace_str_absent "http" "http://linkedin.com") by (reflexivity || exact Hqh).
  rewrite strip_after_https. f_equal. apply strip_slashes_fixed.
  unfold q. rewrite ends_with_slash_lower. apply strip_slashes_no_slash.
Qed.

Lemma names_of_clean_url (slug sl : str) :
  slug <> [] -> without "/?" slug -> forallb (Char.exactly "/") sl = true ->
  namesFromLinkedinUrl (getCleanLinkedInUrl (("/in/" : str) ++ slug ++ sl)) =
  tokensFromSlug slug.
Proof.
  intros Hne Hslug Hsl. rewrite getCleanLinkedInUrl_unfold.
  rewrite app_assoc, strip_slashes_app_slashes by exact Hsl.
  rewrite strip_slashes_fixed.
  2:{ destruct (exists_last Hne) as (s0 & z & ->). unfold ends_with_slash.
      rewrite app_assoc, rev_app_distr. simpl.
      apply without_app in Hslug as [_ Hz]. unfold without in Hz. simpl in Hz.
      rewrite andb_true_r in Hz. unfold not_in in Hz. simpl in Hz.
      apply negb_true_iff, orb_false_iff in Hz as [Hz _]. exact Hz. }
  unfold namesFromLinkedinUrl.
  destruct (match_in_slug "https://www.linkedin.com" slug [] eq_refl Hne Hslug I)
    as (m & E & Hg).
  rewrite app_nil_r in E. rewrite E, Hg. reflexivity.
Qed.

(** X28.  The address the content script sends normalises to the host
    ["https://linkedin.com"] followed by the path in lower case without its
    trailing slashes, for a path without white space that does not hold
    ["http"]; and for the path of a profile, ["/in/"], a slug and
    slashes, the name parts of the address are those of the slug. *)
Theorem profile_address (pathname slug sl : str) :
  (no_space pathname -> includes "http" (toLowerCase pathname) = false ->
   normalizeLinkedinUrl (getCleanLinkedInUrl pathname) =
   linkedin_https ++ toLowerCase (strip_slashes pathname)) /\
  (slug <> [] -> without "/?" slug -> forallb (Char.exactly "/") sl = true ->
   namesFromLinkedinUrl (getCleanLinkedInUrl (("/in/" : str) ++ slug ++ sl)) =
   tokensFromSlug slug).
Proof. split; [apply normalize_clean_url|apply names_of_clean_url]. Qed.

Lemma profile_address_witness :
  normalizeLinkedinUrl (getCleanLinkedInUrl "/in/Jane-Doe-12345/") = jane_normal /\
  namesFromLinkedinUrl (getCleanLinkedInUrl "/in/Jane-Doe-12345/") =
    tokensFromSlug "Jane-Doe-12345".
Proof.
  destruct (profile_address "/in/Jane-Doe-12345/" "Jane-Doe-12345" "/") as [H1 H2].
  split.
  - rewrite H1; reflexivity.
  - apply H2; [discriminate|reflexivity|reflexivity].
Defined.

Lemma profile_name_parts_witness :
  extractProfileName heading_only = (("Jane" : str), ("van Doe" : str)) /\
  no_space (fst (extractProfileName heading_only)).
Proof.
  split; [reflexivity|].
  destruct (proj2 (profile_name_parts heading_only) jane_heading eq_refl) as (_ & H & _).
  exact H.
Defined.
